(** * NiagaraNodeFunctionCall: a shallow embedding of the call-site compiler

    The development follows
    [Engine/Plugins/FX/Niagara/Source/NiagaraEditor/Private/NiagaraNodeFunctionCall.cpp].
    Objects reached through pointers are records; a [nullptr] is [None];
    the arrays the code walks are lists; a pointer into the caller's pin
    array is the position of the pin in that array.  Collaborators whose
    code lives in other files (the translator, the schema, the history
    builder) are represented by the calls made on them, in order. *)

From Stdlib Require Import ZArith.
From stdpp Require Import base list strings option.

Module Niagara.

(** ** Names, types and variables *)

Definition FName := string.
Definition FString := string.
Definition NAME_None : FName := "None".
Definition INDEX_NONE : Z := (-1)%Z.

Definition IsNone (n : FName) : bool := bool_decide (n = NAME_None).
Definition IsEqual (a b : FName) : bool := bool_decide (a = b).

(** [GetClass()] is the class of a class-typed (data interface) type. *)
Record FNiagaraTypeDefinition := {
  TypeName : string;
  GetClass : option string;
  IsDataInterface : bool
}.

#[global] Instance FNiagaraTypeDefinition_eq_dec : EqDecision FNiagaraTypeDefinition.
Proof. solve_decision. Defined.

Definition GetParameterMapDef : FNiagaraTypeDefinition :=
  {| TypeName := "NiagaraParameterMap"; GetClass := None; IsDataInterface := false |}.

Record FNiagaraVariable := {
  GetName : FName;
  GetType : FNiagaraTypeDefinition
}.

#[global] Instance FNiagaraVariable_eq_dec : EqDecision FNiagaraVariable.
Proof. solve_decision. Defined.

(** [operator==] of [FNiagaraVariable]: same name and same type. *)
Definition VarEq (a b : FNiagaraVariable) : bool := bool_decide (a = b).

(** Modelled from the spec: [FNiagaraVariable::IsEquivalent] is defined
    outside NiagaraNodeFunctionCall.cpp (with the variable type); section
    4.1 describes the query as name+type equality. *)
Definition IsEquivalent (a b : FNiagaraVariable) : bool :=
  IsEqual (GetName a) (GetName b) && bool_decide (GetType a = GetType b).

(** ** Enumerations *)

Inductive ENiagaraInputNodeUsage :=
| Usage_Undefined | Usage_Parameter | Usage_Attribute | Usage_SystemConstant
| Usage_TranslatorConstant | Usage_RapidIterationParameter.

Inductive ENiagaraScriptUsage :=
| Script_Function | Script_Module | Script_DynamicInput
| Script_ParticleSpawnScript | Script_ParticleUpdateScript | Script_Other.

#[global] Instance ENiagaraScriptUsage_eq_dec : EqDecision ENiagaraScriptUsage.
Proof. solve_decision. Defined.

(** ** Pins and nodes *)

(** What a [LinkedTo] entry points at: an output pin that already exists in
    the caller graph, or output pin 0 of the [n]-th input node that
    [Compile] created with [NewObject<UNiagaraNodeInput>(CallerGraph)]. *)
Inductive PinRef :=
| GraphPin (id : nat)
| NewNodeOutputPin (n : nat).

#[global] Instance PinRef_eq_dec : EqDecision PinRef.
Proof. solve_decision. Defined.

Record UEdGraphPin := {
  PinName : FName;
  PinType : FNiagaraTypeDefinition;
  LinkedTo : list PinRef;
  bDefaultValueIsIgnored : bool;
  DefaultValue : FString
}.

#[global] Instance UEdGraphPin_eq_dec : EqDecision UEdGraphPin.
Proof. solve_decision. Defined.

(** [Pin->GetFName()] and [Pin->GetDisplayName()] both read the pin's name. *)
Definition GetFName (p : UEdGraphPin) : FName := PinName p.
Definition GetDisplayName (p : UEdGraphPin) : FString := PinName p.

(** Modelled from the spec: [UEdGraphSchema_Niagara::PinToNiagaraVariable]
    is defined outside NiagaraNodeFunctionCall.cpp (with the schema); a slot
    stands for the variable with the slot's name and type. *)
Definition PinToNiagaraVariable (p : UEdGraphPin) : FNiagaraVariable :=
  {| GetName := PinName p; GetType := PinType p |}.

Definition PinToTypeDefinition (p : UEdGraphPin) : FNiagaraTypeDefinition := PinType p.

(** A function input node of the callee graph.  [IsExposed], [IsRequired],
    [IsHidden] and [CanAutoBind] are accessors of [UNiagaraNodeInput], a
    class declared in another file: the record carries what each of them
    returns, and the raw flag [ExposureOptions.bRequired] next to them. *)
Record UNiagaraNodeInput := {
  Input : FNiagaraVariable;
  IsExposed : bool;
  IsRequired : bool;
  IsHidden : bool;
  CanAutoBind : bool;
  ExposureOptions_bRequired : bool
}.

Record UNiagaraNodeOutput := {
  OutputUsage : ENiagaraScriptUsage;
  Outputs : list FNiagaraVariable;
  GetAllPins : list UEdGraphPin
}.

(** The node that [Compile] creates when an input is auto-bound. *)
Record NewInputNode := {
  NewInput : FNiagaraVariable;
  NewUsage : ENiagaraInputNodeUsage
}.

(** [FGuid]: four 32-bit words; [FGuid()] and [FGuid(0, 0, 0, 0)] are the
    invalid id. *)
Record FGuid := { GuidA : Z; GuidB : Z; GuidC : Z; GuidD : Z }.

#[global] Instance FGuid_eq_dec : EqDecision FGuid.
Proof. solve_decision. Defined.

Definition FGuid_zero : FGuid := {| GuidA := 0; GuidB := 0; GuidC := 0; GuidD := 0 |}.

Definition FGuid_IsValid (g : FGuid) : bool :=
  negb (Z.lor (Z.lor (GuidA g) (GuidB g)) (Z.lor (GuidC g) (GuidD g)) =? 0)%Z.

(** A package is known by its name; [GetOutermost()] of an object is the
    package that contains it. *)
Definition UPackage := string.

(** A graph as this file's functions see it.  As the graph a call site
    lives in: its output nodes, what every existing output pin traces to,
    the objects created with the graph as their outer, and its package.  As
    the graph a call site calls: the input nodes that [FindInputNodes]
    returns with [bSort] and [bFilterDuplicates] set, its static switch
    inputs, its change id, and the packages of the graphs that
    [GetAllReferencedGraphs] collects. *)
Record UNiagaraGraph := {
  OutputNodes : list UNiagaraNodeOutput;
  TracedOutputPin : nat -> option PinRef;
  NewObjects : list NewInputNode;
  GetOutermost : option UPackage;
  FindInputNodes : list UNiagaraNodeInput;
  FindStaticSwitchInputs : list FNiagaraVariable;
  GetChangeID : FGuid;
  GetAllReferencedGraphs : list (option UPackage)
}.

Definition FindOutputNode (G : UNiagaraGraph) (u : ENiagaraScriptUsage)
  : option UNiagaraNodeOutput :=
  List.find (fun n => bool_decide (OutputUsage n = u)) (OutputNodes G).

(** Modelled from the spec: [UNiagaraNode::TraceOutputPin] is defined
    outside NiagaraNodeFunctionCall.cpp (with the base node); it follows
    pass-through nodes to the true source output.  An input node is a
    source, so its output pin traces to itself; for the other pins the graph
    records the result ([None] is [nullptr]). *)
Definition TraceOutputPin (G : UNiagaraGraph) (r : PinRef) : option PinRef :=
  match r with
  | GraphPin id => TracedOutputPin G id
  | NewNodeOutputPin n => Some (NewNodeOutputPin n)
  end.

(** ** Assertions

    [check(...)] and [CastChecked] stop the program when their condition is
    false, and so does a call through [nullptr]: the function then returns
    nothing ([CheckFailed]). *)
Inductive Checked (A : Type) :=
| CheckFailed
| Returned (a : A).
Arguments CheckFailed {A}.
Arguments Returned {A} a.

Definition bindC {A B} (m : Checked A) (k : A -> Checked B) : Checked B :=
  match m with
  | CheckFailed => CheckFailed
  | Returned a => k a
  end.

Notation "'do' x <- m ; k" := (bindC m (fun x => k))
  (at level 10, x name, m at level 100, k at level 200).



(** ** Scripts, signatures and the function call node *)

Record UNiagaraScriptSource := {
  NodeGraph : option UNiagaraGraph
}.

(** [GetSource()] is [None] for a script without source, [Some None] for a
    source that is not a [UNiagaraScriptSource] (the cast fails). *)
Record UNiagaraScript := {
  ScriptName : FString;
  ScriptPathName : FString;
  GetSource : option (option UNiagaraScriptSource);
  GetUsage : ENiagaraScriptUsage;
  bDeprecated : bool;
  DeprecationMessage : FString;
  DeprecationRecommendation : option FString;
  bExperimental : bool;
  ExperimentalMessage : FString
}.

Record FNiagaraFunctionSignature := {
  Signature_IsValid : bool;
  Signature_Name : FString;
  Signature_Inputs : list FNiagaraVariable;
  Signature_Outputs : list FNiagaraVariable;
  bRequiresExecPin : bool;
  bMemberFunction : bool;
  bSoftDeprecatedFunction : bool;
  Signature_bExperimental : bool;
  Signature_ExperimentalMessage : FString;
  Signature_FunctionSpecifiers : list (FName * FName)
}.

Record FNiagaraPropagatedVariable := {
  SwitchParameter : FNiagaraVariable;
  PropagatedName : FString
}.

(** Messages: a literal string, or one of the formats of this file with its
    arguments. *)
Inductive FText :=
| FromString (s : FString)
| StaleFunctionCallError
| RequiredInputUnboundErrorFmt (PinDisplayName : FString)
| UnknownFunction (StackName : FString)
| DeprecationErrorFmtUnknown (NodeName : FString)
| DeprecationErrorFmtMessageAndRecommendation (NodeName Message Recommendation : FString)
| DeprecationErrorFmtRecommendation (NodeName Recommendation : FString)
| DeprecationErrorFmtMessage (NodeName Message : FString)
| FunctionExperimental
| FunctionExperimentalReason (Message : FString)
| FunctionDeprecatedSoftly
| NiagaraFuncCallCannotAddToGraph.

(** [FString()], the empty message. *)
Definition NoText : FText := FromString EmptyString.

Inductive EMessageSeverity := Severity_Error | Severity_Warning | Severity_Info.

Record UNiagaraNodeFunctionCall := {
  FunctionScript : option UNiagaraScript;
  FunctionScriptAssetObjectPath : FName;
  Signature : FNiagaraFunctionSignature;
  FunctionSpecifiers : list (FName * FName);
  FunctionDisplayName : FString;
  PropagatedStaticSwitchParameters : list FNiagaraPropagatedVariable;
  CachedChangeId : FGuid;
  InputPins : list UEdGraphPin;
  OutputPins : list UEdGraphPin;
  IsNodeEnabled : bool;
  GetValidateDataInterfaces : bool;
  bHasCompilerMessage : bool;
  ErrorType : EMessageSeverity;
  ErrorMsg : FText;
  NodeUpgradeMessage : FText
}.

Definition GetFunctionName (n : UNiagaraNodeFunctionCall) : FString := FunctionDisplayName n.

(** [CastChecked] asserts that the cast object exists and has the type. *)
Definition CastChecked_Source (s : option (option UNiagaraScriptSource))
  : Checked UNiagaraScriptSource :=
  match s with
  | Some (Some src) => Returned src
  | _ => CheckFailed
  end.

(** [Cast] gives [nullptr] where [CastChecked] would stop. *)
Definition Cast_Source (s : option (option UNiagaraScriptSource))
  : option UNiagaraScriptSource :=
  match s with
  | Some (Some src) => Some src
  | _ => None
  end.

Definition GetCalledGraph (n : UNiagaraNodeFunctionCall) : Checked (option UNiagaraGraph) :=
  match FunctionScript n with
  | Some script =>
      do Source <- CastChecked_Source (GetSource script);
      Returned (NodeGraph Source)
  | None => Returned None
  end.

(** ** The translator

    [Compile] only sequences calls on the translator.  The calls are
    recorded in order; what the translator hands back (value handles, the
    outputs of the emitted call) is the translator's business. *)

(** A pin argument is the position of the pin among the caller's input
    pins, with the pin as it is at the time of the call. *)
Inductive TranslatorCall :=
| Warning (msg : FText)
| Error (msg : FText) (pin : option nat)
| EnterFunctionCallNode (HiddenPinNames : list FName)
| ExitFunctionCallNode
| GetConstant (v : FNiagaraVariable)
| CompilePin (pin : nat) (p : UEdGraphPin)
| CompileInputPins
| SetStaticSwitchConstants (pins : list UEdGraphPin)
| FunctionCall (Inputs : list Z).

Record FHlslNiagaraTranslator := {
  CompilePin_handle : UEdGraphPin -> Z;
  GetConstant_handle : FNiagaraVariable -> Z;
  (** [UNiagaraNode::CompileInputPins]: [bError] and the compiled inputs. *)
  CompileInputPins_result : list UEdGraphPin -> bool * list Z;
  (** What [FunctionCall] leaves in [Outputs]. *)
  FunctionCall_outputs : list Z -> list Z -> list Z
}.

Definition is_whitespace (c : Ascii.ascii) : bool :=
  let n := Ascii.nat_of_ascii c in
  (n =? 32)%nat || ((9 <=? n)%nat && (n <=? 13)%nat).

Fixpoint IsEmptyOrWhitespace (s : FString) : bool :=
  match s with
  | EmptyString => true
  | String c s' => is_whitespace c && IsEmptyOrWhitespace s'
  end.

Definition GetFormattedDeprecationMessage (FunctionScript : UNiagaraScript)
    (FunctionDisplayName : FString) : FText :=
  match DeprecationRecommendation FunctionScript,
        negb (IsEmptyOrWhitespace (DeprecationMessage FunctionScript)) with
  | Some Recommendation, true =>
      DeprecationErrorFmtMessageAndRecommendation FunctionDisplayName
        (DeprecationMessage FunctionScript) Recommendation
  | Some Recommendation, false =>
      DeprecationErrorFmtRecommendation FunctionDisplayName Recommendation
  | None, true =>
      DeprecationErrorFmtMessage FunctionDisplayName (DeprecationMessage FunctionScript)
  | None, false => DeprecationErrorFmtUnknown FunctionDisplayName
  end.

(** [TArray::FindByPredicate]: the first element that satisfies the
    predicate, with its position (the pointer into the array). *)
Fixpoint FindByPredicate {A} (Pred : A -> bool) (l : list A) : option (nat * A) :=
  match l with
  | [] => None
  | x :: l' =>
      if Pred x then Some (0, x)
      else match FindByPredicate Pred l' with
           | Some (i, y) => Some (S i, y)
           | None => None
           end
  end.

Definition BreakAllPinLinks (p : UEdGraphPin) : UEdGraphPin :=
  {| PinName := PinName p; PinType := PinType p; LinkedTo := [];
     bDefaultValueIsIgnored := bDefaultValueIsIgnored p; DefaultValue := DefaultValue p |}.

Definition MakeLinkTo (r : PinRef) (p : UEdGraphPin) : UEdGraphPin :=
  {| PinName := PinName p; PinType := PinType p;
     LinkedTo := if bool_decide (r ∈ LinkedTo p) then LinkedTo p else LinkedTo p ++ [r];
     bDefaultValueIsIgnored := bDefaultValueIsIgnored p; DefaultValue := DefaultValue p |}.

(** [NewObject<UNiagaraNodeInput>(CallerGraph)]: the graph with the new
    node, and the new node's output pin 0. *)
Definition NewObject (G : UNiagaraGraph) (n : NewInputNode) : UNiagaraGraph * PinRef :=
  ({| OutputNodes := OutputNodes G; TracedOutputPin := TracedOutputPin G;
      NewObjects := NewObjects G ++ [n]; GetOutermost := GetOutermost G;
      FindInputNodes := FindInputNodes G;
      FindStaticSwitchInputs := FindStaticSwitchInputs G;
      GetChangeID := GetChangeID G;
      GetAllReferencedGraphs := GetAllReferencedGraphs G |},
   NewNodeOutputPin (length (NewObjects G))).

(** What the loop of [Compile] reads and writes: the caller's input pins
    and graph, the calls made on the translator, [Inputs] and [bError]. *)
Record CompileState := {
  CallerInputPins : list UEdGraphPin;
  CallerGraph : UNiagaraGraph;
  Calls : list TranslatorCall;
  Inputs : list Z;
  bError : bool
}.

Definition Call (c : TranslatorCall) (st : CompileState) : CompileState :=
  {| CallerInputPins := CallerInputPins st; CallerGraph := CallerGraph st;
     Calls := Calls st ++ [c]; Inputs := Inputs st; bError := bError st |}.

Definition Inputs_Add (h : Z) (st : CompileState) : CompileState :=
  {| CallerInputPins := CallerInputPins st; CallerGraph := CallerGraph st;
     Calls := Calls st; Inputs := Inputs st ++ [h]; bError := bError st |}.

Definition SetError (st : CompileState) : CompileState :=
  {| CallerInputPins := CallerInputPins st; CallerGraph := CallerGraph st;
     Calls := Calls st; Inputs := Inputs st; bError := true |}.

Definition SetPinAndGraph (i : nat) (p : UEdGraphPin) (G : UNiagaraGraph)
    (st : CompileState) : CompileState :=
  {| CallerInputPins := <[i := p]> (CallerInputPins st); CallerGraph := G;
     Calls := Calls st; Inputs := Inputs st; bError := bError st |}.

Definition SetInputPins (pins : list UEdGraphPin) (n : UNiagaraNodeFunctionCall)
  : UNiagaraNodeFunctionCall :=
  {| FunctionScript := FunctionScript n;
     FunctionScriptAssetObjectPath := FunctionScriptAssetObjectPath n;
     Signature := Signature n; FunctionSpecifiers := FunctionSpecifiers n;
     FunctionDisplayName := FunctionDisplayName n;
     PropagatedStaticSwitchParameters := PropagatedStaticSwitchParameters n;
     CachedChangeId := CachedChangeId n;
     InputPins := pins; OutputPins := OutputPins n;
     IsNodeEnabled := IsNodeEnabled n;
     GetValidateDataInterfaces := GetValidateDataInterfaces n;
     bHasCompilerMessage := bHasCompilerMessage n; ErrorType := ErrorType n;
     ErrorMsg := ErrorMsg n; NodeUpgradeMessage := NodeUpgradeMessage n |}.

Definition SetSignatureSpecifiers (n : UNiagaraNodeFunctionCall) : UNiagaraNodeFunctionCall :=
  let S := Signature n in
  {| FunctionScript := FunctionScript n;
     FunctionScriptAssetObjectPath := FunctionScriptAssetObjectPath n;
     Signature :=
       {| Signature_IsValid := Signature_IsValid S; Signature_Name := Signature_Name S;
          Signature_Inputs := Signature_Inputs S; Signature_Outputs := Signature_Outputs S;
          bRequiresExecPin := bRequiresExecPin S; bMemberFunction := bMemberFunction S;
          bSoftDeprecatedFunction := bSoftDeprecatedFunction S;
          Signature_bExperimental := Signature_bExperimental S;
          Signature_ExperimentalMessage := Signature_ExperimentalMessage S;
          Signature_FunctionSpecifiers := FunctionSpecifiers n |};
     FunctionSpecifiers := FunctionSpecifiers n;
     FunctionDisplayName := FunctionDisplayName n;
     PropagatedStaticSwitchParameters := PropagatedStaticSwitchParameters n;
     CachedChangeId := CachedChangeId n;
     InputPins := InputPins n; OutputPins := OutputPins n;
     IsNodeEnabled := IsNodeEnabled n;
     GetValidateDataInterfaces := GetValidateDataInterfaces n;
     bHasCompilerMessage := bHasCompilerMessage n; ErrorType := ErrorType n;
     ErrorMsg := ErrorMsg n; NodeUpgradeMessage := NodeUpgradeMessage n |}.

(** What [Compile] leaves behind: the node and the caller graph after the
    call, the calls made on the translator, the [Inputs] array and [bError]
    as they are when the function ends, and [Outputs]. *)
Record CompileResult := {
  Result_Node : UNiagaraNodeFunctionCall;
  Result_Graph : UNiagaraGraph;
  Result_Calls : list TranslatorCall;
  Result_Inputs : list Z;
  Result_bError : bool;
  Result_Outputs : list Z
}.

Section Compiler.

(** [FNiagaraConstants::GetEngineConstants()]. *)
Variable SysConstants : list FNiagaraVariable.

(** [FNiagaraStackGraphUtilities::GetUnusedFunctionInputPins]. *)
Variable GetUnusedFunctionInputPins : UNiagaraNodeFunctionCall -> list UEdGraphPin.

(** The class default object of a data interface class, when it is a
    [UNiagaraDataInterface], through its [ValidateFunction]. *)
Variable GetDefaultObject : string -> option (FNiagaraFunctionSignature -> list FText).

Definition FindAutoBoundInput (CallerGraph : UNiagaraGraph)
    (InputNode : UNiagaraNodeInput) (PinToAutoBind : UEdGraphPin)
  : Checked (option (FNiagaraVariable * ENiagaraInputNodeUsage)) :=
  if negb (IsExposed InputNode) then CheckFailed
  else if (0 <? length (LinkedTo PinToAutoBind))%nat || negb (CanAutoBind InputNode)
  then Returned None
  else
    let PinVar := PinToNiagaraVariable PinToAutoBind in
    let CallerOutputNodeSpawn := FindOutputNode CallerGraph Script_ParticleSpawnScript in
    let CallerOutputNodeUpdate := FindOutputNode CallerGraph Script_ParticleUpdateScript in
    let CallerOutputNode :=
      match CallerOutputNodeSpawn with
      | Some n => Some n
      | None => CallerOutputNodeUpdate
      end in
    let AttrVarPtr :=
      match CallerOutputNode with
      | Some n => List.find (fun Attr => IsEquivalent PinVar Attr) (Outputs n)
      | None => None
      end in
    match AttrVarPtr with
    | Some AttrVar => Returned (Some (AttrVar, Usage_Attribute))
    | None =>
        if existsb (VarEq PinVar) SysConstants
        then Returned (Some (PinVar, Usage_SystemConstant))
        else Returned None
    end.

(** [CallerPin->LinkedTo.Num() > 0 ? TraceOutputPin(CallerPin->LinkedTo[0]) : nullptr] *)
Definition TraceFirstLink (G : UNiagaraGraph) (CallerPin : UEdGraphPin) : option PinRef :=
  match LinkedTo CallerPin with
  | r :: _ => TraceOutputPin G r
  | [] => None
  end.

(** Finds the matching pin in the caller. *)
Definition MatchingPin (CallerInputPins : list UEdGraphPin)
    (FunctionInputNode : UNiagaraNodeInput) : option (nat * UEdGraphPin) :=
  FindByPredicate
    (fun InPin => IsEquivalent (PinToNiagaraVariable InPin) (Input FunctionInputNode))
    CallerInputPins.

(** The body of the loop over [FunctionInputNodes]. *)
Definition CompileFunctionInput (Translator : FHlslNiagaraTranslator)
    (FunctionInputNode : UNiagaraNodeInput) (st : CompileState) : Checked CompileState :=
  match MatchingPin (CallerInputPins st) FunctionInputNode with
  | None =>
      if IsExposed FunctionInputNode then
        Returned (Inputs_Add INDEX_NONE (SetError (Call (Error StaleFunctionCallError None) st)))
      else if ExposureOptions_bRequired FunctionInputNode then
        Returned (Inputs_Add (GetConstant_handle Translator (Input FunctionInputNode))
                    (Call (GetConstant (Input FunctionInputNode)) st))
      else Returned (Inputs_Add INDEX_NONE st)
  | Some (i, CallerPin) =>
      let PinVar := PinToNiagaraVariable CallerPin in
      do bound <-
        match TraceFirstLink (CallerGraph st) CallerPin with
        | Some r => Returned (Some r, CallerPin, st)
        | None =>
            do found <- FindAutoBoundInput (CallerGraph st) FunctionInputNode CallerPin;
            match found with
            | Some (AutoBoundVar, AutBoundUsage) =>
                let '(G, NewOutputPin) :=
                  NewObject (CallerGraph st) {| NewInput := PinVar; NewUsage := AutBoundUsage |} in
                let Linked := MakeLinkTo NewOutputPin (BreakAllPinLinks CallerPin) in
                Returned (Some NewOutputPin, Linked, SetPinAndGraph i Linked G st)
            | None => Returned (None, CallerPin, st)
            end
        end;
      let '(CallerLinkedTo, CallerPin, st) := bound in
      match CallerLinkedTo with
      | Some _ =>
          Returned (Inputs_Add (CompilePin_handle Translator CallerPin)
                      (Call (CompilePin i CallerPin) st))
      | None =>
          if IsRequired FunctionInputNode then
            if bDefaultValueIsIgnored CallerPin then
              Returned (Inputs_Add INDEX_NONE
                          (SetError
                             (Call (Error (RequiredInputUnboundErrorFmt (GetDisplayName CallerPin))
                                          (Some i)) st)))
            else
              Returned (Inputs_Add (CompilePin_handle Translator CallerPin)
                          (Call (CompilePin i CallerPin) st))
          else Returned (Inputs_Add INDEX_NONE st)
      end
  end.

Fixpoint CompileFunctionInputs (Translator : FHlslNiagaraTranslator)
    (FunctionInputNodes : list UNiagaraNodeInput) (st : CompileState) : Checked CompileState :=
  match FunctionInputNodes with
  | [] => Returned st
  | FunctionInputNode :: rest =>
      do st' <- CompileFunctionInput Translator FunctionInputNode st;
      CompileFunctionInputs Translator rest st'
  end.

Definition Finish (Translator : FHlslNiagaraTranslator) (this : UNiagaraNodeFunctionCall)
    (G : UNiagaraGraph) (calls : list TranslatorCall) (inputs : list Z) (error : bool)
    (Outputs : list Z) : CompileResult :=
  if negb error then
    {| Result_Node := this; Result_Graph := G;
       Result_Calls := calls ++ [FunctionCall inputs];
       Result_Inputs := inputs; Result_bError := error;
       Result_Outputs := FunctionCall_outputs Translator inputs Outputs |}
  else
    {| Result_Node := this; Result_Graph := G; Result_Calls := calls;
       Result_Inputs := inputs; Result_bError := error; Result_Outputs := Outputs |}.

(** The validation block of the signature branch: the errors that
    [ValidateFunction] reports, none when the block does not apply. *)
Definition ValidationErrors (this : UNiagaraNodeFunctionCall) : Checked (list FText) :=
  match Signature_Inputs (Signature this) with
  | Input0 :: _ =>
      if IsDataInterface (GetType Input0) && GetValidateDataInterfaces this then
        match GetClass (GetType Input0) with
        | None => CheckFailed
        | Some DIClass =>
            match GetDefaultObject DIClass with
            | Some ValidateFunction => Returned (ValidateFunction (Signature this))
            | None => Returned []
            end
        end
      else Returned []
  | [] => Returned []
  end.

(** The state in which the loop over [FunctionInputNodes] starts: the
    deprecation warning, if any, has been given and the translator has
    entered the call with the names of the unused pins. *)
Definition LoopStart (this : UNiagaraNodeFunctionCall) (Script : UNiagaraScript)
    (CallerGraph : UNiagaraGraph) : CompileState :=
  let deprecation :=
    if bDeprecated Script && IsNodeEnabled this
    then [Warning (GetFormattedDeprecationMessage Script (FunctionDisplayName this))]
    else [] in
  let HiddenPinNames := remove_dups (map PinName (GetUnusedFunctionInputPins this)) in
  {| CallerInputPins := InputPins this; CallerGraph := CallerGraph;
     Calls := deprecation ++ [EnterFunctionCallNode HiddenPinNames];
     Inputs := []; bError := false |}.

Definition Compile (Translator : FHlslNiagaraTranslator) (this : UNiagaraNodeFunctionCall)
    (CallerGraph : UNiagaraGraph) (Outputs : list Z) : Checked CompileResult :=
  match FunctionScript this with
  | Some Script =>
      do Source <- CastChecked_Source (GetSource Script);
      match NodeGraph Source with
      | None => CheckFailed
      | Some FunctionGraph =>
          let FunctionInputNodes := FindInputNodes FunctionGraph in
          let st0 := LoopStart this Script CallerGraph in
          do st <- CompileFunctionInputs Translator FunctionInputNodes st0;
          let st := Call (SetStaticSwitchConstants (CallerInputPins st)) st in
          let st := Call ExitFunctionCallNode st in
          Returned (Finish Translator (SetInputPins (CallerInputPins st) this)
                      (Niagara.CallerGraph st) (Calls st) (Inputs st) (bError st) Outputs)
      end
  | None =>
      if Signature_IsValid (Signature this) then
        do errors <- ValidationErrors this;
        if (0 <? length errors)%nat then
          Returned {| Result_Node := this; Result_Graph := CallerGraph;
                      Result_Calls := map (fun e => Error e None) errors;
                      Result_Inputs := []; Result_bError := true;
                      Result_Outputs := Outputs |}
        else
          let this' := SetSignatureSpecifiers this in
          let '(error, inputs) := CompileInputPins_result Translator (InputPins this') in
          Returned (Finish Translator this' CallerGraph
                      [EnterFunctionCallNode []; CompileInputPins; ExitFunctionCallNode]
                      inputs error Outputs)
      else
        Returned (Finish Translator this CallerGraph
                    [Error (UnknownFunction (GetFunctionName this)) None] [] true Outputs)
  end.

End Compiler.

(** ** Propagated static switches and RefreshFromExternalChanges *)

Definition SetMessages (has : bool) (type : EMessageSeverity) (msg upgrade : FText)
    (n : UNiagaraNodeFunctionCall) : UNiagaraNodeFunctionCall :=
  {| FunctionScript := FunctionScript n;
     FunctionScriptAssetObjectPath := FunctionScriptAssetObjectPath n;
     Signature := Signature n; FunctionSpecifiers := FunctionSpecifiers n;
     FunctionDisplayName := FunctionDisplayName n;
     PropagatedStaticSwitchParameters := PropagatedStaticSwitchParameters n;
     CachedChangeId := CachedChangeId n;
     InputPins := InputPins n; OutputPins := OutputPins n;
     IsNodeEnabled := IsNodeEnabled n;
     GetValidateDataInterfaces := GetValidateDataInterfaces n;
     bHasCompilerMessage := has; ErrorType := type;
     ErrorMsg := msg; NodeUpgradeMessage := upgrade |}.

Definition SetPropagated (l : list FNiagaraPropagatedVariable)
    (n : UNiagaraNodeFunctionCall) : UNiagaraNodeFunctionCall :=
  {| FunctionScript := FunctionScript n;
     FunctionScriptAssetObjectPath := FunctionScriptAssetObjectPath n;
     Signature := Signature n; FunctionSpecifiers := FunctionSpecifiers n;
     FunctionDisplayName := FunctionDisplayName n;
     PropagatedStaticSwitchParameters := l;
     CachedChangeId := CachedChangeId n;
     InputPins := InputPins n; OutputPins := OutputPins n;
     IsNodeEnabled := IsNodeEnabled n;
     GetValidateDataInterfaces := GetValidateDataInterfaces n;
     bHasCompilerMessage := bHasCompilerMessage n; ErrorType := ErrorType n;
     ErrorMsg := ErrorMsg n; NodeUpgradeMessage := NodeUpgradeMessage n |}.

Definition ExperimentalText (Message : FString) : FText :=
  if IsEmptyOrWhitespace Message then FunctionExperimental
  else FunctionExperimentalReason Message.

Definition UpdateNodeErrorMessage (this : UNiagaraNodeFunctionCall) : UNiagaraNodeFunctionCall :=
  match FunctionScript this with
  | Some Script =>
      if bDeprecated Script then
        SetMessages true Severity_Warning
          (GetFormattedDeprecationMessage Script (FunctionDisplayName this))
          (NodeUpgradeMessage this) this
      else if bExperimental Script then
        SetMessages true Severity_Info (ErrorMsg this)
          (ExperimentalText (ExperimentalMessage Script)) this
      else
        SetMessages false (ErrorType this) NoText (NodeUpgradeMessage this) this
  | None =>
      if Signature_IsValid (Signature this) then
        if bSoftDeprecatedFunction (Signature this) then
          SetMessages true Severity_Info (ErrorMsg this) FunctionDeprecatedSoftly this
        else if Signature_bExperimental (Signature this) then
          SetMessages true Severity_Info (ErrorMsg this)
            (ExperimentalText (Signature_ExperimentalMessage (Signature this))) this
        else this
      else this
  end.

Definition FindPropagatedVariable (this : UNiagaraNodeFunctionCall)
    (InVariable : FNiagaraVariable) : option FNiagaraPropagatedVariable :=
  List.find (fun Propagated => VarEq (SwitchParameter Propagated) InVariable)
    (PropagatedStaticSwitchParameters this).

Definition IsValidPropagatedVariable (this : UNiagaraNodeFunctionCall)
    (InVariable : FNiagaraVariable) : Checked bool :=
  do Graph <- GetCalledGraph this;
  match Graph with
  | None => Returned false
  | Some Graph =>
      Returned (existsb (fun Var => VarEq Var InVariable) (FindStaticSwitchInputs Graph))
  end.

(** The loop of [CleanupPropagatedSwitchValues] runs from the last index
    down to 0 and removes in place: the entries above an index are settled
    before the entry at the index is looked at. *)
Fixpoint CleanupLoop (this : UNiagaraNodeFunctionCall)
    (l : list FNiagaraPropagatedVariable) : Checked (list FNiagaraPropagatedVariable) :=
  match l with
  | [] => Returned []
  | Propagated :: above =>
      do above' <- CleanupLoop this above;
      do remove <-
        (if IsNone (GetName (SwitchParameter Propagated)) then Returned true
         else do valid <- IsValidPropagatedVariable this (SwitchParameter Propagated);
              Returned (negb valid));
      Returned (if remove then above' else Propagated :: above')
  end.

Definition CleanupPropagatedSwitchValues (this : UNiagaraNodeFunctionCall)
  : Checked UNiagaraNodeFunctionCall :=
  do l <- CleanupLoop this (PropagatedStaticSwitchParameters this);
  Returned (SetPropagated l this).

Definition SetDefaultValueIsIgnored (b : bool) (p : UEdGraphPin) : UEdGraphPin :=
  {| PinName := PinName p; PinType := PinType p; LinkedTo := LinkedTo p;
     bDefaultValueIsIgnored := b; DefaultValue := DefaultValue p |}.

(** The inner loop of the refresh: the first input pin that carries the
    name gets the flag, and the loop breaks. *)
Fixpoint SetFirstPinNamed (Name : FName) (flag : bool) (pins : list UEdGraphPin)
  : list UEdGraphPin :=
  match pins with
  | [] => []
  | Pin :: rest =>
      if IsEqual Name (GetFName Pin) then SetDefaultValueIsIgnored flag Pin :: rest
      else Pin :: SetFirstPinNamed Name flag rest
  end.

(** The outer loop, over [CalledGraph->FindStaticSwitchInputs()]. *)
Definition SetPropagationStatus (this : UNiagaraNodeFunctionCall)
    (CalledGraph : UNiagaraGraph) : UNiagaraNodeFunctionCall :=
  SetInputPins
    (fold_left
       (fun pins InputVar =>
          SetFirstPinNamed (GetName InputVar)
            (bool_decide (FindPropagatedVariable this InputVar <> None)) pins)
       (FindStaticSwitchInputs CalledGraph) (InputPins this))
    this.

Section Refresh.

(** [UNiagaraNode::ReallocatePins]. *)
Variable ReallocatePins : bool -> UNiagaraNodeFunctionCall -> UNiagaraNodeFunctionCall.

(** The node as it is when the switch block of the refresh is done, before
    [bReload] is looked at. *)
Definition RefreshSwitches (this : UNiagaraNodeFunctionCall)
  : Checked (bool * UNiagaraNodeFunctionCall) :=
  do bReload <-
    match FunctionScript this with
    | Some Script =>
        match Cast_Source (GetSource Script) with
        | Some Source =>
            match NodeGraph Source with
            | Some Graph => Returned (negb (bool_decide (CachedChangeId this = GetChangeID Graph)))
            | None => CheckFailed
            end
        | None => Returned false
        end
    | None => Returned (Signature_IsValid (Signature this))
    end;
  let this := UpdateNodeErrorMessage this in
  do CalledGraph <- GetCalledGraph this;
  match CalledGraph with
  | Some CalledGraph =>
      do this <- CleanupPropagatedSwitchValues this;
      Returned (bReload, SetPropagationStatus this CalledGraph)
  | None => Returned (bReload, this)
  end.

Definition RefreshFromExternalChanges (this : UNiagaraNodeFunctionCall)
  : Checked (bool * UNiagaraNodeFunctionCall) :=
  do r <- RefreshSwitches this;
  let '(bReload, this) := r in
  if bReload then Returned (true, ReallocatePins false this)
  else Returned (false, this).

End Refresh.

(** ** BuildParameterMapHistory

    The history builder is known by the calls made on it.  The traversal of
    the callee's output node is one call: what it does inside (the nested
    call sites with their own scopes) is the output node's business. *)

Inductive BuilderCall :=
| Super_BuildParameterMapHistory (bRecursive bFilterForCompilation : bool)
| RouteParameterMapAroundMe (bRecursive : bool)
| Builder_SetStaticSwitchConstants (pins : list UEdGraphPin)
| TraceParameterMapOutputPin (pin : option PinRef)
| EnterFunction (Name : FString)
| BeginNodeVisitation (ParamMapIdx : Z)
| OutputNode_BuildParameterMapHistory (OutputNode : UNiagaraNodeOutput)
    (bRecursive bFilterForCompilation : bool)
| EndNodeVisitation (ParamMapIdx NodeIdx : Z)
| ExitFunction (Name : FString)
| RegisterParameterMapPin (ParamMapIdx : Z) (OutputPin : nat).

Record FNiagaraParameterMapHistoryBuilder := {
  GetIgnoreDisabled : bool;
  TraceParameterMapOutputPin_result : option PinRef -> Z;
  BeginNodeVisitation_result : Z -> Z
}.

Definition ScriptIsValid (this : UNiagaraNodeFunctionCall) : bool :=
  match FunctionScript this with
  | Some _ => true
  | None => Signature_IsValid (Signature this)
  end.

(** The output node of the callee: [Function], then [Module], then
    [DynamicInput]. *)
Definition FindCalleeOutputNode (FunctionGraph : UNiagaraGraph) : option UNiagaraNodeOutput :=
  match FindOutputNode FunctionGraph Script_Function with
  | Some n => Some n
  | None =>
      match FindOutputNode FunctionGraph Script_Module with
      | Some n => Some n
      | None => FindOutputNode FunctionGraph Script_DynamicInput
      end
  end.

(** The caller's output pins, by position, that are equivalent to a
    variable. *)
Fixpoint MatchingOutputPins (i : nat) (OutputPins : list UEdGraphPin)
    (VarChild : FNiagaraVariable) : list nat :=
  match OutputPins with
  | [] => []
  | OutputPin :: rest =>
      if IsEquivalent (PinToNiagaraVariable OutputPin) VarChild
      then i :: MatchingOutputPins (S i) rest VarChild
      else MatchingOutputPins (S i) rest VarChild
  end.

(** [MatchedPairs]: for every linked parameter-map pin of the callee's
    output node and every equivalent output pin of the call site, the
    output pin and the pin the child's link traces to. *)
Definition MatchedPairs (this : UNiagaraNodeFunctionCall) (FunctionGraph : UNiagaraGraph)
    (OutputNode : UNiagaraNodeOutput) : list (nat * option PinRef) :=
  flat_map
    (fun ChildOutputNodePin =>
       let VarChild := PinToNiagaraVariable ChildOutputNodePin in
       if (0 <? length (LinkedTo ChildOutputNodePin))%nat
          && bool_decide (GetType VarChild = GetParameterMapDef)
       then map (fun i => (i, TraceFirstLink FunctionGraph ChildOutputNodePin))
              (MatchingOutputPins 0 (OutputPins this) VarChild)
       else [])
    (GetAllPins OutputNode).

Definition BuildParameterMapHistory (OutHistory : FNiagaraParameterMapHistoryBuilder)
    (this : UNiagaraNodeFunctionCall) (CallerGraph : UNiagaraGraph)
    (bRecursive bFilterForCompilation : bool) : Checked (list BuilderCall) :=
  let calls := [Super_BuildParameterMapHistory bRecursive bFilterForCompilation] in
  if negb (IsNodeEnabled this) && GetIgnoreDisabled OutHistory then
    Returned (calls ++ [RouteParameterMapAroundMe bRecursive])
  else
    match FunctionScript this with
    | Some Script =>
        do Source <- CastChecked_Source (GetSource Script);
        match NodeGraph Source with
        | None => CheckFailed
        | Some FunctionGraph =>
            let calls := calls ++ [Builder_SetStaticSwitchConstants (InputPins this)] in
            let traced :=
              match InputPins this with
              | CandidateParamMapPin :: _ =>
                  if negb (length (LinkedTo CandidateParamMapPin) =? 0)%nat
                     && bool_decide (PinToTypeDefinition CandidateParamMapPin = GetParameterMapDef)
                     && bRecursive
                  then Some (TraceFirstLink CallerGraph CandidateParamMapPin)
                  else None
              | [] => None
              end in
            let ParamMapIdx :=
              match traced with
              | Some pin => TraceParameterMapOutputPin_result OutHistory pin
              | None => INDEX_NONE
              end in
            let calls :=
              calls ++ match traced with
                       | Some pin => [TraceParameterMapOutputPin pin]
                       | None => []
                       end in
            let calls := calls ++ [EnterFunction (GetFunctionName this)] in
            let visiting := negb (ParamMapIdx =? INDEX_NONE)%Z in
            let NodeIdx :=
              if visiting then BeginNodeVisitation_result OutHistory ParamMapIdx
              else 4294967295%Z in
            let calls := calls ++ (if visiting then [BeginNodeVisitation ParamMapIdx] else []) in
            match FindCalleeOutputNode FunctionGraph with
            | None => CheckFailed
            | Some OutputNode =>
                let calls :=
                  calls ++ [OutputNode_BuildParameterMapHistory OutputNode true
                              bFilterForCompilation] in
                let Pairs := MatchedPairs this FunctionGraph OutputNode in
                let calls :=
                  calls ++ map (fun Pair => TraceParameterMapOutputPin (snd Pair)) Pairs in
                let calls :=
                  calls ++ (if visiting then [EndNodeVisitation ParamMapIdx NodeIdx] else []) in
                let calls := calls ++ [ExitFunction (GetFunctionName this)] in
                Returned
                  (calls ++
                   map (fun Pair =>
                          RegisterParameterMapPin
                            (TraceParameterMapOutputPin_result OutHistory (snd Pair)) (fst Pair))
                     Pairs)
            end
        end
    | None =>
        if negb (ScriptIsValid this) || bRequiresExecPin (Signature this) then
          Returned (calls ++ [RouteParameterMapAroundMe bRecursive])
        else Returned calls
    end.

(** ** CanAddToGraph *)

(** What a call of [CanAddToGraph] leaves behind: the verdict, the message
    in [OutErrorMsg], and the target graph. *)
Record CanAddResult := {
  CanAdd : bool;
  OutErrorMsg : FText;
  TargetGraph_after : UNiagaraGraph
}.

Section Composition.

(** [Super::CanAddToGraph]: the verdict and what it leaves in
    [OutErrorMsg]. *)
Variable Super_CanAddToGraph :
  UNiagaraNodeFunctionCall -> UNiagaraGraph -> FText -> bool * FText.

(** The asset registry: [GetAssetByObjectPath] when the asset data is
    valid, with [Cast<UNiagaraScript>(GetAsset())]. *)
Variable GetAssetByObjectPath : FName -> option (option UNiagaraScript).

Definition SpawningFunctionScript (this : UNiagaraNodeFunctionCall) : option UNiagaraScript :=
  if negb (IsNone (FunctionScriptAssetObjectPath this))
     && bool_decide (FunctionScript this = None)
  then
    match GetAssetByObjectPath (FunctionScriptAssetObjectPath this) with
    | Some Asset => Asset
    | None => FunctionScript this
    end
  else FunctionScript this.

(** [FunctionGraphs]: the graphs referenced by the script that is about to
    be spawned, each by its outermost package. *)
Definition FunctionGraphs (this : UNiagaraNodeFunctionCall) : list (option UPackage) :=
  match SpawningFunctionScript this with
  | Some Script =>
      match Cast_Source (GetSource Script) with
      | Some Source =>
          match NodeGraph Source with
          | Some FunctionGraph => GetAllReferencedGraphs FunctionGraph
          | None => []
          end
      | None => []
      end
  | None => []
  end.

Definition SamePackage (FunctionPackage TargetPackage : option UPackage) : bool :=
  match FunctionPackage, TargetPackage with
  | Some f, Some t => bool_decide (f = t)
  | _, _ => false
  end.

Definition CanAddToGraph (this : UNiagaraNodeFunctionCall) (TargetGraph : UNiagaraGraph)
    (ErrorMsg0 : FText) : CanAddResult :=
  let '(ok, msg) := Super_CanAddToGraph this TargetGraph ErrorMsg0 in
  if negb ok then
    {| CanAdd := false; OutErrorMsg := msg; TargetGraph_after := TargetGraph |}
  else
    let TargetPackage := GetOutermost TargetGraph in
    if existsb (fun FunctionPackage => SamePackage FunctionPackage TargetPackage)
         (FunctionGraphs this)
    then {| CanAdd := false; OutErrorMsg := NiagaraFuncCallCannotAddToGraph;
            TargetGraph_after := TargetGraph |}
    else {| CanAdd := true; OutErrorMsg := msg; TargetGraph_after := TargetGraph |}.

End Composition.

(** ** GatherExternalDependencyData *)

Record FNiagaraCompileHash := {
  CompileHash_IsValid : bool;
  DataHash : string
}.

(** A graph with what the aggregation reads of it: its path name, and per
    usage its base id, its compile hash and the nodes of its traversal.  A
    node of a traversal is known by its [FunctionScript]: [None] for a node
    without script, [Some None] for a script whose source or graph is
    missing, [Some (Some g)] for a script with graph [g]. *)
#[warnings="-register-all"]
Inductive ReferencedGraph :=
| MakeGraph (GetPathName : FString)
    (GetBaseId : ENiagaraScriptUsage -> FGuid)
    (GetCompileDataHash : ENiagaraScriptUsage -> FNiagaraCompileHash)
    (Traversal : ENiagaraScriptUsage -> list (option (option ReferencedGraph))).

Definition GetPathName (g : ReferencedGraph) : FString :=
  match g with MakeGraph p _ _ _ => p end.

(** [InReferencedCompileHashes] and [InReferencedObjs]. *)
Definition References := (list FNiagaraCompileHash * list FString)%type.

Definition AddReference (h : FNiagaraCompileHash) (path : FString) (r : References)
  : References :=
  (fst r ++ [h], snd r ++ [path]).

(** Modelled from the spec: [UNiagaraGraph::GatherExternalDependencyData]
    is defined outside NiagaraNodeFunctionCall.cpp (with the graph); by
    section 4.7 the aggregation recurses into the callee's own aggregation:
    for the usage asked for, every node of the graph's traversal is asked
    in order, and [Gather] is what a node with a graph does. *)
Definition VisitTraversal (Gather : ReferencedGraph -> References -> Checked References)
  : list (option (option ReferencedGraph)) -> References -> Checked References :=
  fix visit nodes refs :=
    match nodes with
    | [] => Returned refs
    | node :: rest =>
        do refs <-
          match node with
          | None => Returned refs
          | Some None => CheckFailed
          | Some (Some g) => Gather g refs
          end;
        visit rest refs
    end.

(** One round of the loop over the usages: when the base id and the
    compile hash of the usage are valid, the hash and the path name are
    added and the graph's own aggregation for the usage follows. *)
Definition TryUsage (visit : list (option (option ReferencedGraph)) -> References -> Checked References)
    (PathName : FString) (FoundGuid : FGuid) (FoundCompileHash : FNiagaraCompileHash)
    (nodes : list (option (option ReferencedGraph))) (refs : References)
  : Checked References :=
  if FGuid_IsValid FoundGuid && CompileHash_IsValid FoundCompileHash
  then visit nodes (AddReference FoundCompileHash PathName refs)
  else Returned refs.

(** The body of [GatherExternalDependencyData] for a call site whose script
    has graph [FunctionGraph]: the usages from [Function] to [DynamicInput]
    are tried in turn. *)
Fixpoint GatherFromGraph (FunctionGraph : ReferencedGraph) (refs : References)
  : Checked References :=
  match FunctionGraph with
  | MakeGraph PathName GetBaseId GetCompileDataHash Traversal =>
      let try_usage i :=
        TryUsage (VisitTraversal GatherFromGraph) PathName (GetBaseId i)
          (GetCompileDataHash i) (Traversal i) in
      do refs <- try_usage Script_Function refs;
      do refs <- try_usage Script_Module refs;
      try_usage Script_DynamicInput refs
  end.

Definition GatherExternalDependencyData (FunctionScript : option (option ReferencedGraph))
    (refs : References) : Checked References :=
  match FunctionScript with
  | None => Returned refs
  | Some None => CheckFailed
  | Some (Some FunctionGraph) => GatherFromGraph FunctionGraph refs
  end.

(** ** The other operations on propagated static switches *)

(** The loop of [RemovePropagatedVariable]: it removes the first entry for
    the variable and returns at once. *)
Fixpoint RemoveFirstPropagated (InVariable : FNiagaraVariable)
    (l : list FNiagaraPropagatedVariable) : list FNiagaraPropagatedVariable :=
  match l with
  | [] => []
  | Propagated :: rest =>
      if VarEq (SwitchParameter Propagated) InVariable then rest
      else Propagated :: RemoveFirstPropagated InVariable rest
  end.

Definition RemovePropagatedVariable (this : UNiagaraNodeFunctionCall)
    (InVariable : FNiagaraVariable) : UNiagaraNodeFunctionCall :=
  SetPropagated (RemoveFirstPropagated InVariable (PropagatedStaticSwitchParameters this)) this.

(** The loop of [FindStaticSwitchInputPin] over the static switch inputs of
    the called graph: for an input with the name, the first input pin with
    the name is returned, with its position; when no pin has the name the
    loop goes on. *)
Fixpoint FindSwitchPinLoop (VariableName : FName) (InputPins : list UEdGraphPin)
    (switches : list FNiagaraVariable) : option (nat * UEdGraphPin) :=
  match switches with
  | [] => None
  | InputVar :: rest =>
      if IsEqual (GetName InputVar) VariableName then
        match FindByPredicate (fun Pin => IsEqual VariableName (GetFName Pin)) InputPins with
        | Some found => Some found
        | None => FindSwitchPinLoop VariableName InputPins rest
        end
      else FindSwitchPinLoop VariableName InputPins rest
  end.

Definition FindStaticSwitchInputPin (this : UNiagaraNodeFunctionCall) (VariableName : FName)
  : Checked (option (nat * UEdGraphPin)) :=
  do CalledGraph <- GetCalledGraph this;
  match CalledGraph with
  | None => Returned None
  | Some CalledGraph =>
      Returned (FindSwitchPinLoop VariableName (InputPins this)
                  (FindStaticSwitchInputs CalledGraph))
  end.

(** ** AllocateDefaultPins

    The allocation creates the pins of the node from the callee.  A pin as
    the allocation leaves it is the pin that the rest of this file reads,
    with, beside it, the fields that only the allocation writes. *)

Inductive EEdGraphPinDirection := EGPD_Input | EGPD_Output.

Inductive ENodeAdvancedPins := AdvancedPins_NoPins | AdvancedPins_Shown | AdvancedPins_Hidden.

Record FAllocatedPin := {
  Allocated_Pin : UEdGraphPin;
  bNotConnectable : bool;
  bAdvancedView : bool;
  AutogeneratedDefaultValue : FString
}.

Definition SetPin (p : UEdGraphPin) (a : FAllocatedPin) : FAllocatedPin :=
  {| Allocated_Pin := p; bNotConnectable := bNotConnectable a;
     bAdvancedView := bAdvancedView a;
     AutogeneratedDefaultValue := AutogeneratedDefaultValue a |}.

Definition SetDefaultValue (v : FString) (p : UEdGraphPin) : UEdGraphPin :=
  {| PinName := PinName p; PinType := PinType p; LinkedTo := LinkedTo p;
     bDefaultValueIsIgnored := bDefaultValueIsIgnored p; DefaultValue := v |}.

Definition SetNotConnectable (b : bool) (a : FAllocatedPin) : FAllocatedPin :=
  {| Allocated_Pin := Allocated_Pin a; bNotConnectable := b;
     bAdvancedView := bAdvancedView a;
     AutogeneratedDefaultValue := AutogeneratedDefaultValue a |}.

Definition SetAdvancedView (b : bool) (a : FAllocatedPin) : FAllocatedPin :=
  {| Allocated_Pin := Allocated_Pin a;
     bNotConnectable := bNotConnectable a; bAdvancedView := b;
     AutogeneratedDefaultValue := AutogeneratedDefaultValue a |}.

Definition SetAutogeneratedDefaultValue (v : FString) (a : FAllocatedPin) : FAllocatedPin :=
  {| Allocated_Pin := Allocated_Pin a;
     bNotConnectable := bNotConnectable a; bAdvancedView := bAdvancedView a;
     AutogeneratedDefaultValue := v |}.

(** What an allocation changes in the node. *)
Definition SetAllocated (script : option UNiagaraScript) (inputs outputs : list UEdGraphPin)
    (id : FGuid) (n : UNiagaraNodeFunctionCall) : UNiagaraNodeFunctionCall :=
  {| FunctionScript := script;
     FunctionScriptAssetObjectPath := FunctionScriptAssetObjectPath n;
     Signature := Signature n; FunctionSpecifiers := FunctionSpecifiers n;
     FunctionDisplayName := FunctionDisplayName n;
     PropagatedStaticSwitchParameters := PropagatedStaticSwitchParameters n;
     CachedChangeId := id;
     InputPins := inputs; OutputPins := outputs;
     IsNodeEnabled := IsNodeEnabled n;
     GetValidateDataInterfaces := GetValidateDataInterfaces n;
     bHasCompilerMessage := bHasCompilerMessage n; ErrorType := ErrorType n;
     ErrorMsg := ErrorMsg n; NodeUpgradeMessage := NodeUpgradeMessage n |}.

Definition SetFunctionDisplayName (name : FString) (n : UNiagaraNodeFunctionCall)
  : UNiagaraNodeFunctionCall :=
  {| FunctionScript := FunctionScript n;
     FunctionScriptAssetObjectPath := FunctionScriptAssetObjectPath n;
     Signature := Signature n; FunctionSpecifiers := FunctionSpecifiers n;
     FunctionDisplayName := name;
     PropagatedStaticSwitchParameters := PropagatedStaticSwitchParameters n;
     CachedChangeId := CachedChangeId n;
     InputPins := InputPins n; OutputPins := OutputPins n;
     IsNodeEnabled := IsNodeEnabled n;
     GetValidateDataInterfaces := GetValidateDataInterfaces n;
     bHasCompilerMessage := bHasCompilerMessage n; ErrorType := ErrorType n;
     ErrorMsg := ErrorMsg n; NodeUpgradeMessage := NodeUpgradeMessage n |}.

(** What [AllocateDefaultPins] leaves behind: the node, the input pins and
    the output pins it has created, in the order of their creation, and
    [AdvancedPinDisplay] when it has been written. *)
Record AllocateResult := {
  Allocated_Node : UNiagaraNodeFunctionCall;
  Allocated_Inputs : list FAllocatedPin;
  Allocated_Outputs : list FAllocatedPin;
  AdvancedPinDisplay : option ENodeAdvancedPins
}.

Definition IsEmpty (s : FString) : bool := bool_decide (s = EmptyString).

Section Allocation.

(** The asset registry, as in [CanAddToGraph]. *)
Variable GetAssetByObjectPath : FName -> option (option UNiagaraScript).

(** [UEdGraphNode::CreatePin] for a direction, a type and a name: the new
    pin as it is before the allocation writes to it. *)
Variable CreatePin : EEdGraphPinDirection -> FNiagaraTypeDefinition -> FName -> FAllocatedPin.

(** [AllowDynamicPins()] and [CreateAddPin]. *)
Variable AllowDynamicPins : bool.
Variable CreateAddPin : EEdGraphPinDirection -> FAllocatedPin.

(** The outputs that [UNiagaraGraph::GetParameters] reports. *)
Variable GetParameters_Outputs : UNiagaraGraph -> list FNiagaraVariable.

(** [UNiagaraNodeInput::GetInputPins]: the input pins of an input node of
    the callee. *)
Variable InputNode_GetInputPins : UNiagaraNodeInput -> list UEdGraphPin.

(** [UEdGraphSchema_Niagara::TryGetPinDefaultValueFromNiagaraVariable] for
    a variable and the value that the allocation has set in it, if it has
    set one: the default value, when the schema gives one. *)
Variable TryGetPinDefaultValueFromNiagaraVariable :
  FNiagaraVariable -> option Z -> option FString.

(** [Graph->GetMetaData(Input)], when set, with its
    [GetStaticSwitchDefaultValue()]. *)
Variable GetStaticSwitchDefaultValue : UNiagaraGraph -> FNiagaraVariable -> option Z.

(** [ComputeNodeName()] reads the other call nodes of the graph and
    [FNiagaraUtilities::GetUniqueName]; it writes [FunctionDisplayName]
    only: this is the name it leaves there. *)
Variable ComputeNodeName : UNiagaraNodeFunctionCall -> FString.

Definition SetPinAutoGeneratedDefaultValue (FunctionInputPin : FAllocatedPin)
    (FunctionScriptInputNode : UNiagaraNodeInput) : FAllocatedPin :=
  if bDefaultValueIsIgnored (Allocated_Pin FunctionInputPin) then FunctionInputPin
  else
    let FromSchema :=
      match TryGetPinDefaultValueFromNiagaraVariable (Input FunctionScriptInputNode) None with
      | Some PinDefaultValue => SetAutogeneratedDefaultValue PinDefaultValue FunctionInputPin
      | None => FunctionInputPin
      end in
    match InputNode_GetInputPins FunctionScriptInputNode with
    | [InputPin0] =>
        if bDefaultValueIsIgnored InputPin0 then FromSchema
        else SetAutogeneratedDefaultValue (DefaultValue InputPin0) FunctionInputPin
    | _ => FromSchema
    end.

(** The pin of an exposed input of the callee. *)
Definition AllocateInputPin (InputNode : UNiagaraNodeInput) : FAllocatedPin :=
  let NewPin :=
    CreatePin EGPD_Input (GetType (Input InputNode)) (GetName (Input InputNode)) in
  let NewPin :=
    SetPin (SetDefaultValueIsIgnored
              (negb (IsRequired InputNode
                     && bool_decide (GetClass (GetType (Input InputNode)) = None)))
              (Allocated_Pin NewPin)) NewPin in
  let NewPin := SetPinAutoGeneratedDefaultValue NewPin InputNode in
  let NewPin :=
    SetPin (SetDefaultValue (AutogeneratedDefaultValue NewPin) (Allocated_Pin NewPin)) NewPin in
  SetAdvancedView (IsHidden InputNode) NewPin.

(** The pin of a static switch input of the callee. *)
Definition AllocateSwitchPin (this : UNiagaraNodeFunctionCall) (Graph : UNiagaraGraph)
    (SwitchInput : FNiagaraVariable) : FAllocatedPin :=
  let NewPin := CreatePin EGPD_Input (GetType SwitchInput) (GetName SwitchInput) in
  let NewPin := SetNotConnectable true NewPin in
  let NewPin :=
    SetPin (SetDefaultValueIsIgnored
              (bool_decide (FindPropagatedVariable this SwitchInput <> None))
              (Allocated_Pin NewPin)) NewPin in
  match TryGetPinDefaultValueFromNiagaraVariable SwitchInput
          (GetStaticSwitchDefaultValue Graph SwitchInput) with
  | Some PinDefaultValue =>
      SetPin (SetDefaultValue PinDefaultValue (Allocated_Pin NewPin)) NewPin
  | None => NewPin
  end.

(** A pin created with a direction, a type and a name, and with its
    "default ignored" flag written. *)
Definition AllocatePin (d : EEdGraphPinDirection) (ignored : bool) (T : FNiagaraTypeDefinition)
    (Name : FName) : FAllocatedPin :=
  let NewPin := CreatePin d T Name in
  SetPin (SetDefaultValueIsIgnored ignored (Allocated_Pin NewPin)) NewPin.

(** The node when the pins have been created: after the two branches of
    [AllocateDefaultPins], before the name and the messages are looked
    at. *)
Definition AllocatePins (this : UNiagaraNodeFunctionCall) : Checked AllocateResult :=
  let FunctionScript := SpawningFunctionScript GetAssetByObjectPath this in
  match FunctionScript with
  | Some Script =>
      do Source <- CastChecked_Source (GetSource Script);
      match NodeGraph Source with
      | None => CheckFailed
      | Some Graph =>
          let Outputs := GetParameters_Outputs Graph in
          let InputNodes := FindInputNodes Graph in
          let Exposed := List.filter IsExposed InputNodes in
          let SwitchNodeInputs := FindStaticSwitchInputs Graph in
          let inputs :=
            map AllocateInputPin Exposed
            ++ map (AllocateSwitchPin this Graph) SwitchNodeInputs in
          let outputs :=
            map (fun Output => AllocatePin EGPD_Output true (GetType Output) (GetName Output))
              Outputs in
          Returned
            {| Allocated_Node :=
                 SetAllocated FunctionScript
                   (InputPins this ++ map Allocated_Pin inputs)
                   (OutputPins this ++ map Allocated_Pin outputs)
                   (GetChangeID Graph) this;
               Allocated_Inputs := inputs;
               Allocated_Outputs := outputs;
               AdvancedPinDisplay :=
                 Some (if existsb IsHidden Exposed then AdvancedPins_Hidden
                       else AdvancedPins_NoPins) |}
      end
  | None =>
      (* the exec pins are created under the empty name, the name [None] *)
      let exec d :=
        if bRequiresExecPin (Signature this)
        then [AllocatePin d true GetParameterMapDef NAME_None]
        else [] in
      let add d := if AllowDynamicPins then [CreateAddPin d] else [] in
      let inputs :=
        exec EGPD_Input
        ++ map (fun SignatureInput =>
                  AllocatePin EGPD_Input false (GetType SignatureInput) (GetName SignatureInput))
             (Signature_Inputs (Signature this))
        ++ add EGPD_Input in
      let outputs :=
        exec EGPD_Output
        ++ map (fun Output => AllocatePin EGPD_Output true (GetType Output) (GetName Output))
             (Signature_Outputs (Signature this))
        ++ add EGPD_Output in
      Returned
        {| Allocated_Node :=
             SetAllocated None
               (InputPins this ++ map Allocated_Pin inputs)
               (OutputPins this ++ map Allocated_Pin outputs)
               FGuid_zero this;
           Allocated_Inputs := inputs;
           Allocated_Outputs := outputs;
           AdvancedPinDisplay := None |}
  end.

Definition AllocateDefaultPins (this : UNiagaraNodeFunctionCall) : Checked AllocateResult :=
  do r <- AllocatePins this;
  let this := Allocated_Node r in
  let this :=
    if IsEmpty (FunctionDisplayName this)
    then SetFunctionDisplayName (ComputeNodeName this) this
    else this in
  Returned {| Allocated_Node := UpdateNodeErrorMessage this;
              Allocated_Inputs := Allocated_Inputs r;
              Allocated_Outputs := Allocated_Outputs r;
              AdvancedPinDisplay := AdvancedPinDisplay r |}.

End Allocation.

(** ** Vocabulary of the properties *)

(** The enclosing output contract, in the words of section 4.3: the spawn
    output when the caller graph has one, else the update output. *)
Definition EnclosingContract (G : UNiagaraGraph) (n : UNiagaraNodeOutput) : Prop :=
  FindOutputNode G Script_ParticleSpawnScript = Some n
  \/ (FindOutputNode G Script_ParticleSpawnScript = None
      /\ FindOutputNode G Script_ParticleUpdateScript = Some n).

(** An attribute of the enclosing contract matches the slot. *)
Definition AttributeMatches (G : UNiagaraGraph) (Pin : UEdGraphPin) : Prop :=
  exists n Attr, EnclosingContract G n /\ In Attr (Outputs n)
                 /\ IsEquivalent (PinToNiagaraVariable Pin) Attr = true.

(** The call site calls script [Script], whose source holds graph
    [FunctionGraph]. *)
Definition GraphBacked (this : UNiagaraNodeFunctionCall) (Script : UNiagaraScript)
    (FunctionGraph : UNiagaraGraph) : Prop :=
  FunctionScript this = Some Script
  /\ GetSource Script = Some (Some {| NodeGraph := Some FunctionGraph |}).

(** The position of the slot that matches an input. *)
Definition SlotIndex (pins : list UEdGraphPin) (inp : UNiagaraNodeInput) : option nat :=
  fst <$> MatchingPin pins inp.

(** Every declared input with a slot is exposed: the assertion of
    [FindAutoBoundInput] holds wherever the loop reaches it. *)
Definition ChecksHold (pins : list UEdGraphPin) (nodes : list UNiagaraNodeInput) : Prop :=
  forall x, In x nodes -> SlotIndex pins x <> None -> IsExposed x = true.

(** An entry of [Inputs] for an input: the absent marker, the constant
    handle of the input, or the compiled handle of a pin that stands for
    the input's variable. *)
Definition EntryFor (Translator : FHlslNiagaraTranslator) (inp : UNiagaraNodeInput)
    (h : Z) : Prop :=
  h = INDEX_NONE
  \/ h = GetConstant_handle Translator (Input inp)
  \/ exists p, PinToNiagaraVariable p = Input inp /\ h = CompilePin_handle Translator p.

(** The "required input unbound" errors that name slot [i]. *)
Definition UnboundErrorFor (i : nat) (c : TranslatorCall) : bool :=
  match c with
  | Error (RequiredInputUnboundErrorFmt _) (Some j) => bool_decide (j = i)
  | _ => false
  end.

(** A propagated entry that names a static switch input of the callee. *)
Definition StillValid (CalledGraph : UNiagaraGraph) (Propagated : FNiagaraPropagatedVariable)
  : bool :=
  negb (IsNone (GetName (SwitchParameter Propagated)))
  && existsb (fun Var => VarEq Var (SwitchParameter Propagated))
       (FindStaticSwitchInputs CalledGraph).

(** The message state of a node. *)
Definition Messages (n : UNiagaraNodeFunctionCall)
  : bool * EMessageSeverity * FText * FText :=
  (bHasCompilerMessage n, ErrorType n, ErrorMsg n, NodeUpgradeMessage n).

(** What has been collected, followed by what a call adds. *)
Definition Append (refs added : References) : References :=
  (fst refs ++ fst added, snd refs ++ snd added).



(** The calls other than [EnterFunctionCallNode]. *)
Definition NotEnter (c : TranslatorCall) : bool :=
  match c with
  | EnterFunctionCallNode _ => false
  | _ => true
  end.

Section LoopVocabulary.

Variable SysConstants : list FNiagaraVariable.
Variable Translator : FHlslNiagaraTranslator.

Local Abbreviation AutoBound := (FindAutoBoundInput SysConstants).

(** The pin of an auto-bound slot: its old links are broken and it is
    linked to the output pin of the new node. *)
Definition AutoBoundPin (G : UNiagaraGraph) (p : UEdGraphPin) : UEdGraphPin :=
  MakeLinkTo (NewNodeOutputPin (length (NewObjects G))) (BreakAllPinLinks p).

Definition AutoBoundGraph (G : UNiagaraGraph) (p : UEdGraphPin)
    (u : ENiagaraInputNodeUsage) : UNiagaraGraph :=
  fst (NewObject G {| NewInput := PinToNiagaraVariable p; NewUsage := u |}).

(** The paths through the body of the loop, one constructor per path. *)
Inductive Resolves (inp : UNiagaraNodeInput) (st : CompileState) : CompileState -> Prop :=
| Resolves_Stale :
    MatchingPin (CallerInputPins st) inp = None -> IsExposed inp = true ->
    Resolves inp st (Inputs_Add INDEX_NONE (SetError (Call (Error StaleFunctionCallError None) st)))
| Resolves_Constant :
    MatchingPin (CallerInputPins st) inp = None -> IsExposed inp = false ->
    ExposureOptions_bRequired inp = true ->
    Resolves inp st (Inputs_Add (GetConstant_handle Translator (Input inp))
                       (Call (GetConstant (Input inp)) st))
| Resolves_NoSlot :
    MatchingPin (CallerInputPins st) inp = None -> IsExposed inp = false ->
    ExposureOptions_bRequired inp = false ->
    Resolves inp st (Inputs_Add INDEX_NONE st)
| Resolves_Linked i p r :
    MatchingPin (CallerInputPins st) inp = Some (i, p) ->
    TraceFirstLink (CallerGraph st) p = Some r ->
    Resolves inp st (Inputs_Add (CompilePin_handle Translator p) (Call (CompilePin i p) st))
| Resolves_AutoBound i p v u :
    MatchingPin (CallerInputPins st) inp = Some (i, p) ->
    TraceFirstLink (CallerGraph st) p = None ->
    AutoBound (CallerGraph st) inp p = Returned (Some (v, u)) ->
    let p' := AutoBoundPin (CallerGraph st) p in
    Resolves inp st
      (Inputs_Add (CompilePin_handle Translator p')
         (Call (CompilePin i p')
            (SetPinAndGraph i p' (AutoBoundGraph (CallerGraph st) p u) st)))
| Resolves_Unbound i p :
    MatchingPin (CallerInputPins st) inp = Some (i, p) ->
    TraceFirstLink (CallerGraph st) p = None ->
    AutoBound (CallerGraph st) inp p = Returned None ->
    IsRequired inp = true -> bDefaultValueIsIgnored p = true ->
    Resolves inp st
      (Inputs_Add INDEX_NONE
         (SetError (Call (Error (RequiredInputUnboundErrorFmt (GetDisplayName p)) (Some i)) st)))
| Resolves_InlineDefault i p :
    MatchingPin (CallerInputPins st) inp = Some (i, p) ->
    TraceFirstLink (CallerGraph st) p = None ->
    AutoBound (CallerGraph st) inp p = Returned None ->
    IsRequired inp = true -> bDefaultValueIsIgnored p = false ->
    Resolves inp st (Inputs_Add (CompilePin_handle Translator p) (Call (CompilePin i p) st))
| Resolves_Optional i p :
    MatchingPin (CallerInputPins st) inp = Some (i, p) ->
    TraceFirstLink (CallerGraph st) p = None ->
    AutoBound (CallerGraph st) inp p = Returned None ->
    IsRequired inp = false ->
    Resolves inp st (Inputs_Add INDEX_NONE st).

(** How [Compile] ends once the loop has left state [st]. *)
Definition AfterLoop (this : UNiagaraNodeFunctionCall) (Outputs : list Z)
    (st : CompileState) : CompileResult :=
  Finish Translator (SetInputPins (CallerInputPins st) this) (CallerGraph st)
    (Calls st ++ [SetStaticSwitchConstants (CallerInputPins st); ExitFunctionCallNode])
    (Inputs st) (bError st) Outputs.

End LoopVocabulary.

(** What a step leaves alone. *)
Record Frame (st st' : CompileState) : Prop := {
  frame_slots : map PinToNiagaraVariable (CallerInputPins st')
                = map PinToNiagaraVariable (CallerInputPins st);
  frame_outputs : OutputNodes (CallerGraph st') = OutputNodes (CallerGraph st);
  frame_traced : TracedOutputPin (CallerGraph st') = TracedOutputPin (CallerGraph st)
}.

(** A state with more calls, more entries and, maybe, the error flag. *)
Definition Extend (d : list TranslatorCall) (hs : list Z) (e : bool) (t : CompileState)
  : CompileState :=
  {| CallerInputPins := CallerInputPins t; CallerGraph := CallerGraph t;
     Calls := Calls t ++ d; Inputs := Inputs t ++ hs; bError := bError t || e |}.


(** Induction over a graph and the graphs that its traversals reach. *)
Section ReferencedGraph_induction.

Variable P : ReferencedGraph -> Prop.

Hypothesis P_MakeGraph :
  forall PathName GetBaseId GetCompileDataHash Traversal,
    (forall i, Forall (fun node => match node with
                                   | Some (Some g) => P g
                                   | _ => True
                                   end) (Traversal i)) ->
    P (MakeGraph PathName GetBaseId GetCompileDataHash Traversal).

Fixpoint ReferencedGraph_induction (g : ReferencedGraph) : P g :=
  match g with
  | MakeGraph PathName GetBaseId GetCompileDataHash Traversal =>
      P_MakeGraph PathName GetBaseId GetCompileDataHash Traversal
        (fun i =>
           (fix nodes (l : list (option (option ReferencedGraph)))
              : Forall (fun node => match node with
                                    | Some (Some g) => P g
                                    | _ => True
                                    end) l :=
              match l with
              | [] => Forall_nil _
              | node :: rest =>
                  Forall_cons _ node rest
                    (match node return match node with
                                       | Some (Some g) => P g
                                       | _ => True
                                       end with
                     | Some (Some g') => ReferencedGraph_induction g'
                     | _ => I
                     end)
                    (nodes rest)
              end) (Traversal i))
  end.

End ReferencedGraph_induction.

(** The kinds of translator calls. *)
Definition IsError (c : TranslatorCall) : bool :=
  match c with Error _ _ => true | _ => false end.

Definition IsFunctionCall (c : TranslatorCall) : bool :=
  match c with FunctionCall _ => true | _ => false end.

(** The calls that resolve one input: an error, a constant, a compiled
    pin. *)
Definition IsResolutionCall (c : TranslatorCall) : bool :=
  match c with
  | Error _ _ | GetConstant _ | CompilePin _ _ => true
  | _ => false
  end.

Definition IsWarning (c : TranslatorCall) : bool :=
  match c with Warning _ => true | _ => false end.

(** A pin that differs from another by its links at most. *)
Definition SameButLinks (q q' : UEdGraphPin) : Prop :=
  PinName q' = PinName q /\ PinType q' = PinType q
  /\ bDefaultValueIsIgnored q' = bDefaultValueIsIgnored q
  /\ DefaultValue q' = DefaultValue q.

(** A graph that differs from another by the objects created in it. *)
Definition GraphGrows (G G' : UNiagaraGraph) (added : list NewInputNode) : Prop :=
  G' = {| OutputNodes := OutputNodes G; TracedOutputPin := TracedOutputPin G;
          NewObjects := NewObjects G ++ added; GetOutermost := GetOutermost G;
          FindInputNodes := FindInputNodes G;
          FindStaticSwitchInputs := FindStaticSwitchInputs G;
          GetChangeID := GetChangeID G;
          GetAllReferencedGraphs := GetAllReferencedGraphs G |}.

(** What a run of [Compile] may do to the pins and the graph: every pin
    keeps all but its links, a pin with links keeps them, and a pin whose
    links change was unlinked and ends linked to the output pin of one of
    the objects created by the run. *)
Definition OnlyLinksAdded (pins pins' : list UEdGraphPin) (G G' : UNiagaraGraph) : Prop :=
  exists added,
    GraphGrows G G' added
    /\ length pins' = length pins
    /\ forall j q, pins !! j = Some q ->
         exists q', pins' !! j = Some q' /\ SameButLinks q q'
                    /\ (LinkedTo q <> [] -> q' = q)
                    /\ (q' = q
                        \/ exists n, LinkedTo q' = [NewNodeOutputPin n]
                                     /\ length (NewObjects G) <= n
                                     /\ n < length (NewObjects G')
                                     /\ exists u, NewObjects G' !! n
                                                  = Some {| NewInput := PinToNiagaraVariable q;
                                                            NewUsage := u |}).

(** The calls that name the caller pin at position [i]. *)
Definition CallAtSlot (i : nat) (c : TranslatorCall) : bool :=
  match c with
  | Error _ (Some j) | CompilePin j _ => bool_decide (j = i)
  | _ => false
  end.

(** The entries for a variable, and the entries that
    [CleanupPropagatedSwitchValues] keeps. *)
Definition IsFor (InVariable : FNiagaraVariable) (Propagated : FNiagaraPropagatedVariable)
  : bool :=
  VarEq (SwitchParameter Propagated) InVariable.

Definition KeptByCleanup (this : UNiagaraNodeFunctionCall)
    (Propagated : FNiagaraPropagatedVariable) : bool :=
  negb (IsNone (GetName (SwitchParameter Propagated)))
  && match IsValidPropagatedVariable this (SwitchParameter Propagated) with
     | Returned valid => valid
     | CheckFailed => false
     end.



(** What the aggregation reads of a graph, and the graphs that a graph
    reaches through the call sites of its traversals. *)
Definition GetBaseId (g : ReferencedGraph) : ENiagaraScriptUsage -> FGuid :=
  match g with MakeGraph _ ids _ _ => ids end.
Definition GetCompileDataHash (g : ReferencedGraph) : ENiagaraScriptUsage -> FNiagaraCompileHash :=
  match g with MakeGraph _ _ hashes _ => hashes end.
Definition Traversal (g : ReferencedGraph)
  : ENiagaraScriptUsage -> list (option (option ReferencedGraph)) :=
  match g with MakeGraph _ _ _ nodes => nodes end.

Inductive Reaches : ReferencedGraph -> ReferencedGraph -> Prop :=
| Reaches_self g : Reaches g g
| Reaches_call g u called g' :
    In (Some (Some called)) (Traversal g u) -> Reaches called g' -> Reaches g g'.

(** An entry of the two arrays that belongs to a graph reached from [g]:
    the path of the graph, with its compile hash for one of the usages from
    [Function] to [DynamicInput], both the hash and the base id valid. *)
Definition GatheredFrom (g : ReferencedGraph) (h : FNiagaraCompileHash) (path : FString)
  : Prop :=
  exists g' u,
    Reaches g g' /\ path = GetPathName g' /\ h = GetCompileDataHash g' u
    /\ CompileHash_IsValid h = true /\ FGuid_IsValid (GetBaseId g' u) = true
    /\ (u = Script_Function \/ u = Script_Module \/ u = Script_DynamicInput).

(** What a collector adds when it returns: entries gathered from [g]. *)
Definition Gathers (g : ReferencedGraph) (f : References -> Checked References) : Prop :=
  forall refs refs',
    f refs = Returned refs' ->
    exists added, refs' = Append refs added /\ Forall2 (GatheredFrom g) (fst added) (snd added).

(** The rule of the allocation for an inline default: the input is
    required and its type is not a class. *)
Definition InlineDefaultAllowed (inp : UNiagaraNodeInput) : bool :=
  IsRequired inp && bool_decide (GetClass (GetType (Input inp)) = None).

(** Input pins that are as the allocation makes them for the inputs of the
    callee: an exposed input has a slot, only an exposed input has one, and
    the slot allows an inline default exactly by the rule. *)
Definition SlotsAsAllocated (nodes : list UNiagaraNodeInput) (pins : list UEdGraphPin) : Prop :=
  forall inp, In inp nodes ->
    (IsExposed inp = true -> MatchingPin pins inp <> None)
    /\ (forall i p, MatchingPin pins inp = Some (i, p) ->
          IsExposed inp = true /\ bDefaultValueIsIgnored p = negb (InlineDefaultAllowed inp)).

(** The errors that a compile may give for such pins: no stale call site,
    and an unbound required input only for an input of class type. *)
Definition ErrorAfterAllocation (nodes : list UNiagaraNodeInput) (c : TranslatorCall) : Prop :=
  match c with
  | Error StaleFunctionCallError _ => False
  | Error (RequiredInputUnboundErrorFmt PinDisplayName) _ =>
      exists inp, In inp nodes /\ IsExposed inp = true /\ IsRequired inp = true
                  /\ GetClass (GetType (Input inp)) <> None
                  /\ GetName (Input inp) = PinDisplayName
  | _ => True
  end.

(** [CreatePin] gives the pin the name and the type it is asked for. *)
Definition CreatePin_as_asked
    (CreatePin : EEdGraphPinDirection -> FNiagaraTypeDefinition -> FName -> FAllocatedPin)
  : Prop :=
  forall d T N,
    PinName (Allocated_Pin (CreatePin d T N)) = N
    /\ PinType (Allocated_Pin (CreatePin d T N)) = T.

(** An input for which the loop of [Compile] reaches the assertion of
    [FindAutoBoundInput] and finds it false: the input has a slot, the slot
    has no link that traces to an output, and the input is not exposed. *)
Definition AssertionFails (G : UNiagaraGraph) (pins : list UEdGraphPin)
    (inp : UNiagaraNodeInput) : Prop :=
  exists i p, MatchingPin pins inp = Some (i, p) /\ TraceFirstLink G p = None
              /\ IsExposed inp = false.

(** A usage of a graph for which the aggregation adds an entry, and the
    graphs that it goes through: the call sites of the traversals of such
    usages. *)
Definition UsageGathered (g : ReferencedGraph) (u : ENiagaraScriptUsage) : Prop :=
  (u = Script_Function \/ u = Script_Module \/ u = Script_DynamicInput)
  /\ FGuid_IsValid (GetBaseId g u) = true
  /\ CompileHash_IsValid (GetCompileDataHash g u) = true.

Inductive Visits : ReferencedGraph -> ReferencedGraph -> Prop :=
| Visits_self g : Visits g g
| Visits_call g u called g' :
    UsageGathered g u -> In (Some (Some called)) (Traversal g u) -> Visits called g' ->
    Visits g g'.

(** A collector that, when it returns, has added entries to the two arrays
    in step; and one that has added a given hash beside a given path. *)
Definition Adds (f : References -> Checked References) : Prop :=
  forall refs refs',
    f refs = Returned refs' ->
    exists added, refs' = Append refs added /\ length (fst added) = length (snd added).

Definition Collects (h : FNiagaraCompileHash) (path : FString)
    (f : References -> Checked References) : Prop :=
  forall refs refs',
    f refs = Returned refs' ->
    exists added,
      refs' = Append refs added /\ length (fst added) = length (snd added)
      /\ In (h, path) (combine (fst added) (snd added)).



(** Modelled from the spec: [UNiagaraGraph::GetAllReferencedGraphs] is
    defined outside NiagaraNodeFunctionCall.cpp (with the graph); by section
    4.6 it computes the set of all graphs transitively referenced by the
    callable, itself included.  [CalledGraphs] gives the graphs called by
    the call sites of a graph; a graph collects its referenced graphs when
    the package of every graph reached through call sites, the graph itself
    included, is among the packages that [GetAllReferencedGraphs] gives. *)
Inductive TransitivelyReferenced (CalledGraphs : UNiagaraGraph -> list UNiagaraGraph)
    (G : UNiagaraGraph) : UNiagaraGraph -> Prop :=
| Referenced_itself : TransitivelyReferenced CalledGraphs G G
| Referenced_through H K :
    TransitivelyReferenced CalledGraphs G H -> In K (CalledGraphs H) ->
    TransitivelyReferenced CalledGraphs G K.

(** Modelled from the spec: what section 4.6 says of the list that
    [GetAllReferencedGraphs] gives for a graph. *)
Definition CollectsReferencedGraphs (CalledGraphs : UNiagaraGraph -> list UNiagaraGraph)
    (G : UNiagaraGraph) : Prop :=
  forall H, TransitivelyReferenced CalledGraphs G H ->
            In (GetOutermost H) (GetAllReferencedGraphs G).

(** ** Sample call sites

    Concrete graphs, pins and call sites on which the properties below are
    exercised. *)

Module Samples.

Definition Float : FNiagaraTypeDefinition :=
  {| TypeName := "float"; GetClass := None; IsDataInterface := false |}.
Definition Vector : FNiagaraTypeDefinition :=
  {| TypeName := "vector"; GetClass := None; IsDataInterface := false |}.
Definition Bool : FNiagaraTypeDefinition :=
  {| TypeName := "bool"; GetClass := None; IsDataInterface := false |}.

Definition Velocity : FNiagaraVariable := {| GetName := "Velocity"; GetType := Vector |}.
Definition Scale : FNiagaraVariable := {| GetName := "Scale"; GetType := Float |}.
Definition Mass : FNiagaraVariable := {| GetName := "Mass"; GetType := Float |}.
Definition Seed : FNiagaraVariable := {| GetName := "Seed"; GetType := Float |}.

Definition Pin (v : FNiagaraVariable) (links : list PinRef) (ignored : bool) : UEdGraphPin :=
  {| PinName := GetName v; PinType := GetType v; LinkedTo := links;
     bDefaultValueIsIgnored := ignored; DefaultValue := EmptyString |}.

(** An exposed input: required or optional, auto-bindable or not. *)
Definition Exposed (v : FNiagaraVariable) (required autobind : bool) : UNiagaraNodeInput :=
  {| Input := v; IsExposed := true; IsRequired := required; IsHidden := false;
     CanAutoBind := autobind; ExposureOptions_bRequired := required |}.

(** An input that is not exposed. *)
Definition Internal (v : FNiagaraVariable) (required : bool) : UNiagaraNodeInput :=
  {| Input := v; IsExposed := false; IsRequired := false; IsHidden := false;
     CanAutoBind := false; ExposureOptions_bRequired := required |}.

Definition Graph (outputs : list UNiagaraNodeOutput) (inputs : list UNiagaraNodeInput)
    (switches : list FNiagaraVariable) (package : UPackage)
    (referenced : list (option UPackage)) : UNiagaraGraph :=
  {| OutputNodes := outputs; TracedOutputPin := fun id => Some (GraphPin id);
     NewObjects := []; GetOutermost := Some package;
     FindInputNodes := inputs; FindStaticSwitchInputs := switches;
     GetChangeID := {| GuidA := 1; GuidB := 0; GuidC := 0; GuidD := 0 |};
     GetAllReferencedGraphs := referenced |}.

Definition Script (g : UNiagaraGraph) : UNiagaraScript :=
  {| ScriptName := "Callee"; ScriptPathName := "/Game/Callee";
     GetSource := Some (Some {| NodeGraph := Some g |});
     GetUsage := Script_Module; bDeprecated := false; DeprecationMessage := EmptyString;
     DeprecationRecommendation := None; bExperimental := false;
     ExperimentalMessage := EmptyString |}.

Definition NoSignature : FNiagaraFunctionSignature :=
  {| Signature_IsValid := false; Signature_Name := EmptyString; Signature_Inputs := [];
     Signature_Outputs := []; bRequiresExecPin := false; bMemberFunction := false;
     bSoftDeprecatedFunction := false; Signature_bExperimental := false;
     Signature_ExperimentalMessage := EmptyString; Signature_FunctionSpecifiers := [] |}.

Definition CallSite (script : option UNiagaraScript) (inputs outputs : list UEdGraphPin)
    (propagated : list FNiagaraPropagatedVariable) : UNiagaraNodeFunctionCall :=
  {| FunctionScript := script; FunctionScriptAssetObjectPath := NAME_None;
     Signature := NoSignature; FunctionSpecifiers := [];
     FunctionDisplayName := "Callee001";
     PropagatedStaticSwitchParameters := propagated;
     CachedChangeId := {| GuidA := 1; GuidB := 0; GuidC := 0; GuidD := 0 |};
     InputPins := inputs; OutputPins := outputs;
     IsNodeEnabled := true; GetValidateDataInterfaces := true;
     bHasCompilerMessage := false; ErrorType := Severity_Info;
     ErrorMsg := NoText; NodeUpgradeMessage := NoText |}.

(** A translator that numbers its handles by the name of what it compiles. *)
Definition Translator : FHlslNiagaraTranslator :=
  {| CompilePin_handle := fun p => Z.of_nat (String.length (PinName p));
     GetConstant_handle := fun v => (100 + Z.of_nat (String.length (GetName v)))%Z;
     CompileInputPins_result := fun pins => (false, []);
     FunctionCall_outputs := fun inputs outputs => outputs ++ [Z.of_nat (length inputs)] |}.

Definition NoUnusedPins : UNiagaraNodeFunctionCall -> list UEdGraphPin := fun _ => [].
Definition NoDefaultObject : string -> option (FNiagaraFunctionSignature -> list FText) :=
  fun _ => None.

(** A particle script: a spawn output that produces [Velocity]. *)
Definition SpawnOutput : UNiagaraNodeOutput :=
  {| OutputUsage := Script_ParticleSpawnScript; Outputs := [Velocity]; GetAllPins := [] |}.
Definition ParticleGraph : UNiagaraGraph := Graph [SpawnOutput] [] [] "/Game/Emitter" [].

(** A graph without spawn or update output. *)
Definition PlainGraph : UNiagaraGraph := Graph [] [] [] "/Game/Caller" [].

(** The callee of section 8: [Velocity], required and auto-bindable,
    [Scale], optional, and [Seed], required but not exposed; the call site
    has a slot for each exposed input, none of them linked. *)
Definition VelocityInput : UNiagaraNodeInput := Exposed Velocity true true.
Definition ScaleInput : UNiagaraNodeInput := Exposed Scale false false.
Definition SeedInput : UNiagaraNodeInput := Internal Seed true.
Definition Callee : UNiagaraGraph :=
  Graph [] [VelocityInput; ScaleInput; SeedInput] [] "/Game/Callee" [].
Definition VelocityPin : UEdGraphPin := Pin Velocity [] true.
Definition ScalePin : UEdGraphPin := Pin Scale [] true.
Definition Site : UNiagaraNodeFunctionCall :=
  CallSite (Some (Script Callee)) [VelocityPin; ScalePin] [] [].

(** A call site without script and without signature. *)
Definition UnresolvedSite : UNiagaraNodeFunctionCall := CallSite None [] [] [].

(** A callee with a module output whose parameter map pin is linked, and a
    call site with a parameter map output pin. *)
Definition ParameterMap : FNiagaraVariable :=
  {| GetName := "Out"; GetType := GetParameterMapDef |}.
Definition ModuleOutput : UNiagaraNodeOutput :=
  {| OutputUsage := Script_Module; Outputs := [];
     GetAllPins := [Pin ParameterMap [GraphPin 4] true] |}.
Definition ModuleCallee : UNiagaraGraph := Graph [ModuleOutput] [] [] "/Game/Callee" [].
Definition ModuleSite : UNiagaraNodeFunctionCall :=
  CallSite (Some (Script ModuleCallee)) [] [Pin ParameterMap [] true] [].
Definition Builder : FNiagaraParameterMapHistoryBuilder :=
  {| GetIgnoreDisabled := true;
     TraceParameterMapOutputPin_result := fun _ => 0%Z;
     BeginNodeVisitation_result := fun _ => 0%Z |}.

(** A base-class check that lets every node in. *)
Definition AcceptingSuper : UNiagaraNodeFunctionCall -> UNiagaraGraph -> FText -> bool * FText :=
  fun _ _ msg => (true, msg).
Definition EmptyRegistry : FName -> option (option UNiagaraScript) := fun _ => None.

(** A callee that calls a helper, which calls a function of the package
    of the emitter: the emitter graph is referenced by the callee through
    the helper. *)
Definition EmitterGraph : UNiagaraGraph :=
  Graph [SpawnOutput] [] [] "/Game/Emitter" [Some "/Game/Emitter"].
Definition HelperGraph : UNiagaraGraph :=
  Graph [] [] [] "/Game/Helper" [Some "/Game/Helper"; Some "/Game/Emitter"].
Definition ChainCallee : UNiagaraGraph :=
  Graph [] [] [] "/Game/Callee" [Some "/Game/Callee"; Some "/Game/Helper"; Some "/Game/Emitter"].
Definition ChainCallSite : UNiagaraNodeFunctionCall :=
  CallSite (Some (Script ChainCallee)) [] [] [].
Definition ChainCalledGraphs (G : UNiagaraGraph) : list UNiagaraGraph :=
  match GetOutermost G with
  | Some p =>
      if String.eqb p "/Game/Callee" then [HelperGraph]
      else if String.eqb p "/Game/Helper" then [EmitterGraph]
      else []
  | None => []
  end.

(** The diamond [A -> B], [A -> C], [B -> D], [C -> D] of module scripts. *)
Definition ModuleId (u : ENiagaraScriptUsage) : FGuid :=
  match u with
  | Script_Module => {| GuidA := 7; GuidB := 0; GuidC := 0; GuidD := 0 |}
  | _ => FGuid_zero
  end.
Definition ModuleHash (h : string) (u : ENiagaraScriptUsage) : FNiagaraCompileHash :=
  match u with
  | Script_Module => {| CompileHash_IsValid := true; DataHash := h |}
  | _ => {| CompileHash_IsValid := false; DataHash := EmptyString |}
  end.
Definition ModuleGraph (path h : string) (calls : list ReferencedGraph) : ReferencedGraph :=
  MakeGraph path ModuleId (ModuleHash h)
    (fun u => match u with
              | Script_Module => map (fun g => Some (Some g)) calls
              | _ => []
              end).
Definition GraphD : ReferencedGraph := ModuleGraph "/Game/D" "hashD" [].
Definition GraphB : ReferencedGraph := ModuleGraph "/Game/B" "hashB" [GraphD].
Definition GraphC : ReferencedGraph := ModuleGraph "/Game/C" "hashC" [GraphD].
Definition GraphA : ReferencedGraph := ModuleGraph "/Game/A" "hashA" [GraphB; GraphC].

(** The static switch [Quality], and a [ReallocatePins] that leaves the
    node as it is. *)
Definition Quality : FNiagaraVariable := {| GetName := "Quality"; GetType := Bool |}.
Definition KeepPins : bool -> UNiagaraNodeFunctionCall -> UNiagaraNodeFunctionCall :=
  fun _ n => n.

(** The call site of section 8 with its [Velocity] slot linked by the
    caller, and with a [Velocity] slot that allows an inline default. *)
Definition LinkedSite : UNiagaraNodeFunctionCall :=
  CallSite (Some (Script Callee)) [Pin Velocity [GraphPin 3] true; ScalePin] [] [].
Definition DefaultSite : UNiagaraNodeFunctionCall :=
  CallSite (Some (Script Callee)) [Pin Velocity [] false; ScalePin] [] [].

(** A callee with the static switch [Quality], and a call site, allocated
    for this callee, that propagates the switch. *)
Definition SwitchCallee : UNiagaraGraph := Graph [] [] [Quality] "/Game/Callee" [].
Definition SwitchSite : UNiagaraNodeFunctionCall :=
  CallSite (Some (Script SwitchCallee)) [Pin Quality [] false] []
    [{| SwitchParameter := Quality; PropagatedName := "Quality" |}].

(** A deprecated script, with a reason and no recommendation. *)
Definition DeprecatedScript : UNiagaraScript :=
  {| ScriptName := "Callee"; ScriptPathName := "/Game/Callee";
     GetSource := Some (Some {| NodeGraph := Some Callee |});
     GetUsage := Script_Module; bDeprecated := true;
     DeprecationMessage := "Superseded"; DeprecationRecommendation := None;
     bExperimental := true; ExperimentalMessage := EmptyString |}.
Definition DeprecatedSite : UNiagaraNodeFunctionCall :=
  CallSite (Some DeprecatedScript) [VelocityPin; ScalePin] [] [].


(** A callee with the inputs of section 8 and the static switch [Quality],
    a call site for it without pins, and an editor that creates pins
    without links and without defaults. *)
Definition SwitchedCallee : UNiagaraGraph :=
  Graph [] [VelocityInput; ScaleInput; SeedInput] [Quality] "/Game/Callee" [].
Definition FreshSite : UNiagaraNodeFunctionCall :=
  CallSite (Some (Script SwitchedCallee)) [] [] [].
Definition NewPin (d : EEdGraphPinDirection) (T : FNiagaraTypeDefinition) (N : FName)
  : FAllocatedPin :=
  {| Allocated_Pin := {| PinName := N; PinType := T; LinkedTo := [];
                         bDefaultValueIsIgnored := false; DefaultValue := EmptyString |};
     bNotConnectable := false; bAdvancedView := false;
     AutogeneratedDefaultValue := EmptyString |}.
Definition NewAddPin (d : EEdGraphPinDirection) : FAllocatedPin :=
  NewPin d {| TypeName := "wildcard"; GetClass := None; IsDataInterface := false |} "Add".
Definition NoOutputs : UNiagaraGraph -> list FNiagaraVariable := fun _ => [].
Definition NoInputPins : UNiagaraNodeInput -> list UEdGraphPin := fun _ => [].
Definition NoSchemaDefault : FNiagaraVariable -> option Z -> option FString := fun _ _ => None.
Definition NoMetaData : UNiagaraGraph -> FNiagaraVariable -> option Z := fun _ _ => None.
Definition KeepName : UNiagaraNodeFunctionCall -> FString := FunctionDisplayName.

(** A callee whose first input is a required data interface, which cannot
    have an inline default, followed by a required input and by [Seed]; the
    call site has the pins that the allocation makes for the callee, and the
    caller has linked the second one. *)
Definition GridInterface : FNiagaraTypeDefinition :=
  {| TypeName := "NiagaraDataInterfaceGrid2DCollection";
     GetClass := Some "NiagaraDataInterfaceGrid2DCollection"; IsDataInterface := true |}.
Definition Grid : FNiagaraVariable := {| GetName := "Grid"; GetType := GridInterface |}.
Definition GridInput : UNiagaraNodeInput := Exposed Grid true false.
Definition MassInput : UNiagaraNodeInput := Exposed Mass true false.
Definition GridCallee : UNiagaraGraph :=
  Graph [] [GridInput; MassInput; SeedInput] [] "/Game/Callee" [].
Definition GridPin : UEdGraphPin := Pin Grid [] true.
Definition MassPin : UEdGraphPin := Pin Mass [GraphPin 3] false.
Definition GridSite : UNiagaraNodeFunctionCall :=
  CallSite (Some (Script GridCallee)) [GridPin; MassPin] [] [].

(** A call site of an intrinsic: a valid signature without inputs, and
    specifiers set on the node. *)
Definition IntrinsicSignature : FNiagaraFunctionSignature :=
  {| Signature_IsValid := true; Signature_Name := "GetAttribute"; Signature_Inputs := [];
     Signature_Outputs := [Scale]; bRequiresExecPin := false; bMemberFunction := false;
     bSoftDeprecatedFunction := false; Signature_bExperimental := false;
     Signature_ExperimentalMessage := EmptyString; Signature_FunctionSpecifiers := [] |}.
Definition IntrinsicSite : UNiagaraNodeFunctionCall :=
  {| FunctionScript := None; FunctionScriptAssetObjectPath := NAME_None;
     Signature := IntrinsicSignature; FunctionSpecifiers := [("Attribute", "Scale")];
     FunctionDisplayName := "GetAttribute001";
     PropagatedStaticSwitchParameters := [];
     CachedChangeId := FGuid_zero;
     InputPins := []; OutputPins := [Pin Scale [] true];
     IsNodeEnabled := true; GetValidateDataInterfaces := true;
     bHasCompilerMessage := false; ErrorType := Severity_Info;
     ErrorMsg := NoText; NodeUpgradeMessage := NoText |}.

(** A call site that propagates the switch [Quality], with the pins that
    the allocation made for [SwitchCallee], and whose callee has been edited
    since: the switch is now an integer, and the change id of the graph is
    a new one. *)
Definition Int32 : FNiagaraTypeDefinition :=
  {| TypeName := "int32"; GetClass := None; IsDataInterface := false |}.
Definition QualityLevel : FNiagaraVariable := {| GetName := "Quality"; GetType := Int32 |}.
Definition PropagatedQuality : FNiagaraPropagatedVariable :=
  {| SwitchParameter := Quality; PropagatedName := "Quality" |}.
Definition RetypedCallee : UNiagaraGraph :=
  {| OutputNodes := []; TracedOutputPin := fun id => Some (GraphPin id);
     NewObjects := []; GetOutermost := Some "/Game/Callee";
     FindInputNodes := []; FindStaticSwitchInputs := [QualityLevel];
     GetChangeID := {| GuidA := 2; GuidB := 0; GuidC := 0; GuidD := 0 |};
     GetAllReferencedGraphs := [Some "/Game/Callee"] |}.
Definition PropagatingSite : UNiagaraNodeFunctionCall :=
  CallSite (Some (Script SwitchCallee)) [] [] [PropagatedQuality].
Definition RetypedSwitchSite : UNiagaraNodeFunctionCall :=
  CallSite (Some (Script RetypedCallee)) [Pin Quality [] true] [] [PropagatedQuality].

End Samples.

(** * Properties *)

Lemma IsEquivalent_eq a b : IsEquivalent a b = true <-> a = b.
Proof.
  unfold IsEquivalent, IsEqual. rewrite andb_true_iff, !bool_decide_eq_true.
  destruct a, b; simpl; split; [intros [-> ->]; reflexivity | intros [= -> ->]; auto].
Qed.

Lemma VarEq_eq a b : VarEq a b = true <-> a = b.
Proof. unfold VarEq. apply bool_decide_eq_true. Qed.

Lemma existsb_VarEq v l : existsb (VarEq v) l = true <-> In v l.
Proof.
  rewrite existsb_exists. split.
  - intros (x & Hx & He). apply VarEq_eq in He. subst. assumption.
  - intros H. exists v. split; [assumption | apply VarEq_eq; reflexivity].
Qed.

(** ** Auto-bind resolution *)

(** C3.  For an unconnected slot of an exposed, auto-bindable input,
    [FindAutoBoundInput] returns; it binds as [Attribute], to an attribute
    of the enclosing contract (spawn before update) that is equivalent to
    the slot, whenever there is one, also when the slot's variable is a
    system constant as well; it binds as [SystemConstant] only when no
    attribute matches and the registry holds the variable; else it fails. *)
Theorem FindAutoBoundInput_prefers_attribute :
  forall SysConstants G InputNode Pin,
    IsExposed InputNode = true ->
    CanAutoBind InputNode = true ->
    LinkedTo Pin = [] ->
    exists r,
      FindAutoBoundInput SysConstants G InputNode Pin = Returned r
      /\ (AttributeMatches G Pin ->
          exists n Attr, r = Some (Attr, Usage_Attribute) /\ EnclosingContract G n
                         /\ In Attr (Outputs n)
                         /\ IsEquivalent (PinToNiagaraVariable Pin) Attr = true)
      /\ (~ AttributeMatches G Pin -> In (PinToNiagaraVariable Pin) SysConstants ->
          r = Some (PinToNiagaraVariable Pin, Usage_SystemConstant))
      /\ (~ AttributeMatches G Pin -> ~ In (PinToNiagaraVariable Pin) SysConstants ->
          r = None).
Proof.
  intros Sys G InputNode Pin Hexp Hauto Hlink.
  unfold FindAutoBoundInput. rewrite Hexp, Hauto, Hlink. simpl.
  set (PinVar := PinToNiagaraVariable Pin).
  destruct (FindOutputNode G Script_ParticleSpawnScript) as [s|] eqn:Hs.
  - destruct (List.find (fun Attr => IsEquivalent PinVar Attr) (Outputs s)) as [a|] eqn:Hf.
    + apply find_some in Hf as [Hin Heq].
      eexists; split; [reflexivity|]. split; [|split].
      * intros _. exists s, a. repeat split; auto. left; assumption.
      * intros Hno. exfalso. apply Hno. exists s, a. repeat split; auto. left; assumption.
      * intros Hno. exfalso. apply Hno. exists s, a. repeat split; auto. left; assumption.
    + assert (Hno : ~ AttributeMatches G Pin).
      { intros (n & Attr & [Hn | [Hn _]] & Hin & Heq); [|congruence].
        rewrite Hs in Hn. injection Hn as <-.
        eapply find_none in Hf; [|eassumption]. simpl in Hf. fold PinVar in Heq. congruence. }
      destruct (existsb (VarEq PinVar) Sys) eqn:He.
      * eexists; split; [reflexivity|]. split; [|split]; intros; try contradiction; auto.
        exfalso. apply existsb_VarEq in He. auto.
      * eexists; split; [reflexivity|]. split; [|split]; intros; try contradiction; auto.
        exfalso. apply existsb_VarEq in H0. congruence.
  - destruct (FindOutputNode G Script_ParticleUpdateScript) as [u|] eqn:Hu.
    + destruct (List.find (fun Attr => IsEquivalent PinVar Attr) (Outputs u)) as [a|] eqn:Hf.
      * apply find_some in Hf as [Hin Heq].
        eexists; split; [reflexivity|]. split; [|split].
        -- intros _. exists u, a. repeat split; auto. right; auto.
        -- intros Hno. exfalso. apply Hno. exists u, a. repeat split; auto. right; auto.
        -- intros Hno. exfalso. apply Hno. exists u, a. repeat split; auto. right; auto.
      * assert (Hno : ~ AttributeMatches G Pin).
        { intros (n & Attr & [Hn | [_ Hn]] & Hin & Heq); [congruence|].
          rewrite Hu in Hn. injection Hn as <-.
          eapply find_none in Hf; [|eassumption]. simpl in Hf. fold PinVar in Heq. congruence. }
        destruct (existsb (VarEq PinVar) Sys) eqn:He.
        -- eexists; split; [reflexivity|]. split; [|split]; intros; try contradiction; auto.
           exfalso. apply existsb_VarEq in He. auto.
        -- eexists; split; [reflexivity|]. split; [|split]; intros; try contradiction; auto.
           exfalso. apply existsb_VarEq in H0. congruence.
    + assert (Hno : ~ AttributeMatches G Pin).
      { intros (n & Attr & [Hn | [_ Hn]] & _); congruence. }
      destruct (existsb (VarEq PinVar) Sys) eqn:He.
      * eexists; split; [reflexivity|]. split; [|split]; intros; try contradiction; auto.
        exfalso. apply existsb_VarEq in He. auto.
      * eexists; split; [reflexivity|]. split; [|split]; intros; try contradiction; auto.
        exfalso. apply existsb_VarEq in H0. congruence.
Qed.

(** ** The loop of Compile *)

Lemma bindC_Returned {A B} (m : Checked A) (k : A -> Checked B) b :
  bindC m k = Returned b -> exists a, m = Returned a /\ k a = Returned b.
Proof. destruct m; simpl; [discriminate | eauto]. Qed.

Lemma FindByPredicate_Some {A} (P : A -> bool) l i x :
  FindByPredicate P l = Some (i, x) -> l !! i = Some x /\ P x = true.
Proof.
  revert i. induction l as [|y l IH]; simpl; intros i H; [discriminate|].
  destruct (P y) eqn:Hy.
  - injection H as <- <-. auto.
  - destruct (FindByPredicate P l) as [[j z]|]; [|discriminate].
    injection H as <- <-. simpl. apply IH. reflexivity.
Qed.

Lemma FindByPredicate_None {A} (P : A -> bool) l x :
  FindByPredicate P l = None -> In x l -> P x = false.
Proof.
  induction l as [|y l IH]; simpl; intros H Hin; [contradiction|].
  destruct (P y) eqn:Hy; [discriminate|].
  destruct (FindByPredicate P l) as [[j z]|]; [discriminate|].
  destruct Hin as [<- | Hin]; auto.
Qed.

(** The slot that matches an input depends on the names and types of the
    pins only. *)
Lemma FindByPredicate_same_slots (v : FNiagaraVariable) (l l' : list UEdGraphPin) :
  map PinToNiagaraVariable l = map PinToNiagaraVariable l' ->
  match FindByPredicate (fun p => IsEquivalent (PinToNiagaraVariable p) v) l with
  | Some (i, _) =>
      exists p', FindByPredicate (fun p => IsEquivalent (PinToNiagaraVariable p) v) l'
                 = Some (i, p')
  | None => FindByPredicate (fun p => IsEquivalent (PinToNiagaraVariable p) v) l' = None
  end.
Proof.
  revert l'. induction l as [|x l IH]; intros [|x' l'] H; cbn [map] in H;
    try discriminate; cbn [FindByPredicate]; auto.
  assert (Hx : PinToNiagaraVariable x = PinToNiagaraVariable x') by congruence.
  assert (Hl : map PinToNiagaraVariable l = map PinToNiagaraVariable l') by congruence.
  rewrite <- Hx.
  destruct (IsEquivalent (PinToNiagaraVariable x) v); [eauto|].
  specialize (IH l' Hl).
  destruct (FindByPredicate _ l) as [[i p]|].
  - destruct IH as [p' ->]. eauto.
  - rewrite IH. reflexivity.
Qed.

Lemma SlotIndex_same_slots pins pins' inp :
  map PinToNiagaraVariable pins = map PinToNiagaraVariable pins' ->
  SlotIndex pins inp = SlotIndex pins' inp.
Proof.
  intros H. unfold SlotIndex, MatchingPin.
  pose proof (FindByPredicate_same_slots (Input inp) pins pins' H) as Hs.
  destruct (FindByPredicate _ pins) as [[i p]|].
  - destruct Hs as [p' ->]. reflexivity.
  - rewrite Hs. reflexivity.
Qed.

Lemma MatchingPin_lookup pins inp i p :
  MatchingPin pins inp = Some (i, p) ->
  pins !! i = Some p /\ PinToNiagaraVariable p = Input inp.
Proof.
  intros H. apply FindByPredicate_Some in H as [Hl He].
  apply IsEquivalent_eq in He. auto.
Qed.

Lemma MatchingPin_SlotIndex pins inp i :
  SlotIndex pins inp = Some i -> exists p, MatchingPin pins inp = Some (i, p).
Proof.
  unfold SlotIndex. destruct (MatchingPin pins inp) as [[j p]|]; simpl; [|discriminate].
  intros [= ->]. eauto.
Qed.

Lemma MatchingPin_None_SlotIndex pins inp :
  MatchingPin pins inp = None <-> SlotIndex pins inp = None.
Proof. unfold SlotIndex. destruct (MatchingPin pins inp) as [[? ?]|]; simpl; split; congruence. Qed.

(** Two inputs that match the same slot stand for the same variable. *)
Lemma SlotIndex_inj pins x y i :
  SlotIndex pins x = Some i -> SlotIndex pins y = Some i -> Input x = Input y.
Proof.
  intros Hx Hy.
  apply MatchingPin_SlotIndex in Hx as [p Hp]. apply MatchingPin_SlotIndex in Hy as [q Hq].
  apply MatchingPin_lookup in Hp as [Hp1 Hp2]. apply MatchingPin_lookup in Hq as [Hq1 Hq2].
  congruence.
Qed.

Lemma map_insert_same_slot (pins : list UEdGraphPin) i p p' :
  pins !! i = Some p -> PinToNiagaraVariable p' = PinToNiagaraVariable p ->
  map PinToNiagaraVariable (<[i := p']> pins) = map PinToNiagaraVariable pins.
Proof.
  intros Hl He. rewrite list_fmap_insert. rewrite He.
  apply list_insert_id. rewrite list_lookup_fmap, Hl. reflexivity.
Qed.

Lemma FindAutoBoundInput_graph Sys G G' inp p :
  OutputNodes G = OutputNodes G' ->
  FindAutoBoundInput Sys G inp p = FindAutoBoundInput Sys G' inp p.
Proof. intros H. unfold FindAutoBoundInput, FindOutputNode. rewrite H. reflexivity. Qed.

Lemma TraceFirstLink_graph G G' p :
  TracedOutputPin G = TracedOutputPin G' -> TraceFirstLink G p = TraceFirstLink G' p.
Proof.
  intros H. unfold TraceFirstLink, TraceOutputPin. destruct (LinkedTo p) as [|[id|n] ?]; auto.
  rewrite H. reflexivity.
Qed.

Section LoopProperties.

Variable SysConstants : list FNiagaraVariable.
Variable Translator : FHlslNiagaraTranslator.

Local Abbreviation Step := (CompileFunctionInput SysConstants Translator).
Local Abbreviation Loop := (CompileFunctionInputs SysConstants Translator).
Local Abbreviation AutoBound := (FindAutoBoundInput SysConstants).
Local Abbreviation Resolves := (Niagara.Resolves SysConstants Translator).

Lemma Step_Resolves inp st st' : Step inp st = Returned st' <-> Resolves inp st st'.
Proof.
  unfold CompileFunctionInput. split.
  - intros H.
    destruct (MatchingPin (CallerInputPins st) inp) as [[i p]|] eqn:Hm.
    + destruct (TraceFirstLink (CallerGraph st) p) as [r|] eqn:Ht; simpl in H.
      * injection H as <-. eapply Resolves_Linked; eauto.
      * destruct (AutoBound (CallerGraph st) inp p) as [|[[v u]|]] eqn:Ha; simpl in H;
          [discriminate | |].
        -- injection H as <-. eapply Resolves_AutoBound; eauto.
        -- destruct (IsRequired inp) eqn:Hr;
             [destruct (bDefaultValueIsIgnored p) eqn:Hd|]; injection H as <-.
           ++ eapply Resolves_Unbound; eauto.
           ++ eapply Resolves_InlineDefault; eauto.
           ++ eapply Resolves_Optional; eauto.
    + destruct (IsExposed inp) eqn:He;
        [|destruct (ExposureOptions_bRequired inp) eqn:Hr]; injection H as <-.
      * apply Resolves_Stale; auto.
      * apply Resolves_Constant; auto.
      * apply Resolves_NoSlot; auto.
  - intros H. destruct H as [Hm He|Hm He Hr|Hm He Hr|i p r Hm Ht|i p v u Hm Ht Ha p'
                            |i p Hm Ht Ha Hr Hd|i p Hm Ht Ha Hr Hd|i p Hm Ht Ha Hr];
      rewrite Hm; try rewrite He; try rewrite Ht; simpl; try rewrite Ha; simpl;
      try rewrite Hr; try rewrite Hd; reflexivity.
Qed.

Lemma Frame_refl st : Frame st st.
Proof. split; reflexivity. Qed.

Lemma Frame_trans st1 st2 st3 : Frame st1 st2 -> Frame st2 st3 -> Frame st1 st3.
Proof. intros [] []. split; congruence. Qed.

Lemma Resolves_Frame inp st st' : Resolves inp st st' -> Frame st st'.
Proof.
  intros H. destruct H; try (split; reflexivity).
  split; try reflexivity. simpl.
  apply MatchingPin_lookup in H as [Hl _].
  eapply map_insert_same_slot; [eassumption | reflexivity].
Qed.

(** A step writes at most the pin of the slot that matches its input. *)
Lemma Resolves_other_pins inp st st' j :
  Resolves inp st st' -> SlotIndex (CallerInputPins st) inp <> Some j ->
  CallerInputPins st' !! j = CallerInputPins st !! j.
Proof.
  intros H Hj. destruct H; try reflexivity.
  simpl. apply list_lookup_insert_ne. intros ->.
  apply Hj. unfold SlotIndex. rewrite H. reflexivity.
Qed.

(** A step adds one entry to [Inputs]. *)
Lemma Resolves_Inputs inp st st' :
  Resolves inp st st' -> exists h, Inputs st' = Inputs st ++ [h].
Proof. intros H. destruct H; simpl; eauto. Qed.

(** The assertion of [FindAutoBoundInput] holds for an input that has no
    slot, and for an exposed one. *)
Lemma Step_returns inp st :
  (SlotIndex (CallerInputPins st) inp <> None -> IsExposed inp = true) ->
  exists st', Step inp st = Returned st'.
Proof.
  intros Hc. unfold CompileFunctionInput, SlotIndex in *.
  destruct (MatchingPin (CallerInputPins st) inp) as [[i p]|] eqn:Hm.
  - destruct (TraceFirstLink (CallerGraph st) p); simpl; [eauto|].
    unfold FindAutoBoundInput. rewrite Hc by discriminate. simpl.
    repeat match goal with
           | |- context [if ?b then _ else _] => destruct b; simpl
           | |- context [match ?x with _ => _ end] => destruct x; simpl
           end; eauto.
  - repeat match goal with
           | |- context [if ?b then _ else _] => destruct b; simpl
           end; eauto.
Qed.

Lemma Loop_app l1 l2 st :
  Loop (l1 ++ l2) st = bindC (Loop l1 st) (Loop l2).
Proof.
  revert st. induction l1 as [|x l1 IH]; intros st; simpl; [reflexivity|].
  destruct (Step x st); simpl; auto.
Qed.

Lemma Loop_Frame l st st' : Loop l st = Returned st' -> Frame st st'.
Proof.
  revert st. induction l as [|x l IH]; intros st H; simpl in H.
  - injection H as <-. apply Frame_refl.
  - apply bindC_Returned in H as (st1 & H1 & H2).
    apply Step_Resolves, Resolves_Frame in H1. eapply Frame_trans; eauto.
Qed.

Lemma Loop_returns l st :
  ChecksHold (CallerInputPins st) l -> exists st', Loop l st = Returned st'.
Proof.
  revert st. induction l as [|x l IH]; intros st Hc; simpl; [eauto|].
  destruct (Step_returns x st) as [st1 H1]; [apply Hc; left; reflexivity|].
  rewrite H1. simpl. apply IH.
  intros y Hy. apply Step_Resolves, Resolves_Frame in H1 as [Hs _ _].
  rewrite (SlotIndex_same_slots _ _ y Hs). apply Hc. right. assumption.
Qed.

Lemma Loop_other_pins l st st' j :
  Loop l st = Returned st' ->
  (forall x, In x l -> SlotIndex (CallerInputPins st) x <> Some j) ->
  CallerInputPins st' !! j = CallerInputPins st !! j.
Proof.
  revert st. induction l as [|x l IH]; intros st H Hj; simpl in H.
  - injection H as <-. reflexivity.
  - apply bindC_Returned in H as (st1 & H1 & H2).
    apply Step_Resolves in H1.
    rewrite (IH st1 H2).
    + eapply Resolves_other_pins; [eassumption|]. apply Hj. left. reflexivity.
    + intros y Hy. apply Resolves_Frame in H1 as [Hs _ _].
      rewrite (SlotIndex_same_slots _ _ y Hs). apply Hj. right. assumption.
Qed.

Lemma Loop_Inputs_length l st st' :
  Loop l st = Returned st' -> length (Inputs st') = length (Inputs st) + length l.
Proof.
  revert st. induction l as [|x l IH]; intros st H; simpl in H.
  - injection H as <-. simpl. lia.
  - apply bindC_Returned in H as (st1 & H1 & H2).
    apply Step_Resolves, Resolves_Inputs in H1 as [h Hh].
    rewrite (IH st1 H2), Hh, length_app. simpl. lia.
Qed.

Lemma Resolves_Calls inp st st' :
  Resolves inp st st' ->
  exists delta,
    Calls st' = Calls st ++ delta
    /\ (forall i, SlotIndex (CallerInputPins st) inp <> Some i ->
                  List.filter (UnboundErrorFor i) delta = [])
    /\ (forall inputs, ~ In (FunctionCall inputs) delta)
    /\ (bError st = true -> bError st' = true).
Proof.
  intros H. destruct H; simpl;
    try (eexists; split; [reflexivity|]; split; [|split]; simpl; auto;
         [intros ? [?|[]]; discriminate]);
    try (exists []; split; [symmetry; apply app_nil_r|]; split; [|split]; simpl; auto).
  eexists; split; [reflexivity|]. split; [|split]; simpl; auto.
  - intros j Hj. case_bool_decide; [|reflexivity].
    exfalso. apply Hj. unfold SlotIndex. rewrite H. simpl. congruence.
  - intros ? [?|[]]; discriminate.
Qed.

Lemma Loop_Calls l st st' :
  Loop l st = Returned st' ->
  exists delta,
    Calls st' = Calls st ++ delta
    /\ (forall i, (forall x, In x l -> SlotIndex (CallerInputPins st) x <> Some i) ->
                  List.filter (UnboundErrorFor i) delta = [])
    /\ (forall inputs, ~ In (FunctionCall inputs) delta)
    /\ (bError st = true -> bError st' = true).
Proof.
  revert st. induction l as [|x l IH]; intros st H; simpl in H.
  - injection H as <-. exists []. rewrite app_nil_r. auto.
  - apply bindC_Returned in H as (st1 & H1 & H2).
    apply Step_Resolves in H1. pose proof (Resolves_Frame _ _ _ H1) as [Hs _ _].
    apply Resolves_Calls in H1 as (d1 & Hd1 & Hf1 & Hc1 & He1).
    apply IH in H2 as (d2 & Hd2 & Hf2 & Hc2 & He2).
    exists (d1 ++ d2). rewrite Hd2, Hd1, app_assoc. split; [reflexivity|].
    split; [|split]; auto.
    + intros i Hi. rewrite List.filter_app, Hf1, Hf2; auto.
      * intros y Hy. rewrite (SlotIndex_same_slots _ _ y Hs). apply Hi. right; auto.
      * apply Hi. left; reflexivity.
    + intros inputs Hin. apply in_app_or in Hin as [Hin|Hin]; [eapply Hc1|eapply Hc2]; eauto.
Qed.

Lemma Resolves_entry inp st st' :
  Resolves inp st st' -> exists h, Inputs st' = Inputs st ++ [h] /\ EntryFor Translator inp h.
Proof.
  intros H. destruct H; simpl; eexists; (split; [reflexivity|]); unfold EntryFor; auto;
    right; right.
  - exists p. split; [|reflexivity]. apply MatchingPin_lookup in H. tauto.
  - exists p'. split; [|reflexivity]. apply MatchingPin_lookup in H. tauto.
  - exists p. split; [|reflexivity]. apply MatchingPin_lookup in H. tauto.
Qed.

Lemma Loop_entries l st st' :
  Loop l st = Returned st' ->
  exists hs, Inputs st' = Inputs st ++ hs /\ Forall2 (EntryFor Translator) l hs.
Proof.
  revert st. induction l as [|x l IH]; intros st H; simpl in H.
  - injection H as <-. exists []. rewrite app_nil_r. auto.
  - apply bindC_Returned in H as (st1 & H1 & H2).
    apply Step_Resolves, Resolves_entry in H1 as (h & Hh & He).
    apply IH in H2 as (hs & Hhs & Hf).
    exists (h :: hs). rewrite Hhs, Hh, <- app_assoc. auto.
Qed.

(** ** Resolving again

    A second run of the loop, started from the pins and the graph that a
    first run has left, makes the same calls and adds the same entries, and
    writes nothing. *)

Lemma Extend_nil t : Extend [] [] false t = t.
Proof. destruct t. unfold Extend. simpl. rewrite !app_nil_r, orb_false_r. reflexivity. Qed.

Lemma Extend_Extend d1 h1 e1 d2 h2 e2 t :
  Extend d2 h2 e2 (Extend d1 h1 e1 t) = Extend (d1 ++ d2) (h1 ++ h2) (e1 || e2) t.
Proof. unfold Extend. simpl. rewrite !app_assoc, orb_assoc. reflexivity. Qed.

Lemma LinkedTo_AutoBoundPin G p :
  LinkedTo (AutoBoundPin G p) = [NewNodeOutputPin (length (NewObjects G))].
Proof. reflexivity. Qed.

Lemma MatchingPin_again pins pins' inp i p p' :
  MatchingPin pins inp = Some (i, p) ->
  map PinToNiagaraVariable pins' = map PinToNiagaraVariable pins ->
  pins' !! i = Some p' ->
  MatchingPin pins' inp = Some (i, p').
Proof.
  intros Hm Hs Hl.
  assert (Hi : SlotIndex pins' inp = Some i).
  { rewrite (SlotIndex_same_slots _ _ inp Hs). unfold SlotIndex. rewrite Hm. reflexivity. }
  apply MatchingPin_SlotIndex in Hi as [q Hq].
  pose proof (MatchingPin_lookup _ _ _ _ Hq) as [Hq1 _]. congruence.
Qed.

Lemma Step_again inp st st1 t :
  Resolves inp st st1 ->
  map PinToNiagaraVariable (CallerInputPins t) = map PinToNiagaraVariable (CallerInputPins st) ->
  OutputNodes (CallerGraph t) = OutputNodes (CallerGraph st) ->
  TracedOutputPin (CallerGraph t) = TracedOutputPin (CallerGraph st) ->
  (forall i, SlotIndex (CallerInputPins st) inp = Some i ->
             CallerInputPins t !! i = CallerInputPins st1 !! i) ->
  exists d hs e,
    Calls st1 = Calls st ++ d /\ Inputs st1 = Inputs st ++ hs
    /\ bError st1 = (bError st || e)
    /\ Step inp t = Returned (Extend d hs e t).
Proof.
  intros H Hs Ho Ht Hp.
  assert (Hnone : MatchingPin (CallerInputPins st) inp = None ->
                  MatchingPin (CallerInputPins t) inp = None).
  { intros Hm. apply MatchingPin_None_SlotIndex.
    rewrite (SlotIndex_same_slots _ _ inp Hs). apply MatchingPin_None_SlotIndex, Hm. }
  assert (Hsome : forall i p, MatchingPin (CallerInputPins st) inp = Some (i, p) ->
                  forall q, CallerInputPins st1 !! i = Some q ->
                            MatchingPin (CallerInputPins t) inp = Some (i, q)).
  { intros i p Hm q Hq. eapply MatchingPin_again; eauto.
    rewrite Hp; [assumption|]. unfold SlotIndex. rewrite Hm. reflexivity. }
  destruct H as [Hm He|Hm He Hr|Hm He Hr|i p r Hm Htr|i p v u Hm Htr Ha p'
                |i p Hm Htr Ha Hr Hd|i p Hm Htr Ha Hr Hd|i p Hm Htr Ha Hr].
  - exists [Error StaleFunctionCallError None], [INDEX_NONE], true.
    repeat split; simpl; [rewrite orb_true_r; reflexivity|].
    apply Step_Resolves. replace (Extend _ _ _ t)
      with (Inputs_Add INDEX_NONE (SetError (Call (Error StaleFunctionCallError None) t))).
    + apply Resolves_Stale; auto.
    + unfold Extend, Inputs_Add, SetError, Call. simpl. rewrite orb_true_r. reflexivity.
  - exists [GetConstant (Input inp)], [GetConstant_handle Translator (Input inp)], false.
    repeat split; simpl; [rewrite orb_false_r; reflexivity|].
    apply Step_Resolves. replace (Extend _ _ _ t)
      with (Inputs_Add (GetConstant_handle Translator (Input inp))
              (Call (GetConstant (Input inp)) t)).
    + apply Resolves_Constant; auto.
    + unfold Extend, Inputs_Add, Call. simpl. rewrite orb_false_r. reflexivity.
  - exists [], [INDEX_NONE], false.
    repeat split; simpl; [rewrite app_nil_r; reflexivity|rewrite orb_false_r; reflexivity|].
    apply Step_Resolves. replace (Extend _ _ _ t) with (Inputs_Add INDEX_NONE t).
    + apply Resolves_NoSlot; auto.
    + unfold Extend, Inputs_Add. simpl. rewrite app_nil_r, orb_false_r. reflexivity.
  - exists [CompilePin i p], [CompilePin_handle Translator p], false.
    repeat split; simpl; [rewrite orb_false_r; reflexivity|].
    apply Step_Resolves. replace (Extend _ _ _ t)
      with (Inputs_Add (CompilePin_handle Translator p) (Call (CompilePin i p) t)).
    + apply Resolves_Linked with (r := r).
      * apply (Hsome i p Hm). simpl. apply MatchingPin_lookup in Hm. tauto.
      * rewrite (TraceFirstLink_graph _ (CallerGraph st)); assumption.
    + unfold Extend, Inputs_Add, Call. simpl. rewrite orb_false_r. reflexivity.
  - exists [CompilePin i p'], [CompilePin_handle Translator p'], false.
    repeat split; simpl; [rewrite orb_false_r; reflexivity|].
    apply Step_Resolves. replace (Extend _ _ _ t)
      with (Inputs_Add (CompilePin_handle Translator p') (Call (CompilePin i p') t)).
    + apply Resolves_Linked with (r := NewNodeOutputPin (length (NewObjects (CallerGraph st)))).
      * apply (Hsome i p Hm). simpl. apply list_lookup_insert_eq.
        apply MatchingPin_lookup in Hm as [Hl _]. eapply lookup_lt_Some; eauto.
      * reflexivity.
    + unfold Extend, Inputs_Add, Call. simpl. rewrite orb_false_r. reflexivity.
  - exists [Error (RequiredInputUnboundErrorFmt (GetDisplayName p)) (Some i)], [INDEX_NONE], true.
    repeat split; simpl; [rewrite orb_true_r; reflexivity|].
    apply Step_Resolves. replace (Extend _ _ _ t)
      with (Inputs_Add INDEX_NONE
              (SetError (Call (Error (RequiredInputUnboundErrorFmt (GetDisplayName p)) (Some i)) t))).
    + apply Resolves_Unbound; auto.
      * apply (Hsome i p Hm). simpl. apply MatchingPin_lookup in Hm. tauto.
      * rewrite (TraceFirstLink_graph _ (CallerGraph st)); assumption.
      * rewrite (FindAutoBoundInput_graph _ _ (CallerGraph st)); assumption.
    + unfold Extend, Inputs_Add, SetError, Call. simpl. rewrite orb_true_r. reflexivity.
  - exists [CompilePin i p], [CompilePin_handle Translator p], false.
    repeat split; simpl; [rewrite orb_false_r; reflexivity|].
    apply Step_Resolves. replace (Extend _ _ _ t)
      with (Inputs_Add (CompilePin_handle Translator p) (Call (CompilePin i p) t)).
    + apply Resolves_InlineDefault; auto.
      * apply (Hsome i p Hm). simpl. apply MatchingPin_lookup in Hm. tauto.
      * rewrite (TraceFirstLink_graph _ (CallerGraph st)); assumption.
      * rewrite (FindAutoBoundInput_graph _ _ (CallerGraph st)); assumption.
    + unfold Extend, Inputs_Add, Call. simpl. rewrite orb_false_r. reflexivity.
  - exists [], [INDEX_NONE], false.
    repeat split; simpl; [rewrite app_nil_r; reflexivity|rewrite orb_false_r; reflexivity|].
    apply Step_Resolves. replace (Extend _ _ _ t) with (Inputs_Add INDEX_NONE t).
    + apply Resolves_Optional with (i := i) (p := p); auto.
      * apply (Hsome i p Hm). simpl. apply MatchingPin_lookup in Hm. tauto.
      * rewrite (TraceFirstLink_graph _ (CallerGraph st)); assumption.
      * rewrite (FindAutoBoundInput_graph _ _ (CallerGraph st)); assumption.
    + unfold Extend, Inputs_Add. simpl. rewrite app_nil_r, orb_false_r. reflexivity.
Qed.

Lemma Loop_again l st stF :
  Loop l st = Returned stF ->
  NoDup (map Input l) ->
  forall t,
    CallerInputPins t = CallerInputPins stF ->
    OutputNodes (CallerGraph t) = OutputNodes (CallerGraph st) ->
    TracedOutputPin (CallerGraph t) = TracedOutputPin (CallerGraph st) ->
    exists d hs e,
      Calls stF = Calls st ++ d /\ Inputs stF = Inputs st ++ hs
      /\ bError stF = (bError st || e)
      /\ Loop l t = Returned (Extend d hs e t).
Proof.
  revert st. induction l as [|x l IH]; intros st H Hn t Hp Ho Ht; simpl in H.
  - injection H as <-. exists [], [], false.
    rewrite !app_nil_r, orb_false_r, Extend_nil. auto.
  - apply bindC_Returned in H as (st1 & H1 & H2).
    apply Step_Resolves in H1.
    pose proof (Resolves_Frame _ _ _ H1) as Hf1.
    pose proof (Loop_Frame _ _ _ H2) as Hf2.
    simpl in Hn. apply list.NoDup_cons in Hn as [Hx Hn].
    destruct (Step_again x st st1 t H1) as (d1 & h1 & e1 & Hd1 & Hh1 & He1 & Hs1); auto.
    { rewrite Hp, (frame_slots _ _ Hf2). apply (frame_slots _ _ Hf1). }
    { intros i Hi. rewrite Hp. eapply Loop_other_pins; [eassumption|].
      intros y Hy Hyi. apply Hx.
      rewrite (SlotIndex_same_slots _ _ y (frame_slots _ _ Hf1)) in Hyi.
      rewrite (SlotIndex_inj _ _ _ _ Hi Hyi).
      apply list_elem_of_In, in_map, Hy. }
    destruct (IH st1 H2 Hn (Extend d1 h1 e1 t)) as (d2 & h2 & e2 & Hd2 & Hh2 & He2 & Hs2).
    { exact Hp. }
    { simpl. rewrite Ho. symmetry. apply (frame_outputs _ _ Hf1). }
    { simpl. rewrite Ht. symmetry. apply (frame_traced _ _ Hf1). }
    exists (d1 ++ d2), (h1 ++ h2), (e1 || e2).
    rewrite Hd2, Hd1, Hh2, Hh1, He2, He1, !app_assoc, orb_assoc.
    repeat split. simpl. rewrite Hs1. simpl. rewrite Hs2, Extend_Extend. reflexivity.
Qed.

End LoopProperties.

(** ** Compile *)

Section CompileProperties.

Variable SysConstants : list FNiagaraVariable.
Variable GetUnusedFunctionInputPins : UNiagaraNodeFunctionCall -> list UEdGraphPin.
Variable GetDefaultObject : string -> option (FNiagaraFunctionSignature -> list FText).
Variable Translator : FHlslNiagaraTranslator.

Local Abbreviation Loop := (CompileFunctionInputs SysConstants Translator).
Local Abbreviation Step := (CompileFunctionInput SysConstants Translator).
Local Abbreviation Start := (LoopStart GetUnusedFunctionInputPins).
Local Abbreviation CompileNode :=
  (Compile SysConstants GetUnusedFunctionInputPins GetDefaultObject Translator).
Local Abbreviation AfterLoop := (Niagara.AfterLoop Translator).

Lemma Compile_graph_backed this Script FunctionGraph G Outputs :
  GraphBacked this Script FunctionGraph ->
  CompileNode this G Outputs
  = bindC (Loop (FindInputNodes FunctionGraph) (Start this Script G))
      (fun st => Returned (AfterLoop this Outputs st)).
Proof.
  intros [Hs Hg]. unfold Compile. rewrite Hs, Hg. simpl.
  destruct (Loop _ _) as [|st]; simpl; [reflexivity|].
  unfold AfterLoop, Call. simpl. rewrite <- app_assoc. reflexivity.
Qed.

Lemma AfterLoop_Inputs this Outputs st :
  Result_Inputs (AfterLoop this Outputs st) = Inputs st.
Proof. unfold AfterLoop, Finish. destruct (negb (bError st)); reflexivity. Qed.

Lemma AfterLoop_bError this Outputs st :
  Result_bError (AfterLoop this Outputs st) = bError st.
Proof. unfold AfterLoop, Finish. destruct (negb (bError st)); reflexivity. Qed.

Lemma AfterLoop_Calls_prefix this Outputs st :
  Calls st `prefix_of` Result_Calls (AfterLoop this Outputs st).
Proof.
  unfold AfterLoop, Finish. destruct (negb (bError st)); simpl.
  - rewrite <- app_assoc. eexists; reflexivity.
  - eexists; reflexivity.
Qed.

Lemma AfterLoop_Calls_error this Outputs st :
  bError st = true ->
  Result_Calls (AfterLoop this Outputs st)
  = Calls st ++ [SetStaticSwitchConstants (CallerInputPins st); ExitFunctionCallNode].
Proof. intros H. unfold AfterLoop, Finish. rewrite H. reflexivity. Qed.

Lemma ChecksHold_app pins l1 l2 :
  ChecksHold pins (l1 ++ l2) -> ChecksHold pins l1 /\ ChecksHold pins l2.
Proof.
  intros H. split; intros x Hx; apply H; apply in_or_app; auto.
Qed.

(** The loop, cut at the input at position [k]. *)
Lemma Compile_at this Script FunctionGraph G Outputs k inp :
  GraphBacked this Script FunctionGraph ->
  ChecksHold (InputPins this) (FindInputNodes FunctionGraph) ->
  FindInputNodes FunctionGraph !! k = Some inp ->
  exists st st' stF,
    Loop (take k (FindInputNodes FunctionGraph)) (Start this Script G) = Returned st
    /\ Step inp st = Returned st'
    /\ Loop (drop (S k) (FindInputNodes FunctionGraph)) st' = Returned stF
    /\ CompileNode this G Outputs = Returned (AfterLoop this Outputs stF)
    /\ Frame (Start this Script G) st
    /\ length (Inputs st) = k.
Proof.
  intros Hg Hc Hk.
  rewrite (Compile_graph_backed _ _ _ _ _ Hg).
  pose proof (take_drop_middle _ _ _ Hk) as Hsplit.
  rewrite <- Hsplit in Hc. apply ChecksHold_app in Hc as [Hc1 Hc2].
  destruct (Loop_returns SysConstants Translator _ (Start this Script G) Hc1) as [st Hst].
  pose proof (Loop_Frame _ _ _ _ _ Hst) as Hf.
  assert (Hc2' : ChecksHold (CallerInputPins st) (inp :: drop (S k) (FindInputNodes FunctionGraph))).
  { intros x Hx. rewrite (SlotIndex_same_slots _ _ x (frame_slots _ _ Hf)). apply Hc2, Hx. }
  destruct (Loop_returns SysConstants Translator _ st Hc2') as [stF HstF].
  simpl in HstF. apply bindC_Returned in HstF as (st' & Hst' & HstF).
  exists st, st', stF.
  split; [exact Hst|]. split; [exact Hst'|]. split; [exact HstF|].
  split; [|split; [exact Hf|]].
  - rewrite <- Hsplit at 1. rewrite Loop_app, Hst. simpl. rewrite Hst'. simpl.
    rewrite HstF. reflexivity.
  - apply Loop_Inputs_length in Hst. simpl in Hst. rewrite Hst, length_take.
    apply lookup_lt_Some in Hk. lia.
Qed.

Lemma lookup_middle_entry (l1 l2 : list Z) h k :
  length l1 = k -> (l1 ++ [h] ++ l2) !! k = Some h.
Proof. intros <-. apply list_lookup_middle. reflexivity. Qed.

(** C2.  For a graph-backed call site and a declared input without a
    matching caller slot, [Compile] returns and resolves the input where the
    loop reaches it ([st] to [st']): an exposed input gets the stale call
    site error, the absent marker, and the compile ends with [bError] set;
    an input that is not exposed but marked required gets the constant
    handle of its variable with no error call and [bError] as it was; any
    other input gets the absent marker, with no call at all. *)
Theorem Compile_input_without_slot :
  forall this Script FunctionGraph G Outputs k inp,
    GraphBacked this Script FunctionGraph ->
    ChecksHold (InputPins this) (FindInputNodes FunctionGraph) ->
    FindInputNodes FunctionGraph !! k = Some inp ->
    MatchingPin (InputPins this) inp = None ->
    exists r st st',
      CompileNode this G Outputs = Returned r
      /\ Loop (take k (FindInputNodes FunctionGraph)) (Start this Script G) = Returned st
      /\ Step inp st = Returned st'
      /\ Calls st' `prefix_of` Result_Calls r
      /\ (IsExposed inp = true ->
          Calls st' = Calls st ++ [Error StaleFunctionCallError None]
          /\ bError st' = true /\ Result_bError r = true
          /\ Result_Inputs r !! k = Some INDEX_NONE)
      /\ (IsExposed inp = false -> ExposureOptions_bRequired inp = true ->
          Calls st' = Calls st ++ [GetConstant (Input inp)]
          /\ bError st' = bError st
          /\ Result_Inputs r !! k = Some (GetConstant_handle Translator (Input inp)))
      /\ (IsExposed inp = false -> ExposureOptions_bRequired inp = false ->
          Calls st' = Calls st /\ bError st' = bError st
          /\ Result_Inputs r !! k = Some INDEX_NONE).
Proof.
  intros this Script FG G Outputs k inp Hg Hc Hk Hm.
  destruct (Compile_at _ _ _ G Outputs _ _ Hg Hc Hk)
    as (st & st' & stF & Hst & Hst' & HstF & Hr & Hf & Hlen).
  exists (AfterLoop this Outputs stF), st, st'. repeat (split; [assumption|]).
  pose proof (Loop_Calls _ _ _ _ _ HstF) as (d & Hd & _ & _ & He).
  pose proof (Loop_entries _ _ _ _ _ HstF) as (hs & Hhs & _).
  assert (Hm' : MatchingPin (CallerInputPins st) inp = None).
  { apply MatchingPin_None_SlotIndex.
    rewrite (SlotIndex_same_slots _ _ inp (frame_slots _ _ Hf)).
    apply MatchingPin_None_SlotIndex. exact Hm. }
  rewrite AfterLoop_Inputs, AfterLoop_bError, Hhs.
  split.
  { etransitivity; [|apply AfterLoop_Calls_prefix]. rewrite Hd. eexists; reflexivity. }
  apply Step_Resolves in Hst'.
  destruct Hst' as [_ He'|_ He' Hr'|_ He' Hr'|i p r' Hm2|i p v u Hm2|i p Hm2|i p Hm2|i p Hm2];
    try congruence; simpl in *.
  - split; [|split]; [intros _|intros; congruence|intros; congruence].
    repeat split; auto. rewrite <- app_assoc. apply lookup_middle_entry; assumption.
  - split; [|split]; [intros; congruence|intros _ _|intros; congruence].
    repeat split; auto. rewrite <- app_assoc. apply lookup_middle_entry; assumption.
  - split; [|split]; [intros; congruence|intros; congruence|intros _ _].
    repeat split; auto. rewrite <- app_assoc. apply lookup_middle_entry; assumption.
Qed.

Lemma NoDup_Input_others (nodes : list UNiagaraNodeInput) k inp :
  NoDup (map Input nodes) -> nodes !! k = Some inp ->
  forall x, In x (take k nodes) \/ In x (drop (S k) nodes) -> Input x <> Input inp.
Proof.
  intros Hn Hk x Hx He.
  rewrite <- (take_drop_middle _ _ _ Hk), map_app in Hn. simpl in Hn.
  apply list.NoDup_app in Hn as (_ & Hn1 & Hn2). apply list.NoDup_cons in Hn2 as [Hn2 _].
  destruct Hx as [Hx|Hx].
  - apply (Hn1 (Input x)).
    + apply list_elem_of_In, in_map, Hx.
    + rewrite He. apply elem_of_cons. left. reflexivity.
  - apply Hn2. rewrite <- He. apply list_elem_of_In, in_map, Hx.
Qed.

Lemma filter_UnboundErrorFor_Start this Script G i :
  List.filter (UnboundErrorFor i) (Calls (Start this Script G)) = [].
Proof. unfold LoopStart. simpl. destruct (_ && _); reflexivity. Qed.

Lemma Loop_cut l k inp st0 st st' stF :
  l !! k = Some inp ->
  Loop (take k l) st0 = Returned st -> Step inp st = Returned st' ->
  Loop (drop (S k) l) st' = Returned stF ->
  Loop l st0 = Returned stF.
Proof.
  intros Hk Hst Hst' HstF.
  rewrite <- (take_drop_middle _ _ _ Hk), Loop_app, Hst. simpl. rewrite Hst'. exact HstF.
Qed.

(** Once the flag is set, it stays set for the rest of the loop. *)
Lemma Loop_take_bError l st0 k j inp st st' stJ :
  l !! k = Some inp -> k < j ->
  Loop (take k l) st0 = Returned st ->
  Step inp st = Returned st' -> bError st' = true ->
  Loop (take j l) st0 = Returned stJ ->
  bError stJ = true.
Proof.
  intros Hk Hlt Hst Hst' He HJ.
  assert (Hsplit : take j l = take k l ++ inp :: drop (S k) (take j l)).
  { rewrite <- (take_drop (S k) (take j l)) at 1.
    rewrite take_take, Nat.min_l by lia.
    rewrite (take_S_r _ _ _ Hk), <- app_assoc. reflexivity. }
  rewrite Hsplit, Loop_app, Hst in HJ. simpl in HJ. rewrite Hst' in HJ. simpl in HJ.
  apply Loop_Calls in HJ as (d & _ & _ & _ & Hb). auto.
Qed.

(** C1.  For a graph-backed call site whose declared inputs are free of
    duplicates, and a declared input that has a matching caller slot with
    no upstream link and no auto-bind candidate, is required, and whose slot
    forbids an inline default: [Compile] returns, exactly one "required
    input unbound" error names that slot, [bError] is set and the entry of
    the input is the absent marker.  The loop does not stop there: every
    declared input, those after the unbound one included, is resolved by
    one round of the loop, along the path of the loop body that its slot,
    its links and its flags select, in the state that the rounds before it
    have left (with [bError] set once the unbound input has been met); the
    calls of that round are among the calls of the compile and the entry it
    adds is the entry of the input in [Inputs]. *)
Theorem Compile_required_input_unbound :
  forall this Script FunctionGraph G Outputs k inp i p,
    GraphBacked this Script FunctionGraph ->
    NoDup (map Input (FindInputNodes FunctionGraph)) ->
    ChecksHold (InputPins this) (FindInputNodes FunctionGraph) ->
    FindInputNodes FunctionGraph !! k = Some inp ->
    MatchingPin (InputPins this) inp = Some (i, p) ->
    TraceFirstLink G p = None ->
    FindAutoBoundInput SysConstants G inp p = Returned None ->
    IsRequired inp = true ->
    bDefaultValueIsIgnored p = true ->
    exists r,
      CompileNode this G Outputs = Returned r
      /\ List.filter (UnboundErrorFor i) (Result_Calls r)
         = [Error (RequiredInputUnboundErrorFmt (GetDisplayName p)) (Some i)]
      /\ Result_bError r = true
      /\ Result_Inputs r !! k = Some INDEX_NONE
      /\ Forall2 (EntryFor Translator) (FindInputNodes FunctionGraph) (Result_Inputs r)
      /\ (forall j x,
            FindInputNodes FunctionGraph !! j = Some x ->
            exists st st' h,
              Loop (take j (FindInputNodes FunctionGraph)) (Start this Script G) = Returned st
              /\ Resolves SysConstants Translator x st st'
              /\ (k < j -> bError st = true)
              /\ Calls st' `prefix_of` Result_Calls r
              /\ Inputs st' = Inputs st ++ [h]
              /\ length (Inputs st) = j
              /\ Result_Inputs r !! j = Some h).
Proof.
  intros this Script FG G Outputs k inp i p Hg Hn Hc Hk Hm Ht Ha Hr Hd.
  destruct (Compile_at _ _ _ G Outputs _ _ Hg Hc Hk)
    as (st & st' & stF & Hst & Hst' & HstF & Hres & Hf & Hlen).
  pose proof (Loop_cut _ _ _ _ _ _ _ Hk Hst Hst' HstF) as Hfull.
  exists (AfterLoop this Outputs stF). split; [exact Hres|].
  assert (Hslot : SlotIndex (InputPins this) inp = Some i).
  { unfold SlotIndex. rewrite Hm. reflexivity. }
  assert (Hothers : forall x,
             In x (take k (FindInputNodes FG)) \/ In x (drop (S k) (FindInputNodes FG)) ->
             SlotIndex (InputPins this) x <> Some i).
  { intros x Hx Hxi. eapply NoDup_Input_others; eauto. eapply SlotIndex_inj; eauto. }
  (* the slot is as it was when the loop reaches the input *)
  assert (Hp : CallerInputPins st !! i = Some p).
  { rewrite (Loop_other_pins _ _ _ _ _ _ Hst); [apply MatchingPin_lookup in Hm; tauto|].
    intros x Hx. apply Hothers. left. assumption. }
  assert (Hm' : MatchingPin (CallerInputPins st) inp = Some (i, p)).
  { pose proof (SlotIndex_same_slots _ _ inp (frame_slots _ _ Hf)) as Hs.
    simpl in Hs. rewrite Hslot in Hs.
    apply MatchingPin_SlotIndex in Hs as [p' Hp'].
    pose proof (MatchingPin_lookup _ _ _ _ Hp') as [Hl _]. congruence. }
  assert (Hstep : Resolves SysConstants Translator inp st
                    (Inputs_Add INDEX_NONE
                       (SetError
                          (Call (Error (RequiredInputUnboundErrorFmt (GetDisplayName p)) (Some i))
                             st)))).
  { apply Resolves_Unbound; auto.
    - rewrite (TraceFirstLink_graph _ G); [assumption | apply (frame_traced _ _ Hf)].
    - rewrite (FindAutoBoundInput_graph _ _ G); [assumption | apply (frame_outputs _ _ Hf)]. }
  apply Step_Resolves in Hstep. rewrite Hstep in Hst'. injection Hst' as <-.
  pose proof (Loop_Calls _ _ _ _ _ Hst) as (d1 & Hd1 & Hf1 & _ & _).
  pose proof (Loop_Calls _ _ _ _ _ HstF) as (d2 & Hd2 & Hf2 & _ & He2).
  pose proof (Loop_entries _ _ _ _ _ HstF) as (hs & Hhs & _).
  simpl in Hd2, He2, Hhs.
  assert (HbF : bError stF = true) by auto.
  rewrite AfterLoop_Calls_error, AfterLoop_bError, AfterLoop_Inputs by assumption.
  split; [|split; [assumption|split; [|split]]].
  - rewrite Hd2, Hd1, !List.filter_app, filter_UnboundErrorFor_Start, Hf1, Hf2.
    + simpl. rewrite bool_decide_eq_true_2 by reflexivity. reflexivity.
    + intros x Hx. simpl.
      rewrite (SlotIndex_same_slots _ _ x (frame_slots _ _ Hf)).
      apply Hothers. right. assumption.
    + intros x Hx. apply Hothers. left. assumption.
  - rewrite Hhs, <- app_assoc. apply lookup_middle_entry. assumption.
  - rewrite (Compile_graph_backed _ _ _ _ _ Hg) in Hres.
    apply bindC_Returned in Hres as (stL & HstL & Hres). injection Hres as Hres.
    apply Loop_entries in HstL as (hs' & Hhs' & Hall). simpl in Hhs'.
    rewrite <- (AfterLoop_Inputs this Outputs stF), <- Hres, AfterLoop_Inputs, Hhs'.
    exact Hall.
  - intros j x Hj.
    destruct (Compile_at _ _ _ G Outputs _ _ Hg Hc Hj)
      as (sj & sj' & sF & Hsj & Hsj' & HsF & _ & _ & Hlenj).
    pose proof (Loop_cut _ _ _ _ _ _ _ Hj Hsj Hsj' HsF) as Hfullj.
    assert (HF : sF = stF) by congruence. subst sF.
    pose proof (Loop_Calls _ _ _ _ _ HsF) as (dj & Hdj & _).
    pose proof (Loop_entries _ _ _ _ _ HsF) as (hj & Hhj & _).
    pose proof Hsj' as Hrj. apply Step_Resolves in Hrj.
    destruct (Resolves_Inputs _ _ _ _ _ Hrj) as [h Hh].
    exists sj, sj', h. split; [exact Hsj|]. split; [exact Hrj|].
    split; [|split; [|split; [exact Hh|split; [exact Hlenj|]]]].
    + intros Hlt. apply (Loop_take_bError _ _ _ _ _ _ _ _ Hk Hlt Hst Hstep eq_refl Hsj).
    + rewrite Hdj, <- app_assoc. eexists; reflexivity.
    + rewrite Hhj, Hh, <- app_assoc. apply lookup_middle_entry. exact Hlenj.
Qed.

(** C10.  For a graph-backed call site, [Compile] returns whenever the
    assertion of [FindAutoBoundInput] holds for the declared inputs, and
    whenever it returns, the [Inputs] array has exactly one entry per input
    node of [FindInputNodes], in that order: the absent marker, the constant
    handle of the input, or the compiled handle of a pin that stands for
    the input.  This holds on every path, the error paths included. *)
Theorem Compile_one_entry_per_input :
  forall this Script FunctionGraph G Outputs,
    GraphBacked this Script FunctionGraph ->
    (ChecksHold (InputPins this) (FindInputNodes FunctionGraph) ->
     exists r, CompileNode this G Outputs = Returned r)
    /\ (forall r, CompileNode this G Outputs = Returned r ->
        Forall2 (EntryFor Translator) (FindInputNodes FunctionGraph) (Result_Inputs r)).
Proof.
  intros this Script FG G Outputs Hg.
  rewrite (Compile_graph_backed _ _ _ _ _ Hg). split.
  - intros Hc.
    destruct (Loop_returns SysConstants Translator (FindInputNodes FG) (Start this Script G))
      as [st Hst]; [exact Hc|].
    rewrite Hst. simpl. eauto.
  - intros r Hr. apply bindC_Returned in Hr as (st & Hst & Hr). injection Hr as <-.
    rewrite AfterLoop_Inputs.
    apply Loop_entries in Hst as (hs & Hhs & Hf). simpl in Hhs. rewrite Hhs. exact Hf.
Qed.

Lemma GraphBacked_SetInputPins this Script FunctionGraph pins :
  GraphBacked this Script FunctionGraph ->
  GraphBacked (SetInputPins pins this) Script FunctionGraph.
Proof. intros [H1 H2]. split; assumption. Qed.

(** C4.  For a graph-backed call site whose declared inputs are free of
    duplicates, a compile followed by a second compile of what the first
    has left (no edit between) both return, and the second leaves the node
    with its links and the caller graph with its new nodes exactly as the
    first has left them (no second input node, no second link), fills
    [Inputs] with the same entries, ends with the same [bError] and
    [Outputs], and makes the same calls on the translator after entering
    the call. *)
Theorem Compile_twice :
  forall this Script FunctionGraph G Outputs,
    GraphBacked this Script FunctionGraph ->
    NoDup (map Input (FindInputNodes FunctionGraph)) ->
    ChecksHold (InputPins this) (FindInputNodes FunctionGraph) ->
    exists r1 r2,
      CompileNode this G Outputs = Returned r1
      /\ CompileNode (Result_Node r1) (Result_Graph r1) Outputs = Returned r2
      /\ Result_Node r2 = Result_Node r1
      /\ Result_Graph r2 = Result_Graph r1
      /\ Result_Inputs r2 = Result_Inputs r1
      /\ Result_bError r2 = Result_bError r1
      /\ Result_Outputs r2 = Result_Outputs r1
      /\ List.filter NotEnter (Result_Calls r2) = List.filter NotEnter (Result_Calls r1).
Proof.
  intros this Script FG G Outputs Hg Hn Hc.
  destruct (Loop_returns SysConstants Translator (FindInputNodes FG) (Start this Script G) Hc)
    as [stF HstF].
  set (this2 := SetInputPins (CallerInputPins stF) this).
  destruct (Loop_again _ _ _ _ _ HstF Hn (Start this2 Script (CallerGraph stF)))
    as (d & hs & e & Hd & Hh & He & Hs2).
  { reflexivity. }
  { simpl. apply (frame_outputs _ _ (Loop_Frame _ _ _ _ _ HstF)). }
  { simpl. apply (frame_traced _ _ (Loop_Frame _ _ _ _ _ HstF)). }
  assert (Hnode : forall st, Result_Node (AfterLoop this Outputs st)
                             = SetInputPins (CallerInputPins st) this).
  { intros st. unfold AfterLoop, Finish. destruct (negb (bError st)); reflexivity. }
  assert (Hgraph : forall st, Result_Graph (AfterLoop this Outputs st) = CallerGraph st).
  { intros st. unfold AfterLoop, Finish. destruct (negb (bError st)); reflexivity. }
  exists (AfterLoop this Outputs stF),
         (AfterLoop this2 Outputs (Extend d hs e (Start this2 Script (CallerGraph stF)))).
  split; [rewrite (Compile_graph_backed _ _ _ _ _ Hg), HstF; reflexivity|].
  split.
  { rewrite Hnode, Hgraph. fold this2.
    rewrite (Compile_graph_backed this2 Script FG); [|apply GraphBacked_SetInputPins, Hg].
    rewrite Hs2. reflexivity. }
  simpl in Hd, Hh, He.
  unfold AfterLoop, Finish. simpl. rewrite Hh, He.
  destruct e; simpl.
  - repeat split. rewrite Hd, !List.filter_app. simpl.
    destruct (bDeprecated Script && IsNodeEnabled this); reflexivity.
  - repeat split. rewrite Hd, !List.filter_app. simpl.
    destruct (bDeprecated Script && IsNodeEnabled this); reflexivity.
Qed.

(** C8.  A call site with neither a function script nor a valid signature
    compiles to the "unknown function call" error, and to nothing else: no
    [FunctionCall] is emitted and [Outputs] is left as it was. *)
Theorem Compile_unresolved_callable :
  forall this G Outputs,
    FunctionScript this = None ->
    Signature_IsValid (Signature this) = false ->
    exists r,
      CompileNode this G Outputs = Returned r
      /\ Result_Calls r = [Error (UnknownFunction (GetFunctionName this)) None]
      /\ (forall inputs, ~ In (FunctionCall inputs) (Result_Calls r))
      /\ Result_bError r = true
      /\ Result_Outputs r = Outputs.
Proof.
  intros this G Outputs Hs Hv. unfold Compile. rewrite Hs, Hv.
  eexists. split; [reflexivity|]. simpl. repeat split.
  intros inputs [H|[]]. discriminate.
Qed.

End CompileProperties.

(** ** BuildParameterMapHistory *)

Lemma MatchingOutputPins_spec pins v k i :
  In i (MatchingOutputPins k pins v) <->
  exists j p, i = k + j /\ pins !! j = Some p
              /\ IsEquivalent (PinToNiagaraVariable p) v = true.
Proof.
  revert k. induction pins as [|q pins IH]; intros k; simpl.
  - split; [contradiction|]. intros (j & p & _ & H & _). discriminate.
  - destruct (IsEquivalent (PinToNiagaraVariable q) v) eqn:Hq; simpl; rewrite IH; split.
    + intros [<-|(j & p & -> & Hl & He)].
      * exists 0, q. repeat split; auto; lia.
      * exists (S j), p. repeat split; auto; lia.
    + intros ([|j] & p & -> & Hl & He); simpl in Hl.
      * left. lia.
      * right. exists j, p. repeat split; auto; lia.
    + intros (j & p & -> & Hl & He). exists (S j), p. repeat split; auto; lia.
    + intros ([|j] & p & -> & Hl & He); simpl in Hl.
      * injection Hl as <-. congruence.
      * exists j, p. repeat split; auto; lia.
Qed.

(** C9.  For an enabled call site (or a traversal that keeps disabled
    nodes) with a function graph that has an output node, the calls on the
    history builder end with [ExitFunction] followed by one
    [RegisterParameterMapPin] per matched pair; before [ExitFunction] the
    scope is entered and nothing is registered.  The matched pairs are the
    linked parameter-map pins of the callee's output node, each with every
    output pin of the call site that is equivalent to it by name and type. *)
Theorem BuildParameterMapHistory_registers_after_exit :
  forall OutHistory this G bRecursive bFilterForCompilation Script FunctionGraph OutputNode,
    (IsNodeEnabled this = true \/ GetIgnoreDisabled OutHistory = false) ->
    GraphBacked this Script FunctionGraph ->
    FindCalleeOutputNode FunctionGraph = Some OutputNode ->
    exists before,
      BuildParameterMapHistory OutHistory this G bRecursive bFilterForCompilation
      = Returned
          (before ++ ExitFunction (GetFunctionName this)
             :: map (fun Pair =>
                       RegisterParameterMapPin
                         (TraceParameterMapOutputPin_result OutHistory (snd Pair)) (fst Pair))
                  (MatchedPairs this FunctionGraph OutputNode))
      /\ In (EnterFunction (GetFunctionName this)) before
      /\ (forall Name, ~ In (ExitFunction Name) before)
      /\ (forall ParamMapIdx OutputPin,
            ~ In (RegisterParameterMapPin ParamMapIdx OutputPin) before)
      /\ (forall i traced,
            In (i, traced) (MatchedPairs this FunctionGraph OutputNode) <->
            exists ChildOutputNodePin OutputPin,
              In ChildOutputNodePin (GetAllPins OutputNode)
              /\ LinkedTo ChildOutputNodePin <> []
              /\ PinType ChildOutputNodePin = GetParameterMapDef
              /\ OutputPins this !! i = Some OutputPin
              /\ IsEquivalent (PinToNiagaraVariable OutputPin)
                   (PinToNiagaraVariable ChildOutputNodePin) = true
              /\ traced = TraceFirstLink FunctionGraph ChildOutputNodePin).
Proof.
  intros OutHistory this G bRecursive bFilter Script FG OutputNode Hen [Hs Hg] Ho.
  unfold BuildParameterMapHistory.
  assert (Hdis : negb (IsNodeEnabled this) && GetIgnoreDisabled OutHistory = false).
  { destruct Hen as [-> | ->]; [reflexivity | apply andb_false_r]. }
  rewrite Hdis, Hs, Hg. simpl. rewrite Ho.
  set (Pairs := MatchedPairs this FG OutputNode).
  set (traced := match InputPins this with
                 | [] => None
                 | CandidateParamMapPin :: _ => _
                 end).
  set (ParamMapIdx := match traced with
                      | Some pin => TraceParameterMapOutputPin_result OutHistory pin
                      | None => INDEX_NONE
                      end).
  set (visiting := negb (ParamMapIdx =? INDEX_NONE)%Z).
  set (NodeIdx := if visiting then BeginNodeVisitation_result OutHistory ParamMapIdx
                  else 4294967295%Z).
  set (c1 := match traced with
             | Some pin => [TraceParameterMapOutputPin pin]
             | None => []
             end).
  set (c2 := if visiting then [BeginNodeVisitation ParamMapIdx] else []).
  set (c3 := map (fun Pair : nat * option PinRef => TraceParameterMapOutputPin (snd Pair)) Pairs).
  set (c4 := if visiting then [EndNodeVisitation ParamMapIdx NodeIdx] else []).
  exists ([Super_BuildParameterMapHistory bRecursive bFilter;
           Builder_SetStaticSwitchConstants (InputPins this)]
          ++ c1 ++ [EnterFunction (GetFunctionName this)] ++ c2
          ++ [OutputNode_BuildParameterMapHistory OutputNode true bFilter] ++ c3 ++ c4).
  split.
  { f_equal. rewrite <- ?app_assoc. simpl. rewrite <- ?app_assoc. reflexivity. }
  assert (H1 : forall c, In c c1 -> exists pin, c = TraceParameterMapOutputPin pin).
  { intros c Hc. unfold c1 in Hc. destruct traced; simpl in Hc; [|contradiction].
    destruct Hc as [<-|[]]. eauto. }
  assert (H2 : forall c, In c c2 -> c = BeginNodeVisitation ParamMapIdx).
  { intros c Hc. unfold c2 in Hc. destruct visiting; simpl in Hc; [|contradiction].
    destruct Hc as [<-|[]]. reflexivity. }
  assert (H3 : forall c, In c c3 -> exists pin, c = TraceParameterMapOutputPin pin).
  { intros c Hc. apply in_map_iff in Hc as (x & <- & _). eauto. }
  assert (H4 : forall c, In c c4 -> c = EndNodeVisitation ParamMapIdx NodeIdx).
  { intros c Hc. unfold c4 in Hc. destruct visiting; simpl in Hc; [|contradiction].
    destruct Hc as [<-|[]]. reflexivity. }
  assert (Hbefore : forall c,
             In c ([Super_BuildParameterMapHistory bRecursive bFilter;
                    Builder_SetStaticSwitchConstants (InputPins this)]
                   ++ c1 ++ [EnterFunction (GetFunctionName this)] ++ c2
                   ++ [OutputNode_BuildParameterMapHistory OutputNode true bFilter]
                   ++ c3 ++ c4) ->
             (forall Name, c <> ExitFunction Name)
             /\ (forall idx pin, c <> RegisterParameterMapPin idx pin)).
  { intros c Hc. simpl in Hc. destruct Hc as [<-|[<-|Hc]]; [split; discriminate..|].
    apply in_app_or in Hc as [Hc|Hc]; [apply H1 in Hc as [? ->]; split; discriminate|].
    simpl in Hc. destruct Hc as [<-|Hc]; [split; discriminate|].
    apply in_app_or in Hc as [Hc|Hc]; [apply H2 in Hc as ->; split; discriminate|].
    simpl in Hc. destruct Hc as [<-|Hc]; [split; discriminate|].
    apply in_app_or in Hc as [Hc|Hc]; [apply H3 in Hc as [? ->]|apply H4 in Hc as ->];
      split; discriminate. }
  split; [|split; [|split]].
  - simpl. right. right. apply in_or_app. right. left. reflexivity.
  - intros Name Hin. apply Hbefore in Hin as [Hin _]. eapply Hin. reflexivity.
  - intros idx pin Hin. apply Hbefore in Hin as [_ Hin]. eapply Hin. reflexivity.
  - intros i tr. unfold Pairs, MatchedPairs. rewrite in_flat_map. split.
    + intros (c & Hc & Hin).
      destruct (0 <? length (LinkedTo c))%nat eqn:Hl; simpl in Hin; [|contradiction].
      case_bool_decide as Ht; simpl in Hin; [|contradiction].
      apply in_map_iff in Hin as (j & [= <- <-] & Hj).
      apply MatchingOutputPins_spec in Hj as (k & p & -> & Hk & He).
      exists c, p. repeat split; auto.
      intros Hnil. rewrite Hnil in Hl. discriminate.
    + intros (c & p & Hc & Hl & Ht & Hi & He & ->).
      exists c. split; [assumption|].
      destruct (LinkedTo c) as [|r rest] eqn:Hlc; [congruence|]. simpl.
      rewrite bool_decide_eq_true_2 by exact Ht. simpl.
      apply in_map_iff. exists i. split.
      * unfold TraceFirstLink. rewrite Hlc. reflexivity.
      * apply MatchingOutputPins_spec. exists i, p. repeat split; auto.
Qed.

(** ** CanAddToGraph *)

Section CompositionProperties.

Variable Super_CanAddToGraph :
  UNiagaraNodeFunctionCall -> UNiagaraGraph -> FText -> bool * FText.
Variable GetAssetByObjectPath : FName -> option (option UNiagaraScript).

(** The rejection, read off the list that [GetAllReferencedGraphs] gives. *)
Lemma CanAddToGraph_rejects_listed this TargetGraph ErrorMsg0 Package :
  GetOutermost TargetGraph = Some Package ->
  In (Some Package) (FunctionGraphs GetAssetByObjectPath this) ->
  let r := CanAddToGraph Super_CanAddToGraph GetAssetByObjectPath this TargetGraph ErrorMsg0 in
  CanAdd r = false
  /\ TargetGraph_after r = TargetGraph
  /\ (fst (Super_CanAddToGraph this TargetGraph ErrorMsg0) = true ->
      OutErrorMsg r = NiagaraFuncCallCannotAddToGraph)
  /\ (fst (Super_CanAddToGraph this TargetGraph ErrorMsg0) = false ->
      OutErrorMsg r = snd (Super_CanAddToGraph this TargetGraph ErrorMsg0)).
Proof.
  intros Hp Hin. unfold CanAddToGraph.
  destruct (Super_CanAddToGraph this TargetGraph ErrorMsg0) as [ok msg]. simpl.
  assert (He : existsb (fun FunctionPackage =>
                          SamePackage FunctionPackage (GetOutermost TargetGraph))
                 (FunctionGraphs GetAssetByObjectPath this) = true).
  { apply existsb_exists. exists (Some Package). split; [assumption|].
    rewrite Hp. simpl. apply bool_decide_eq_true_2. reflexivity. }
  destruct ok; simpl.
  - rewrite He. simpl. repeat split; auto. discriminate.
  - repeat split; auto. discriminate.
Qed.

(** C5.  Let the script that the node is about to spawn (its own, or the
    one that the asset registry gives for its path) have a graph, and let
    [GetAllReferencedGraphs] collect for that graph the graphs that it
    references transitively, itself included.  Whenever the package of the
    target graph is the package of one of these graphs (the callee's own
    graph, or any graph reached from it through call sites),
    [CanAddToGraph] returns false and leaves the target graph as it is: the
    function only reads its package.  The message is the cycle diagnostic
    whenever the check of the base class has let the node through; when
    the base class refuses, the node is rejected with the message of the
    base class. *)
Theorem CanAddToGraph_rejects_cycle :
  forall CalledGraphs this TargetGraph ErrorMsg0 Script FunctionGraph Referenced Package,
    SpawningFunctionScript GetAssetByObjectPath this = Some Script ->
    GetSource Script = Some (Some {| NodeGraph := Some FunctionGraph |}) ->
    CollectsReferencedGraphs CalledGraphs FunctionGraph ->
    TransitivelyReferenced CalledGraphs FunctionGraph Referenced ->
    GetOutermost Referenced = Some Package ->
    GetOutermost TargetGraph = Some Package ->
    let r := CanAddToGraph Super_CanAddToGraph GetAssetByObjectPath this TargetGraph ErrorMsg0 in
    CanAdd r = false
    /\ TargetGraph_after r = TargetGraph
    /\ (fst (Super_CanAddToGraph this TargetGraph ErrorMsg0) = true ->
        OutErrorMsg r = NiagaraFuncCallCannotAddToGraph)
    /\ (fst (Super_CanAddToGraph this TargetGraph ErrorMsg0) = false ->
        OutErrorMsg r = snd (Super_CanAddToGraph this TargetGraph ErrorMsg0)).
Proof.
  intros CalledGraphs this Target msg0 Script FG Referenced Package Hs Hg Hcollects Href Hp Ht.
  apply (CanAddToGraph_rejects_listed this Target msg0 Package Ht).
  unfold FunctionGraphs. rewrite Hs, Hg. simpl.
  rewrite <- Hp. apply Hcollects, Href.
Qed.

End CompositionProperties.

(** ** GatherExternalDependencyData *)

Lemma Append_nil_r refs : Append refs ([], []) = refs.
Proof. destruct refs. unfold Append. simpl. rewrite !app_nil_r. reflexivity. Qed.

Lemma Append_nil_l refs : Append ([], []) refs = refs.
Proof. destruct refs. reflexivity. Qed.

Lemma Append_assoc a b c : Append (Append a b) c = Append a (Append b c).
Proof. unfold Append. simpl. rewrite !app_assoc. reflexivity. Qed.









(** ** RefreshFromExternalChanges *)

Lemma CleanupLoop_filter this CalledGraph l :
  GetCalledGraph this = Returned (Some CalledGraph) ->
  CleanupLoop this l = Returned (List.filter (StillValid CalledGraph) l).
Proof.
  intros Hg. induction l as [|x l IH]; simpl; [reflexivity|].
  rewrite IH. simpl. unfold StillValid, IsValidPropagatedVariable. rewrite Hg. simpl.
  destruct (IsNone (GetName (SwitchParameter x))); simpl; [reflexivity|].
  destruct (existsb _ _); reflexivity.
Qed.

(** The pin at position [j] after the inner loop for one name. *)
Lemma SetFirstPinNamed_lookup Name flag pins j :
  SetFirstPinNamed Name flag pins !! j
  = (fun p => if IsEqual Name (PinName p)
                 && forallb (fun m => negb (IsEqual Name m)) (take j (map PinName pins))
              then SetDefaultValueIsIgnored flag p else p) <$> pins !! j.
Proof.
  revert j. induction pins as [|q pins IH]; intros j; simpl; [destruct j; reflexivity|].
  unfold GetFName. destruct (IsEqual Name (PinName q)) eqn:Hq.
  - destruct j as [|j]; simpl; [rewrite Hq; reflexivity|].
    rewrite Hq. simpl.
    destruct (pins !! j); simpl; [rewrite andb_false_r|]; reflexivity.
  - destruct j as [|j]; simpl; [rewrite Hq; reflexivity|].
    rewrite Hq. simpl. apply IH.
Qed.

Lemma SetFirstPinNamed_names Name flag pins :
  map PinName (SetFirstPinNamed Name flag pins) = map PinName pins.
Proof.
  induction pins as [|q pins IH]; simpl; [reflexivity|].
  destruct (IsEqual Name (GetFName q)); simpl; [reflexivity|]. rewrite IH. reflexivity.
Qed.

(** The pin at position [j] after the outer loop: the switches that hit
    the pin set its flag in turn. *)
Lemma SetPropagationStatus_lookup (flagof : FNiagaraVariable -> bool) switches :
  forall pins j p m names,
    pins !! j = Some p -> PinName p = m -> map PinName pins = names ->
    fold_left (fun pins InputVar => SetFirstPinNamed (GetName InputVar) (flagof InputVar) pins)
      switches pins !! j
    = Some (fold_left
              (fun p InputVar =>
                 if IsEqual (GetName InputVar) m
                    && forallb (fun m' => negb (IsEqual (GetName InputVar) m')) (take j names)
                 then SetDefaultValueIsIgnored (flagof InputVar) p else p)
              switches p).
Proof.
  induction switches as [|V switches IH]; intros pins j p m names Hp Hm Hn; simpl;
    [assumption|].
  apply (IH _ j (if IsEqual (GetName V) m
                    && forallb (fun m' => negb (IsEqual (GetName V) m')) (take j names)
                 then SetDefaultValueIsIgnored (flagof V) p else p) m names).
  - rewrite SetFirstPinNamed_lookup, Hp. simpl. rewrite Hm, Hn. reflexivity.
  - destruct (_ && _); simpl; assumption.
  - rewrite SetFirstPinNamed_names. assumption.
Qed.

Lemma forallb_take_names (f : FName -> bool) (pins : list UEdGraphPin) j :
  (forall k q, k < j -> pins !! k = Some q -> f (PinName q) = true) ->
  forallb f (take j (map PinName pins)) = true.
Proof.
  revert j. induction pins as [|q pins IH]; intros [|j] H; simpl; try reflexivity.
  rewrite (H 0 q) by (simpl; auto; lia). simpl.
  apply IH. intros k r Hk Hr. apply (H (S k) r); [lia | assumption].
Qed.


Lemma UpdateNodeErrorMessage_frame this :
  FunctionScript (UpdateNodeErrorMessage this) = FunctionScript this
  /\ InputPins (UpdateNodeErrorMessage this) = InputPins this
  /\ PropagatedStaticSwitchParameters (UpdateNodeErrorMessage this)
     = PropagatedStaticSwitchParameters this
  /\ forall l, Messages (UpdateNodeErrorMessage (SetPropagated l this))
               = Messages (UpdateNodeErrorMessage this).
Proof.
  unfold UpdateNodeErrorMessage, Messages. simpl.
  destruct (FunctionScript this) as [Script|] eqn:Hs.
  - destruct (bDeprecated Script); [|destruct (bExperimental Script)]; simpl;
      repeat split; intros; (reflexivity || congruence).
  - destruct (Signature_IsValid (Signature this)); simpl;
      [|repeat split; intros; (reflexivity || congruence)].
    destruct (bSoftDeprecatedFunction (Signature this));
      [|destruct (Signature_bExperimental (Signature this))]; simpl;
      repeat split; intros; (reflexivity || congruence).
Qed.

Lemma find_filter_Some {A} (f g : A -> bool) l :
  List.find f (List.filter g l) <> None <-> exists x, In x l /\ f x = true /\ g x = true.
Proof.
  induction l as [|a l IH]; simpl.
  - split; [congruence|]. intros (x & [] & _).
  - destruct (g a) eqn:Hg; simpl.
    + destruct (f a) eqn:Hf.
      * split; [intros _; exists a; auto | discriminate].
      * rewrite IH. split; intros (x & Hx & H1 & H2).
        -- exists x. auto.
        -- destruct Hx as [<-|Hx]; [congruence|]. exists x. auto.
    + rewrite IH. split; intros (x & Hx & H1 & H2).
      * exists x. auto.
      * destruct Hx as [<-|Hx]; [congruence|]. exists x. auto.
Qed.

Lemma find_Some_iff {A} (f : A -> bool) l :
  List.find f l <> None <-> exists x, In x l /\ f x = true.
Proof.
  induction l as [|a l IH]; simpl.
  - split; [congruence|]. intros (x & [] & _).
  - destruct (f a) eqn:Hf.
    + split; [intros _; exists a; auto | discriminate].
    + rewrite IH. split; intros (x & Hx & H1).
      * exists x. auto.
      * destruct Hx as [<-|Hx]; [congruence|]. exists x. auto.
Qed.




(** ** The properties on the sample call sites *)

Lemma Samples_ChecksHold :
  ChecksHold (InputPins Samples.Site) (FindInputNodes Samples.Callee).
Proof. intros x Hx Hs. simpl in Hx. destruct Hx as [<-|[<-|[<-|[]]]]; auto. Qed.

Lemma Samples_NoDup : NoDup (map Input (FindInputNodes Samples.Callee)).
Proof. apply NoDup_ListNoDup. repeat constructor; simpl; intuition discriminate. Qed.

Lemma Samples_GraphBacked : GraphBacked Samples.Site (Samples.Script Samples.Callee) Samples.Callee.
Proof. split; reflexivity. Qed.

Import Samples.

(** The call site of section 8 in a graph without attributes: [Velocity] is
    required and unbound, [Scale] is optional and absent, [Seed] is a
    constant; no call is emitted. *)
Example Compile_Site_in_PlainGraph :
  exists r,
    Compile [] NoUnusedPins NoDefaultObject Translator Site PlainGraph [] = Returned r
    /\ Result_Inputs r = [INDEX_NONE; INDEX_NONE; 104%Z]
    /\ Result_bError r = true
    /\ NewObjects (Result_Graph r) = []
    /\ Result_Outputs r = [].
Proof. eexists. split; [reflexivity|]. repeat split. Qed.

(** The same call site in a particle graph whose spawn output produces
    [Velocity]: the slot is auto-bound to a new attribute input node, and
    the call is emitted. *)
Example Compile_Site_in_ParticleGraph :
  exists r,
    Compile [] NoUnusedPins NoDefaultObject Translator Site ParticleGraph [] = Returned r
    /\ Result_Inputs r = [8%Z; INDEX_NONE; 104%Z]
    /\ Result_bError r = false
    /\ NewObjects (Result_Graph r) = [{| NewInput := Velocity; NewUsage := Usage_Attribute |}]
    /\ map LinkedTo (InputPins (Result_Node r)) = [[NewNodeOutputPin 0]; []]
    /\ Result_Outputs r = [3%Z].
Proof. eexists. split; [reflexivity|]. repeat split. Qed.

(** Without attribute the registry of system constants is used. *)
Example FindAutoBoundInput_system_constant :
  FindAutoBoundInput [Velocity] PlainGraph VelocityInput VelocityPin
  = Returned (Some (Velocity, Usage_SystemConstant)).
Proof. reflexivity. Qed.

(** An unlinked slot for an input that is not exposed trips the assertion
    of [FindAutoBoundInput]. *)
Example Compile_check_fails :
  Compile [] NoUnusedPins NoDefaultObject Translator
    (CallSite (Some (Script Callee)) [Pin Seed [] true] [] []) PlainGraph []
  = CheckFailed.
Proof. reflexivity. Qed.

Lemma Samples_Grid_GraphBacked : GraphBacked GridSite (Script GridCallee) GridCallee.
Proof. split; reflexivity. Qed.

Lemma Samples_Grid_NoDup : NoDup (map Input (FindInputNodes GridCallee)).
Proof. apply NoDup_ListNoDup. repeat constructor; simpl; intuition discriminate. Qed.

Lemma Samples_Grid_ChecksHold : ChecksHold (InputPins GridSite) (FindInputNodes GridCallee).
Proof.
  intros x Hx Hs. simpl in Hx. destruct Hx as [<-|[<-|[<-|[]]]]; try reflexivity.
  exfalso. apply Hs. reflexivity.
Qed.

(** The required data interface is reported unbound; the linked input
    after it is compiled and the constant after that is fetched all the
    same, and no call is emitted. *)
Example Compile_GridSite_in_PlainGraph :
  exists r,
    Compile [] NoUnusedPins NoDefaultObject Translator GridSite PlainGraph [] = Returned r
    /\ Result_Calls r
       = [EnterFunctionCallNode [];
          Error (RequiredInputUnboundErrorFmt "Grid") (Some 0);
          CompilePin 1 MassPin; GetConstant Seed;
          SetStaticSwitchConstants [GridPin; MassPin]; ExitFunctionCallNode]
    /\ Result_Inputs r = [INDEX_NONE; 4%Z; 104%Z]
    /\ Result_bError r = true.
Proof. eexists. split; [reflexivity|]. repeat split. Qed.

Lemma Compile_required_input_unbound_witness :
  GraphBacked GridSite (Script GridCallee) GridCallee
  /\ NoDup (map Input (FindInputNodes GridCallee))
  /\ ChecksHold (InputPins GridSite) (FindInputNodes GridCallee)
  /\ FindInputNodes GridCallee !! 0 = Some GridInput
  /\ MatchingPin (InputPins GridSite) GridInput = Some (0, GridPin)
  /\ TraceFirstLink PlainGraph GridPin = None
  /\ FindAutoBoundInput [] PlainGraph GridInput GridPin = Returned None
  /\ IsRequired GridInput = true
  /\ bDefaultValueIsIgnored GridPin = true
  /\ exists r,
       Compile [] NoUnusedPins NoDefaultObject Translator GridSite PlainGraph [] = Returned r
       /\ List.filter (UnboundErrorFor 0) (Result_Calls r)
          = [Error (RequiredInputUnboundErrorFmt (GetDisplayName GridPin)) (Some 0)]
       /\ Result_bError r = true
       /\ Result_Inputs r !! 0 = Some INDEX_NONE
       /\ Forall2 (EntryFor Translator) (FindInputNodes GridCallee) (Result_Inputs r)
       /\ (forall j x,
             FindInputNodes GridCallee !! j = Some x ->
             exists st st' h,
               CompileFunctionInputs [] Translator (take j (FindInputNodes GridCallee))
                 (LoopStart NoUnusedPins GridSite (Script GridCallee) PlainGraph) = Returned st
               /\ Resolves [] Translator x st st'
               /\ (0 < j -> bError st = true)
               /\ Calls st' `prefix_of` Result_Calls r
               /\ Inputs st' = Inputs st ++ [h]
               /\ length (Inputs st) = j
               /\ Result_Inputs r !! j = Some h).
Proof.
  split; [exact Samples_Grid_GraphBacked|]. split; [exact Samples_Grid_NoDup|].
  split; [exact Samples_Grid_ChecksHold|]. repeat (split; [reflexivity|]).
  apply (Compile_required_input_unbound [] NoUnusedPins NoDefaultObject Translator
           GridSite (Script GridCallee) GridCallee PlainGraph [] 0 GridInput 0 GridPin);
    first [exact Samples_Grid_GraphBacked | exact Samples_Grid_NoDup
          | exact Samples_Grid_ChecksHold | reflexivity].
Defined.

Lemma Compile_input_without_slot_witness :
  GraphBacked Site (Script Callee) Callee
  /\ ChecksHold (InputPins Site) (FindInputNodes Callee)
  /\ FindInputNodes Callee !! 2 = Some SeedInput
  /\ MatchingPin (InputPins Site) SeedInput = None
  /\ exists r st st',
       Compile [] NoUnusedPins NoDefaultObject Translator Site PlainGraph [] = Returned r
       /\ CompileFunctionInputs [] Translator (take 2 (FindInputNodes Callee))
            (LoopStart NoUnusedPins Site (Script Callee) PlainGraph) = Returned st
       /\ CompileFunctionInput [] Translator SeedInput st = Returned st'
       /\ Calls st' `prefix_of` Result_Calls r
       /\ (IsExposed SeedInput = true ->
           Calls st' = Calls st ++ [Error StaleFunctionCallError None]
           /\ bError st' = true /\ Result_bError r = true
           /\ Result_Inputs r !! 2 = Some INDEX_NONE)
       /\ (IsExposed SeedInput = false -> ExposureOptions_bRequired SeedInput = true ->
           Calls st' = Calls st ++ [GetConstant (Input SeedInput)]
           /\ bError st' = bError st
           /\ Result_Inputs r !! 2 = Some (GetConstant_handle Translator (Input SeedInput)))
       /\ (IsExposed SeedInput = false -> ExposureOptions_bRequired SeedInput = false ->
           Calls st' = Calls st /\ bError st' = bError st
           /\ Result_Inputs r !! 2 = Some INDEX_NONE).
Proof.
  split; [exact Samples_GraphBacked|]. split; [exact Samples_ChecksHold|].
  repeat (split; [reflexivity|]).
  apply (Compile_input_without_slot [] NoUnusedPins NoDefaultObject Translator
           Site (Script Callee) Callee PlainGraph [] 2 SeedInput);
    first [exact Samples_GraphBacked | exact Samples_ChecksHold | reflexivity].
Defined.

Lemma FindAutoBoundInput_prefers_attribute_witness :
  IsExposed VelocityInput = true
  /\ CanAutoBind VelocityInput = true
  /\ LinkedTo VelocityPin = []
  /\ exists r,
       FindAutoBoundInput [Velocity] ParticleGraph VelocityInput VelocityPin = Returned r
       /\ (AttributeMatches ParticleGraph VelocityPin ->
           exists n Attr, r = Some (Attr, Usage_Attribute) /\ EnclosingContract ParticleGraph n
                          /\ In Attr (Outputs n)
                          /\ IsEquivalent (PinToNiagaraVariable VelocityPin) Attr = true)
       /\ (~ AttributeMatches ParticleGraph VelocityPin ->
           In (PinToNiagaraVariable VelocityPin) [Velocity] ->
           r = Some (PinToNiagaraVariable VelocityPin, Usage_SystemConstant))
       /\ (~ AttributeMatches ParticleGraph VelocityPin ->
           ~ In (PinToNiagaraVariable VelocityPin) [Velocity] -> r = None).
Proof.
  repeat (split; [reflexivity|]).
  apply (FindAutoBoundInput_prefers_attribute [Velocity] ParticleGraph VelocityInput VelocityPin);
    reflexivity.
Defined.

Lemma Compile_twice_witness :
  GraphBacked Site (Script Callee) Callee
  /\ NoDup (map Input (FindInputNodes Callee))
  /\ ChecksHold (InputPins Site) (FindInputNodes Callee)
  /\ exists r1 r2,
       Compile [] NoUnusedPins NoDefaultObject Translator Site ParticleGraph [] = Returned r1
       /\ Compile [] NoUnusedPins NoDefaultObject Translator (Result_Node r1) (Result_Graph r1) []
          = Returned r2
       /\ Result_Node r2 = Result_Node r1
       /\ Result_Graph r2 = Result_Graph r1
       /\ Result_Inputs r2 = Result_Inputs r1
       /\ Result_bError r2 = Result_bError r1
       /\ Result_Outputs r2 = Result_Outputs r1
       /\ List.filter NotEnter (Result_Calls r2) = List.filter NotEnter (Result_Calls r1).
Proof.
  split; [exact Samples_GraphBacked|]. split; [exact Samples_NoDup|].
  split; [exact Samples_ChecksHold|].
  apply (Compile_twice [] NoUnusedPins NoDefaultObject Translator
           Site (Script Callee) Callee ParticleGraph []);
    first [exact Samples_GraphBacked | exact Samples_NoDup | exact Samples_ChecksHold].
Defined.

Lemma Compile_one_entry_per_input_witness :
  GraphBacked Site (Script Callee) Callee
  /\ (ChecksHold (InputPins Site) (FindInputNodes Callee) ->
      exists r, Compile [] NoUnusedPins NoDefaultObject Translator Site PlainGraph [] = Returned r)
  /\ (forall r,
        Compile [] NoUnusedPins NoDefaultObject Translator Site PlainGraph [] = Returned r ->
        Forall2 (EntryFor Translator) (FindInputNodes Callee) (Result_Inputs r)).
Proof.
  split; [exact Samples_GraphBacked|].
  apply (Compile_one_entry_per_input [] NoUnusedPins NoDefaultObject Translator
           Site (Script Callee) Callee PlainGraph []).
  exact Samples_GraphBacked.
Defined.

Lemma Compile_unresolved_callable_witness :
  FunctionScript UnresolvedSite = None
  /\ Signature_IsValid (Signature UnresolvedSite) = false
  /\ exists r,
       Compile [] NoUnusedPins NoDefaultObject Translator UnresolvedSite PlainGraph [] = Returned r
       /\ Result_Calls r = [Error (UnknownFunction (GetFunctionName UnresolvedSite)) None]
       /\ (forall inputs, ~ In (FunctionCall inputs) (Result_Calls r))
       /\ Result_bError r = true
       /\ Result_Outputs r = [].
Proof.
  repeat (split; [reflexivity|]).
  apply (Compile_unresolved_callable [] NoUnusedPins NoDefaultObject Translator
           UnresolvedSite PlainGraph []); reflexivity.
Defined.

Lemma BuildParameterMapHistory_registers_after_exit_witness :
  (IsNodeEnabled ModuleSite = true \/ GetIgnoreDisabled Builder = false)
  /\ GraphBacked ModuleSite (Script ModuleCallee) ModuleCallee
  /\ FindCalleeOutputNode ModuleCallee = Some ModuleOutput
  /\ exists before,
       BuildParameterMapHistory Builder ModuleSite PlainGraph true true
       = Returned
           (before ++ ExitFunction (GetFunctionName ModuleSite)
              :: map (fun Pair =>
                        RegisterParameterMapPin
                          (TraceParameterMapOutputPin_result Builder (snd Pair)) (fst Pair))
                   (MatchedPairs ModuleSite ModuleCallee ModuleOutput))
       /\ In (EnterFunction (GetFunctionName ModuleSite)) before
       /\ (forall Name, ~ In (ExitFunction Name) before)
       /\ (forall ParamMapIdx OutputPin,
             ~ In (RegisterParameterMapPin ParamMapIdx OutputPin) before)
       /\ (forall i traced,
             In (i, traced) (MatchedPairs ModuleSite ModuleCallee ModuleOutput) <->
             exists ChildOutputNodePin OutputPin,
               In ChildOutputNodePin (GetAllPins ModuleOutput)
               /\ LinkedTo ChildOutputNodePin <> []
               /\ PinType ChildOutputNodePin = GetParameterMapDef
               /\ OutputPins ModuleSite !! i = Some OutputPin
               /\ IsEquivalent (PinToNiagaraVariable OutputPin)
                    (PinToNiagaraVariable ChildOutputNodePin) = true
               /\ traced = TraceFirstLink ModuleCallee ChildOutputNodePin).
Proof.
  split; [left; reflexivity|]. split; [split; reflexivity|]. split; [reflexivity|].
  apply (BuildParameterMapHistory_registers_after_exit Builder ModuleSite PlainGraph true true
           (Script ModuleCallee) ModuleCallee ModuleOutput);
    [left; reflexivity | split; reflexivity | reflexivity].
Defined.

Lemma Samples_Chain_reached H :
  TransitivelyReferenced ChainCalledGraphs ChainCallee H ->
  H = ChainCallee \/ H = HelperGraph \/ H = EmitterGraph.
Proof.
  induction 1 as [|H K _ IH HK]; [left; reflexivity|].
  destruct IH as [-> | [-> | ->]]; simpl in HK;
    [destruct HK as [<-|[]] | destruct HK as [<-|[]] | destruct HK]; auto.
Qed.

Lemma Samples_Chain_collects : CollectsReferencedGraphs ChainCalledGraphs ChainCallee.
Proof.
  intros H HH. apply Samples_Chain_reached in HH as [-> | [-> | ->]]; simpl; auto.
Qed.

Lemma Samples_Chain_Emitter :
  TransitivelyReferenced ChainCalledGraphs ChainCallee EmitterGraph.
Proof.
  apply Referenced_through with (H := HelperGraph); [|left; reflexivity].
  apply Referenced_through with (H := ChainCallee); [|left; reflexivity].
  apply Referenced_itself.
Qed.

Lemma CanAddToGraph_rejects_cycle_witness :
  SpawningFunctionScript EmptyRegistry ChainCallSite = Some (Script ChainCallee)
  /\ GetSource (Script ChainCallee) = Some (Some {| NodeGraph := Some ChainCallee |})
  /\ CollectsReferencedGraphs ChainCalledGraphs ChainCallee
  /\ TransitivelyReferenced ChainCalledGraphs ChainCallee EmitterGraph
  /\ GetOutermost EmitterGraph = Some "/Game/Emitter"
  /\ GetOutermost ParticleGraph = Some "/Game/Emitter"
  /\ let r := CanAddToGraph AcceptingSuper EmptyRegistry ChainCallSite ParticleGraph NoText in
     CanAdd r = false
     /\ TargetGraph_after r = ParticleGraph
     /\ (fst (AcceptingSuper ChainCallSite ParticleGraph NoText) = true ->
         OutErrorMsg r = NiagaraFuncCallCannotAddToGraph)
     /\ (fst (AcceptingSuper ChainCallSite ParticleGraph NoText) = false ->
         OutErrorMsg r = snd (AcceptingSuper ChainCallSite ParticleGraph NoText)).
Proof.
  split; [reflexivity|]. split; [reflexivity|].
  split; [exact Samples_Chain_collects|]. split; [exact Samples_Chain_Emitter|].
  split; [reflexivity|]. split; [reflexivity|].
  apply (CanAddToGraph_rejects_cycle AcceptingSuper EmptyRegistry ChainCalledGraphs
           ChainCallSite ParticleGraph NoText (Script ChainCallee) ChainCallee EmitterGraph
           "/Game/Emitter" eq_refl eq_refl Samples_Chain_collects Samples_Chain_Emitter
           eq_refl eq_refl).
Defined.

(** The pins of the call site with the retyped switch are those that the
    allocation has made for the callee as it was, with the switch
    propagated: the pin of the switch is marked "default ignored". *)
Example AllocateDefaultPins_PropagatingSite :
  exists a,
    AllocateDefaultPins EmptyRegistry NewPin false NewAddPin NoOutputs NoInputPins
      NoSchemaDefault NoMetaData KeepName PropagatingSite = Returned a
    /\ InputPins (Allocated_Node a) = InputPins RetypedSwitchSite
    /\ InputPins RetypedSwitchSite = [Pin Quality [] true]
    /\ CachedChangeId (Allocated_Node a) = CachedChangeId RetypedSwitchSite
    /\ PropagatedStaticSwitchParameters (Allocated_Node a)
       = PropagatedStaticSwitchParameters RetypedSwitchSite.
Proof. eexists. split; [reflexivity|]. repeat split. Qed.

(** The refresh of that call site: the entry is removed, the flag of the
    pin is cleared, the messages are as they were, and the node goes on to
    [ReallocatePins]. *)
Example RefreshSwitches_RetypedSwitchSite :
  exists mid,
    RefreshSwitches RetypedSwitchSite = Returned (true, mid)
    /\ PropagatedStaticSwitchParameters mid = []
    /\ InputPins mid = [Pin Quality [] false]
    /\ Messages mid = Messages RetypedSwitchSite.
Proof. eexists. split; [reflexivity|]. repeat split. Qed.

(** ** Compile: the shape of a run *)

Lemma existsb_IsFunctionCall_resolution d :
  forallb IsResolutionCall d = true -> existsb IsFunctionCall d = false.
Proof.
  induction d as [|c d IH]; simpl; [reflexivity|].
  intros H. apply andb_true_iff in H as [Hc Hd]. rewrite (IH Hd).
  destruct c; try discriminate; reflexivity.
Qed.

Lemma FindAutoBoundInput_Some Sys G inp p v u :
  FindAutoBoundInput Sys G inp p = Returned (Some (v, u)) ->
  IsExposed inp = true /\ LinkedTo p = [] /\ CanAutoBind inp = true
  /\ IsEquivalent (PinToNiagaraVariable p) v = true
  /\ ((u = Usage_Attribute
       /\ exists n, EnclosingContract G n /\ In v (Outputs n))
      \/ (u = Usage_SystemConstant /\ v = PinToNiagaraVariable p
          /\ In v Sys
          /\ forall n, EnclosingContract G n ->
               forall Attr, In Attr (Outputs n) ->
                 IsEquivalent (PinToNiagaraVariable p) Attr = false)).
Proof.
  unfold FindAutoBoundInput.
  destruct (IsExposed inp); simpl; [|discriminate].
  destruct (LinkedTo p) as [|r l] eqn:Hl; simpl; [|discriminate].
  destruct (CanAutoBind inp); simpl; [|discriminate].
  intros H. split; [reflexivity|]. split; [reflexivity|]. split; [reflexivity|].
  set (node := match FindOutputNode G Script_ParticleSpawnScript with
               | Some n => Some n
               | None => FindOutputNode G Script_ParticleUpdateScript
               end) in H.
  assert (Hnode : forall n, EnclosingContract G n <-> node = Some n).
  { intros n. unfold EnclosingContract, node.
    destruct (FindOutputNode G Script_ParticleSpawnScript) as [s|].
    - split; [intros [H1|[H1 _]]; congruence | intros H1; left; congruence].
    - split; [intros [H1|[_ H1]]; congruence | intros H1; right; split; [reflexivity|exact H1]]. }
  destruct node as [n|].
  - destruct (List.find _ (Outputs n)) as [Attr|] eqn:Hfind.
    + injection H as <- <-. apply find_some in Hfind as [Hin Heq].
      split; [exact Heq|]. left. split; [reflexivity|].
      exists n. split; [apply Hnode; reflexivity | exact Hin].
    + destruct (existsb _ Sys) eqn:Hsys; [|discriminate].
      injection H as <- <-. split; [apply IsEquivalent_eq; reflexivity|].
      right. split; [reflexivity|]. split; [reflexivity|].
      split; [apply existsb_VarEq; exact Hsys|].
      intros n' Hn' Attr HAttr. apply Hnode in Hn'. injection Hn' as <-.
      apply (find_none _ _ Hfind _ HAttr).
  - destruct (existsb _ Sys) eqn:Hsys; [|discriminate].
    injection H as <- <-. split; [apply IsEquivalent_eq; reflexivity|].
    right. split; [reflexivity|]. split; [reflexivity|].
    split; [apply existsb_VarEq; exact Hsys|].
    intros n' Hn'. apply Hnode in Hn'. discriminate.
Qed.

Lemma GraphGrows_refl G : GraphGrows G G [].
Proof. destruct G. unfold GraphGrows. simpl. rewrite app_nil_r. reflexivity. Qed.

Lemma GraphGrows_NewObjects G G' added :
  GraphGrows G G' added -> NewObjects G' = NewObjects G ++ added.
Proof. intros ->. reflexivity. Qed.

Lemma OnlyLinksAdded_refl pins G : OnlyLinksAdded pins pins G G.
Proof.
  exists []. split; [apply GraphGrows_refl|]. split; [reflexivity|].
  intros j q Hq. exists q. unfold SameButLinks. repeat split; auto.
Qed.

Lemma OnlyLinksAdded_trans pins1 pins2 pins3 G1 G2 G3 :
  OnlyLinksAdded pins1 pins2 G1 G2 -> OnlyLinksAdded pins2 pins3 G2 G3 ->
  OnlyLinksAdded pins1 pins3 G1 G3.
Proof.
  intros (a1 & Hg1 & Hl1 & H1) (a2 & Hg2 & Hl2 & H2).
  pose proof (GraphGrows_NewObjects _ _ _ Hg1) as Hn1.
  pose proof (GraphGrows_NewObjects _ _ _ Hg2) as Hn2.
  exists (a1 ++ a2). split.
  { unfold GraphGrows in *. rewrite Hg2, Hg1. simpl. rewrite app_assoc. reflexivity. }
  split; [congruence|].
  intros j q Hq.
  destruct (H1 j q Hq) as (q' & Hq' & (Sa & Sb & Sc & Sd) & Hkeep1 & Hcase1).
  destruct (H2 j q' Hq') as (q'' & Hq'' & (Ta & Tb & Tc & Td) & Hkeep2 & Hcase2).
  exists q''. split; [exact Hq''|]. split; [unfold SameButLinks; repeat split; congruence|].
  split.
  { intros Hl. rewrite <- (Hkeep1 Hl). apply Hkeep2. rewrite (Hkeep1 Hl). exact Hl. }
  destruct Hcase1 as [->|(n & Hn & Hlo & Hhi & u & Hu)].
  - destruct Hcase2 as [->|(n & Hn & Hlo & Hhi & u & Hu)]; [left; reflexivity|].
    right. exists n. split; [exact Hn|]. split.
    { rewrite Hn1, length_app in Hlo. lia. }
    split; [exact Hhi|]. exists u. exact Hu.
  - assert (q'' = q') as -> by (apply Hkeep2; rewrite Hn; discriminate).
    right. exists n. split; [exact Hn|]. split; [exact Hlo|]. split.
    { rewrite Hn2, length_app. lia. }
    exists u. rewrite Hn2, lookup_app_l by exact Hhi. exact Hu.
Qed.

Section CompileCoverage.

Variable SysConstants : list FNiagaraVariable.
Variable GetUnusedFunctionInputPins : UNiagaraNodeFunctionCall -> list UEdGraphPin.
Variable GetDefaultObject : string -> option (FNiagaraFunctionSignature -> list FText).
Variable Translator : FHlslNiagaraTranslator.

Local Abbreviation Loop := (CompileFunctionInputs SysConstants Translator).
Local Abbreviation Step := (CompileFunctionInput SysConstants Translator).
Local Abbreviation Start := (LoopStart GetUnusedFunctionInputPins).
Local Abbreviation CompileNode :=
  (Compile SysConstants GetUnusedFunctionInputPins GetDefaultObject Translator).
Local Abbreviation AfterLoop := (Niagara.AfterLoop Translator).
Local Abbreviation Resolves := (Niagara.Resolves SysConstants Translator).

Lemma Resolves_shape inp st st' :
  Resolves inp st st' ->
  exists d, Calls st' = Calls st ++ d /\ forallb IsResolutionCall d = true
            /\ length d <= 1 /\ bError st' = bError st || existsb IsError d.
Proof.
  intros H.
  destruct H as [? ?|? ? ?|? ? ?|i p r ? ?|i p v u ? ? ? p'|i p ? ? ? ? ?|i p ? ? ? ? ?|i p ? ? ? ?];
    simpl;
    [ exists [Error StaleFunctionCallError None]
    | exists [GetConstant (Input inp)]
    | exists []
    | exists [CompilePin i p]
    | exists [CompilePin i p']
    | exists [Error (RequiredInputUnboundErrorFmt (GetDisplayName p)) (Some i)]
    | exists [CompilePin i p]
    | exists [] ];
    simpl; rewrite ?app_nil_r, ?orb_true_r, ?orb_false_r; repeat split; lia.
Qed.

Lemma Loop_shape l : forall st st',
  Loop l st = Returned st' ->
  exists d, Calls st' = Calls st ++ d /\ forallb IsResolutionCall d = true
            /\ length d <= length l /\ bError st' = bError st || existsb IsError d.
Proof.
  induction l as [|inp l IH]; intros st st' H; simpl in H.
  - injection H as <-. exists []. rewrite app_nil_r, orb_false_r. repeat split. simpl. lia.
  - apply bindC_Returned in H as (st1 & H1 & H2).
    apply Step_Resolves, Resolves_shape in H1 as (d1 & Hc1 & Hr1 & Hl1 & He1).
    apply IH in H2 as (d2 & Hc2 & Hr2 & Hl2 & He2).
    exists (d1 ++ d2). rewrite Hc2, Hc1, He2, He1, forallb_app, existsb_app, Hr1, Hr2, length_app.
    rewrite <- app_assoc, orb_assoc. repeat split. simpl. lia.
Qed.

Lemma Resolves_links inp st st' :
  Resolves inp st st' ->
  OnlyLinksAdded (CallerInputPins st) (CallerInputPins st') (CallerGraph st) (CallerGraph st').
Proof.
  intros H.
  destruct H as [? ?|? ? ?|? ? ?|i p r ? ?|i p v u Hm Ht Ha p'|i p ? ? ? ? ?|i p ? ? ? ? ?|i p ? ? ? ?];
    simpl; try apply OnlyLinksAdded_refl.
  apply FindAutoBoundInput_Some in Ha as (_ & Hl & _).
  apply MatchingPin_lookup in Hm as [Hp _].
  exists [{| NewInput := PinToNiagaraVariable p; NewUsage := u |}].
  split; [reflexivity|]. split; [apply length_insert|].
  intros j q Hq. destruct (decide (j = i)) as [->|Hne].
  - assert (q = p) as -> by congruence.
    exists p'. split; [apply list_lookup_insert_eq; eapply lookup_lt_Some; eassumption|].
    split; [unfold SameButLinks; repeat split|].
    split; [intros Hl'; congruence|].
    right. exists (length (NewObjects (CallerGraph st))).
    split; [reflexivity|]. split; [lia|]. simpl. rewrite length_app. simpl. split; [lia|].
    exists u. apply list_lookup_middle. reflexivity.
  - exists q. rewrite list_lookup_insert_ne by congruence.
    split; [exact Hq|]. unfold SameButLinks. repeat split; auto.
Qed.

Lemma Loop_links l : forall st st',
  Loop l st = Returned st' ->
  OnlyLinksAdded (CallerInputPins st) (CallerInputPins st') (CallerGraph st) (CallerGraph st').
Proof.
  induction l as [|inp l IH]; intros st st' H; simpl in H.
  - injection H as <-. apply OnlyLinksAdded_refl.
  - apply bindC_Returned in H as (st1 & H1 & H2).
    apply Step_Resolves, Resolves_links in H1.
    eapply OnlyLinksAdded_trans; [exact H1 | apply IH, H2].
Qed.

(** A compile that returns for a call site with a script has run the loop
    over the inputs of the script's graph. *)
Lemma Compile_script_inv this Script G Outputs r :
  FunctionScript this = Some Script ->
  CompileNode this G Outputs = Returned r ->
  exists FunctionGraph stF,
    GraphBacked this Script FunctionGraph
    /\ Loop (FindInputNodes FunctionGraph) (Start this Script G) = Returned stF
    /\ r = AfterLoop this Outputs stF.
Proof.
  intros Hs H.
  assert (exists FG, GraphBacked this Script FG) as [FG Hg].
  { unfold Compile in H. rewrite Hs in H.
    apply bindC_Returned in H as (Source & Hsrc & H).
    unfold CastChecked_Source in Hsrc.
    destruct (GetSource Script) as [[src|]|] eqn:Hg; try discriminate.
    injection Hsrc as ->.
    destruct Source as [[FG|]]; simpl in H; [|discriminate].
    exists FG. split; assumption. }
  rewrite (Compile_graph_backed SysConstants GetUnusedFunctionInputPins GetDefaultObject
             Translator _ _ _ G Outputs Hg) in H.
  apply bindC_Returned in H as (stF & HstF & H). injection H as <-.
  exists FG, stF. auto.
Qed.

Lemma AfterLoop_Node this Outputs st :
  Result_Node (AfterLoop this Outputs st) = SetInputPins (CallerInputPins st) this.
Proof. unfold Niagara.AfterLoop, Finish. destruct (negb (bError st)); reflexivity. Qed.


Lemma Start_Calls_shape this Script G :
  existsb IsFunctionCall (Calls (Start this Script G)) = false
  /\ existsb IsError (Calls (Start this Script G)) = false.
Proof. unfold LoopStart. simpl. destruct (_ && _); split; reflexivity. Qed.

Lemma Resolves_slot_calls inp st st' i :
  Resolves inp st st' -> SlotIndex (CallerInputPins st) inp <> Some i ->
  exists d, Calls st' = Calls st ++ d /\ List.filter (CallAtSlot i) d = [].
Proof.
  intros H Hi.
  assert (Hne : forall j q, MatchingPin (CallerInputPins st) inp = Some (j, q) ->
                            bool_decide (j = i) = false).
  { intros j q Hm. apply bool_decide_eq_false. intros ->.
    apply Hi. unfold SlotIndex. rewrite Hm. reflexivity. }
  destruct H as [Hm ?|Hm ? ?|Hm ? ?|j p r Hm ?|j p v u Hm ? ? p'|j p Hm ? ? ? ?
                |j p Hm ? ? ? ?|j p Hm ? ? ?];
    simpl;
    [ exists [Error StaleFunctionCallError None]
    | exists [GetConstant (Input inp)]
    | exists []
    | exists [CompilePin j p]
    | exists [CompilePin j p']
    | exists [Error (RequiredInputUnboundErrorFmt (GetDisplayName p)) (Some j)]
    | exists [CompilePin j p]
    | exists [] ];
    simpl; rewrite ?app_nil_r, ?(Hne _ _ Hm); auto.
Qed.

Lemma Loop_slot_calls l i : forall st st',
  Loop l st = Returned st' ->
  (forall x, In x l -> SlotIndex (CallerInputPins st) x <> Some i) ->
  exists d, Calls st' = Calls st ++ d /\ List.filter (CallAtSlot i) d = [].
Proof.
  induction l as [|x l IH]; intros st st' H Hi; simpl in H.
  - injection H as <-. exists []. rewrite app_nil_r. auto.
  - apply bindC_Returned in H as (st1 & H1 & H2).
    apply Step_Resolves in H1. pose proof (Resolves_Frame _ _ _ _ _ H1) as [Hs _ _].
    apply (Resolves_slot_calls _ _ _ i) in H1 as (d1 & Hd1 & Hf1); [|apply Hi; left; reflexivity].
    apply IH in H2 as (d2 & Hd2 & Hf2).
    + exists (d1 ++ d2). rewrite Hd2, Hd1, app_assoc, List.filter_app, Hf1, Hf2. auto.
    + intros y Hy. rewrite (SlotIndex_same_slots _ _ y Hs). apply Hi. right. assumption.
Qed.

Lemma Start_slot_calls this Script G i :
  List.filter (CallAtSlot i) (Calls (Start this Script G)) = [].
Proof. unfold LoopStart. simpl. destruct (_ && _); reflexivity. Qed.

Lemma AfterLoop_slot_calls this Outputs st i :
  List.filter (CallAtSlot i) (Result_Calls (AfterLoop this Outputs st))
  = List.filter (CallAtSlot i) (Calls st).
Proof.
  unfold Niagara.AfterLoop, Finish.
  destruct (negb (bError st)); simpl; rewrite !List.filter_app; simpl;
    rewrite ?app_nil_r; reflexivity.
Qed.

(** The run of [Compile] around the input at position [k], whose slot is
    the pin at position [i]: when the loop reaches the input the slot is as
    it was at the start, and the rest of the run leaves it as the step for
    the input has left it. *)
Lemma Compile_at_slot this Script FunctionGraph G Outputs k inp i p :
  GraphBacked this Script FunctionGraph ->
  NoDup (map Input (FindInputNodes FunctionGraph)) ->
  ChecksHold (InputPins this) (FindInputNodes FunctionGraph) ->
  FindInputNodes FunctionGraph !! k = Some inp ->
  MatchingPin (InputPins this) inp = Some (i, p) ->
  exists st st' stF h2,
    Resolves inp st st'
    /\ CompileNode this G Outputs = Returned (AfterLoop this Outputs stF)
    /\ MatchingPin (CallerInputPins st) inp = Some (i, p)
    /\ TraceFirstLink (CallerGraph st) p = TraceFirstLink G p
    /\ FindAutoBoundInput SysConstants (CallerGraph st) inp p
       = FindAutoBoundInput SysConstants G inp p
    /\ List.filter (CallAtSlot i) (Calls st) = []
    /\ List.filter (CallAtSlot i) (Calls stF) = List.filter (CallAtSlot i) (Calls st')
    /\ length (Inputs st) = k
    /\ Inputs stF = Inputs st' ++ h2
    /\ CallerInputPins stF !! i = CallerInputPins st' !! i
    /\ OnlyLinksAdded (InputPins this) (CallerInputPins st) G (CallerGraph st)
    /\ OnlyLinksAdded (CallerInputPins st') (CallerInputPins stF)
         (CallerGraph st') (CallerGraph stF).
Proof.
  intros Hg Hn Hc Hk Hm.
  destruct (Compile_at SysConstants GetUnusedFunctionInputPins GetDefaultObject Translator
              _ _ _ G Outputs _ _ Hg Hc Hk)
    as (st & st' & stF & Hst & Hst' & HstF & Hres & Hf & Hlen).
  assert (Hslot : SlotIndex (InputPins this) inp = Some i).
  { unfold SlotIndex. rewrite Hm. reflexivity. }
  assert (Hothers : forall x,
             In x (take k (FindInputNodes FunctionGraph))
             \/ In x (drop (S k) (FindInputNodes FunctionGraph)) ->
             SlotIndex (InputPins this) x <> Some i).
  { intros x Hx Hxi. eapply NoDup_Input_others; eauto. eapply SlotIndex_inj; eauto. }
  assert (Hp : CallerInputPins st !! i = Some p).
  { rewrite (Loop_other_pins _ _ _ _ _ _ Hst); [apply MatchingPin_lookup in Hm; tauto|].
    intros x Hx. apply Hothers. left. assumption. }
  assert (Hm' : MatchingPin (CallerInputPins st) inp = Some (i, p)).
  { pose proof (SlotIndex_same_slots _ _ inp (frame_slots _ _ Hf)) as Hs.
    simpl in Hs. rewrite Hslot in Hs.
    apply MatchingPin_SlotIndex in Hs as [p' Hp'].
    pose proof (MatchingPin_lookup _ _ _ _ Hp') as [Hl _]. congruence. }
  pose proof Hst' as Hstep. apply Step_Resolves in Hstep.
  pose proof (Resolves_Frame _ _ _ _ _ Hstep) as Hf'.
  assert (Hrest : forall x, In x (drop (S k) (FindInputNodes FunctionGraph)) ->
                            SlotIndex (CallerInputPins st') x <> Some i).
  { intros x Hx.
    rewrite (SlotIndex_same_slots _ _ x (frame_slots _ _ Hf')).
    rewrite (SlotIndex_same_slots _ _ x (frame_slots _ _ Hf)).
    apply Hothers. right. assumption. }
  destruct (Loop_slot_calls _ i _ _ Hst) as (d1 & Hd1 & Hf1).
  { intros x Hx. apply Hothers. left. assumption. }
  destruct (Loop_slot_calls _ i _ _ HstF Hrest) as (d2 & Hd2 & Hf2).
  destruct (Loop_entries _ _ _ _ _ HstF) as (h2 & Hh2 & _).
  exists st, st', stF, h2.
  split; [exact Hstep|]. split; [exact Hres|]. split; [exact Hm'|].
  split; [apply TraceFirstLink_graph, (frame_traced _ _ Hf)|].
  split; [apply FindAutoBoundInput_graph, (frame_outputs _ _ Hf)|].
  split; [rewrite Hd1, List.filter_app, Start_slot_calls, Hf1; reflexivity|].
  split; [rewrite Hd2, List.filter_app, Hf2, app_nil_r; reflexivity|].
  split; [exact Hlen|]. split; [exact Hh2|].
  split; [apply (Loop_other_pins _ _ _ _ _ _ HstF Hrest)|].
  split; [apply (Loop_links _ _ _ Hst) | apply (Loop_links _ _ _ HstF)].
Qed.

(** X1.  On every path of [Compile] that returns, [FunctionCall] is
    emitted exactly when [bError] is clear: it is then the last call on the
    translator, the only [FunctionCall], it carries the [Inputs] array and
    [Outputs] is what it leaves there.  When [bError] is set no
    [FunctionCall] is made and [Outputs] is as the caller gave it. *)
Theorem Compile_emits_call_iff_no_error :
  forall this G Outputs r,
    CompileNode this G Outputs = Returned r ->
    (Result_bError r = false ->
       exists calls,
         Result_Calls r = calls ++ [FunctionCall (Result_Inputs r)]
         /\ existsb IsFunctionCall calls = false
         /\ Result_Outputs r = FunctionCall_outputs Translator (Result_Inputs r) Outputs)
    /\ (Result_bError r = true ->
          existsb IsFunctionCall (Result_Calls r) = false /\ Result_Outputs r = Outputs).
Proof.
  intros this G Outputs r H.
  destruct (FunctionScript this) as [Script|] eqn:Hs.
  - destruct (Compile_script_inv _ _ _ _ _ Hs H) as (FG & stF & Hg & HstF & ->).
    destruct (Loop_shape _ _ _ HstF) as (d & Hd & Hres & _ & _).
    destruct (Start_Calls_shape this Script G) as [Hstart _].
    apply existsb_IsFunctionCall_resolution in Hres.
    unfold Niagara.AfterLoop, Finish.
    destruct (bError stF); simpl; (split; intros Hb; [|split]); try discriminate Hb.
    + rewrite Hd, !existsb_app, Hstart, Hres. reflexivity.
    + reflexivity.
    + eexists. split; [reflexivity|]. split; [|reflexivity].
      rewrite Hd, !existsb_app, Hstart, Hres. reflexivity.
  - unfold Compile in H. rewrite Hs in H.
    destruct (Signature_IsValid (Signature this)).
    + apply bindC_Returned in H as (errors & _ & H).
      destruct (0 <? length errors)%nat.
      * injection H as <-. simpl. split; intros Hb; [discriminate Hb|]. split; [|reflexivity].
        clear. induction errors as [|e errors IH]; simpl; auto.
      * destruct (CompileInputPins_result Translator _) as [error inputs].
        injection H as <-. unfold Finish.
        destruct error; simpl; (split; intros Hb; [|split]); try discriminate Hb;
          try reflexivity.
        exists [EnterFunctionCallNode []; CompileInputPins; ExitFunctionCallNode].
        split; [reflexivity|]. split; reflexivity.
    + injection H as <-. simpl. split; intros Hb; [discriminate Hb|]. split; reflexivity.
Qed.

(** X2.  For a call site with a script, [Compile] ends with [bError] set
    exactly when it has reported an error to the translator. *)
Theorem Compile_error_flag_reports :
  forall this Script G Outputs r,
    FunctionScript this = Some Script ->
    CompileNode this G Outputs = Returned r ->
    Result_bError r = existsb IsError (Result_Calls r).
Proof.
  intros this Script G Outputs r Hs H.
  destruct (Compile_script_inv _ _ _ _ _ Hs H) as (FG & stF & Hg & HstF & ->).
  destruct (Loop_shape _ _ _ HstF) as (d & Hd & _ & _ & He).
  destruct (Start_Calls_shape this Script G) as [_ Hstart].
  simpl in He. rewrite AfterLoop_bError.
  unfold Niagara.AfterLoop, Finish.
  destruct (negb (bError stF)); simpl;
    rewrite Hd, !existsb_app, Hstart, He; simpl; rewrite ?orb_false_r; reflexivity.
Qed.

(** X3.  The calls of a compile of a call site with a script, in order: the
    deprecation warning, given exactly when the script is deprecated and the
    node is enabled; [EnterFunctionCallNode] with the names of the unused
    pins; at most one call per input of the callee, each an error, a
    constant or a compiled pin; [SetStaticSwitchConstants] on the pins as
    the loop has left them; [ExitFunctionCallNode]; and [FunctionCall] when
    there was no error. *)
Theorem Compile_call_scope :
  forall this Script G Outputs r,
    FunctionScript this = Some Script ->
    CompileNode this G Outputs = Returned r ->
    exists FunctionGraph body,
      GraphBacked this Script FunctionGraph
      /\ Result_Calls r
         = (if bDeprecated Script && IsNodeEnabled this
            then [Warning (GetFormattedDeprecationMessage Script (FunctionDisplayName this))]
            else [])
           ++ EnterFunctionCallNode (remove_dups (map PinName (GetUnusedFunctionInputPins this)))
              :: body
           ++ [SetStaticSwitchConstants (InputPins (Result_Node r)); ExitFunctionCallNode]
           ++ (if Result_bError r then [] else [FunctionCall (Result_Inputs r)])
      /\ forallb IsResolutionCall body = true
      /\ length body <= length (FindInputNodes FunctionGraph).
Proof.
  intros this Script G Outputs r Hs H.
  destruct (Compile_script_inv _ _ _ _ _ Hs H) as (FG & stF & Hg & HstF & ->).
  destruct (Loop_shape _ _ _ HstF) as (d & Hd & Hres & Hlen & _).
  exists FG, d. split; [exact Hg|]. split; [|split; assumption].
  rewrite AfterLoop_Node, AfterLoop_bError, AfterLoop_Inputs.
  unfold Niagara.AfterLoop, Finish. simpl in Hd.
  destruct (bError stF); simpl; rewrite Hd; simpl;
    rewrite <- ?app_assoc; simpl; rewrite ?app_nil_r; reflexivity.
Qed.



Local Ltac slot_cases Hstep Hm' :=
  let Hm2 := fresh "Hm2" in
  destruct Hstep as [Hm2 ?|Hm2 ? ?|Hm2 ? ?|j q r Hm2 Ht2|j q v' u' Hm2 Ht2 Ha2 q'
                    |j q Hm2 Ht2 Ha2 Hr2 Hd2|j q Hm2 Ht2 Ha2 Hr2 Hd2|j q Hm2 Ht2 Ha2 Hr2];
  rewrite Hm' in Hm2; try discriminate Hm2; injection Hm2 as <- <-; try congruence.

(** X5.  An input whose slot the caller has linked is compiled from the
    slot: for a graph-backed call site with duplicate-free inputs, when the
    link of the slot traces to an output, the compile makes one call that
    names the slot, [CompilePin] of the pin as it is, the entry of the input
    is the handle of that call, and the pin is left as it was.  No error is
    given for the slot, whatever its flags. *)
Theorem Compile_linked_input :
  forall this Script FunctionGraph G Outputs k inp i p r0,
    GraphBacked this Script FunctionGraph ->
    NoDup (map Input (FindInputNodes FunctionGraph)) ->
    ChecksHold (InputPins this) (FindInputNodes FunctionGraph) ->
    FindInputNodes FunctionGraph !! k = Some inp ->
    MatchingPin (InputPins this) inp = Some (i, p) ->
    TraceFirstLink G p = Some r0 ->
    exists r,
      CompileNode this G Outputs = Returned r
      /\ List.filter (CallAtSlot i) (Result_Calls r) = [CompilePin i p]
      /\ Result_Inputs r !! k = Some (CompilePin_handle Translator p)
      /\ InputPins (Result_Node r) !! i = Some p.
Proof.
  intros this Script FG G Outputs k inp i p r0 Hg Hn Hc Hk Hm Ht.
  destruct (Compile_at_slot _ _ _ G Outputs _ _ _ _ Hg Hn Hc Hk Hm)
    as (st & st' & stF & h2 & Hstep & Hres & Hm' & Ht' & _ & Hf0 & HfF & Hlen & Hh2 & Hpin & _).
  rewrite Ht in Ht'.
  exists (AfterLoop this Outputs stF). split; [exact Hres|].
  rewrite AfterLoop_slot_calls, AfterLoop_Inputs, AfterLoop_Node, HfF, Hh2. simpl InputPins.
  rewrite Hpin. clear HfF Hh2 Hpin Hres.
  slot_cases Hstep Hm'. simpl.
  split; [|split].
  - rewrite List.filter_app, Hf0. simpl. rewrite bool_decide_eq_true_2 by reflexivity.
    reflexivity.
  - rewrite <- app_assoc. apply lookup_middle_entry. exact Hlen.
  - apply MatchingPin_lookup in Hm' as [Hp _]. exact Hp.
Qed.


(** X7.  An input whose slot is neither linked nor bound automatically,
    and that gives no error: the pin is left as it is; when the input is
    required and the slot allows an inline default, the slot is compiled
    (one [CompilePin] of the unlinked pin, whose handle is the entry of the
    input); when the input is optional, no call names the slot and the entry
    is the absent marker, whatever default the pin carries. *)
Theorem Compile_unbound_input_without_error :
  forall this Script FunctionGraph G Outputs k inp i p,
    GraphBacked this Script FunctionGraph ->
    NoDup (map Input (FindInputNodes FunctionGraph)) ->
    ChecksHold (InputPins this) (FindInputNodes FunctionGraph) ->
    FindInputNodes FunctionGraph !! k = Some inp ->
    MatchingPin (InputPins this) inp = Some (i, p) ->
    TraceFirstLink G p = None ->
    FindAutoBoundInput SysConstants G inp p = Returned None ->
    exists r,
      CompileNode this G Outputs = Returned r
      /\ InputPins (Result_Node r) !! i = Some p
      /\ (IsRequired inp = true -> bDefaultValueIsIgnored p = false ->
          List.filter (CallAtSlot i) (Result_Calls r) = [CompilePin i p]
          /\ Result_Inputs r !! k = Some (CompilePin_handle Translator p))
      /\ (IsRequired inp = false ->
          List.filter (CallAtSlot i) (Result_Calls r) = []
          /\ Result_Inputs r !! k = Some INDEX_NONE).
Proof.
  intros this Script FG G Outputs k inp i p Hg Hn Hc Hk Hm Ht Ha.
  destruct (Compile_at_slot _ _ _ G Outputs _ _ _ _ Hg Hn Hc Hk Hm)
    as (st & st' & stF & h2 & Hstep & Hres & Hm' & Ht' & Ha' & Hf0 & HfF & Hlen & Hh2 & Hpin & _).
  rewrite Ht in Ht'. rewrite Ha in Ha'.
  exists (AfterLoop this Outputs stF). split; [exact Hres|].
  rewrite AfterLoop_slot_calls, AfterLoop_Inputs, AfterLoop_Node, HfF, Hh2. simpl InputPins.
  rewrite Hpin. clear HfF Hh2 Hpin Hres.
  pose proof (MatchingPin_lookup _ _ _ _ Hm') as [Hp _].
  slot_cases Hstep Hm'; simpl; (split; [exact Hp|]); split; intros Hreq; try congruence.
  - intros _. split.
    + rewrite List.filter_app, Hf0. simpl. rewrite bool_decide_eq_true_2 by reflexivity.
      reflexivity.
    + rewrite <- app_assoc. apply lookup_middle_entry. exact Hlen.
  - split; [exact Hf0|]. rewrite <- app_assoc. apply lookup_middle_entry. exact Hlen.
Qed.

End CompileCoverage.

(** X8.  [FindAutoBoundInput] binds only a slot without link of an input
    that can be bound automatically, and only to a variable equivalent to
    the slot's: an attribute among the outputs of the enclosing output node
    (the spawn output, else the update output), or, when no such attribute
    matches the slot, the slot's own variable as a system constant. *)
Theorem FindAutoBoundInput_binds_only :
  forall SysConstants G InputNode Pin v u,
    FindAutoBoundInput SysConstants G InputNode Pin = Returned (Some (v, u)) ->
    LinkedTo Pin = [] /\ CanAutoBind InputNode = true
    /\ IsEquivalent (PinToNiagaraVariable Pin) v = true
    /\ ((u = Usage_Attribute /\ exists n, EnclosingContract G n /\ In v (Outputs n))
        \/ (u = Usage_SystemConstant /\ v = PinToNiagaraVariable Pin
            /\ In v SysConstants /\ ~ AttributeMatches G Pin)).
Proof.
  intros Sys G inp p v u H.
  apply FindAutoBoundInput_Some in H as (_ & Hl & Hc & He & [Hattr|(Hu & Hv & Hin & Hno)]).
  - repeat split; auto.
  - split; [exact Hl|]. split; [exact Hc|]. split; [exact He|]. right.
    repeat split; auto.
    intros (n & Attr & Hn & HAttr & Heq). rewrite (Hno n Hn Attr HAttr) in Heq. discriminate.
Qed.

Lemma Samples_sites_ChecksHold pins :
  map PinToNiagaraVariable pins = [Velocity; Scale] ->
  ChecksHold pins (FindInputNodes Callee).
Proof.
  intros Hp x Hx Hs. simpl in Hx. destruct Hx as [<-|[<-|[<-|[]]]]; auto.
  exfalso. apply Hs.
  rewrite (SlotIndex_same_slots pins [VelocityPin; ScalePin]) by exact Hp. reflexivity.
Qed.

Lemma Compile_emits_call_iff_no_error_witness :
  exists r,
    Compile [] NoUnusedPins NoDefaultObject Translator Site ParticleGraph [] = Returned r
    /\ (Result_bError r = false ->
          exists calls,
            Result_Calls r = calls ++ [FunctionCall (Result_Inputs r)]
            /\ existsb IsFunctionCall calls = false
            /\ Result_Outputs r = FunctionCall_outputs Translator (Result_Inputs r) [])
    /\ (Result_bError r = true ->
          existsb IsFunctionCall (Result_Calls r) = false /\ Result_Outputs r = []).
Proof.
  eexists. split; [reflexivity|].
  apply (Compile_emits_call_iff_no_error [] NoUnusedPins NoDefaultObject Translator
           Site ParticleGraph []).
  reflexivity.
Defined.

Lemma Compile_error_flag_reports_witness :
  FunctionScript Site = Some (Script Callee)
  /\ exists r,
       Compile [] NoUnusedPins NoDefaultObject Translator Site PlainGraph [] = Returned r
       /\ Result_bError r = existsb IsError (Result_Calls r).
Proof.
  split; [reflexivity|]. eexists. split; [reflexivity|].
  apply (Compile_error_flag_reports [] NoUnusedPins NoDefaultObject Translator
           Site (Script Callee) PlainGraph []); reflexivity.
Defined.

Lemma Compile_call_scope_witness :
  FunctionScript Site = Some (Script Callee)
  /\ exists r,
       Compile [] NoUnusedPins NoDefaultObject Translator Site ParticleGraph [] = Returned r
       /\ exists FunctionGraph body,
            GraphBacked Site (Script Callee) FunctionGraph
            /\ Result_Calls r
               = (if bDeprecated (Script Callee) && IsNodeEnabled Site
                  then [Warning (GetFormattedDeprecationMessage (Script Callee)
                                   (FunctionDisplayName Site))]
                  else [])
                 ++ EnterFunctionCallNode (remove_dups (map PinName (NoUnusedPins Site)))
                    :: body
                 ++ [SetStaticSwitchConstants (InputPins (Result_Node r)); ExitFunctionCallNode]
                 ++ (if Result_bError r then [] else [FunctionCall (Result_Inputs r)])
            /\ forallb IsResolutionCall body = true
            /\ length body <= length (FindInputNodes FunctionGraph).
Proof.
  split; [reflexivity|]. eexists. split; [reflexivity|].
  apply (Compile_call_scope [] NoUnusedPins NoDefaultObject Translator
           Site (Script Callee) ParticleGraph []); reflexivity.
Defined.

(** On the signature path the signature takes the specifiers of the
    node. *)
Example Compile_IntrinsicSite :
  exists r,
    Compile [] NoUnusedPins NoDefaultObject Translator IntrinsicSite PlainGraph [] = Returned r
    /\ Signature_FunctionSpecifiers (Signature IntrinsicSite) = []
    /\ Signature_FunctionSpecifiers (Signature (Result_Node r)) = [("Attribute", "Scale")]
    /\ Result_Node r = SetSignatureSpecifiers IntrinsicSite
    /\ Result_Graph r = PlainGraph.
Proof. eexists. split; [reflexivity|]. repeat split. Qed.


Lemma Compile_linked_input_witness :
  GraphBacked LinkedSite (Script Callee) Callee
  /\ NoDup (map Input (FindInputNodes Callee))
  /\ ChecksHold (InputPins LinkedSite) (FindInputNodes Callee)
  /\ FindInputNodes Callee !! 0 = Some VelocityInput
  /\ MatchingPin (InputPins LinkedSite) VelocityInput = Some (0, Pin Velocity [GraphPin 3] true)
  /\ TraceFirstLink PlainGraph (Pin Velocity [GraphPin 3] true) = Some (GraphPin 3)
  /\ exists r,
       Compile [] NoUnusedPins NoDefaultObject Translator LinkedSite PlainGraph [] = Returned r
       /\ List.filter (CallAtSlot 0) (Result_Calls r)
          = [CompilePin 0 (Pin Velocity [GraphPin 3] true)]
       /\ Result_Inputs r !! 0
          = Some (CompilePin_handle Translator (Pin Velocity [GraphPin 3] true))
       /\ InputPins (Result_Node r) !! 0 = Some (Pin Velocity [GraphPin 3] true).
Proof.
  split; [split; reflexivity|]. split; [exact Samples_NoDup|].
  split; [apply Samples_sites_ChecksHold; reflexivity|]. repeat (split; [reflexivity|]).
  apply (Compile_linked_input [] NoUnusedPins NoDefaultObject Translator
           LinkedSite (Script Callee) Callee PlainGraph [] 0 VelocityInput 0
           (Pin Velocity [GraphPin 3] true) (GraphPin 3));
    first [exact Samples_NoDup | apply Samples_sites_ChecksHold; reflexivity
          | split; reflexivity | reflexivity].
Defined.


Lemma Compile_unbound_input_without_error_witness :
  GraphBacked DefaultSite (Script Callee) Callee
  /\ NoDup (map Input (FindInputNodes Callee))
  /\ ChecksHold (InputPins DefaultSite) (FindInputNodes Callee)
  /\ FindInputNodes Callee !! 0 = Some VelocityInput
  /\ MatchingPin (InputPins DefaultSite) VelocityInput = Some (0, Pin Velocity [] false)
  /\ TraceFirstLink PlainGraph (Pin Velocity [] false) = None
  /\ FindAutoBoundInput [] PlainGraph VelocityInput (Pin Velocity [] false) = Returned None
  /\ exists r,
       Compile [] NoUnusedPins NoDefaultObject Translator DefaultSite PlainGraph [] = Returned r
       /\ InputPins (Result_Node r) !! 0 = Some (Pin Velocity [] false)
       /\ (IsRequired VelocityInput = true ->
           bDefaultValueIsIgnored (Pin Velocity [] false) = false ->
           List.filter (CallAtSlot 0) (Result_Calls r) = [CompilePin 0 (Pin Velocity [] false)]
           /\ Result_Inputs r !! 0 = Some (CompilePin_handle Translator (Pin Velocity [] false)))
       /\ (IsRequired VelocityInput = false ->
           List.filter (CallAtSlot 0) (Result_Calls r) = []
           /\ Result_Inputs r !! 0 = Some INDEX_NONE).
Proof.
  split; [split; reflexivity|]. split; [exact Samples_NoDup|].
  split; [apply Samples_sites_ChecksHold; reflexivity|]. repeat (split; [reflexivity|]).
  apply (Compile_unbound_input_without_error [] NoUnusedPins NoDefaultObject Translator
           DefaultSite (Script Callee) Callee PlainGraph [] 0 VelocityInput 0
           (Pin Velocity [] false));
    first [exact Samples_NoDup | apply Samples_sites_ChecksHold; reflexivity
          | split; reflexivity | reflexivity].
Defined.

Lemma FindAutoBoundInput_binds_only_witness :
  FindAutoBoundInput [Velocity] PlainGraph VelocityInput VelocityPin
  = Returned (Some (Velocity, Usage_SystemConstant))
  /\ LinkedTo VelocityPin = [] /\ CanAutoBind VelocityInput = true
  /\ IsEquivalent (PinToNiagaraVariable VelocityPin) Velocity = true
  /\ ((Usage_SystemConstant = Usage_Attribute
       /\ exists n, EnclosingContract PlainGraph n /\ In Velocity (Outputs n))
      \/ (Usage_SystemConstant = Usage_SystemConstant
          /\ Velocity = PinToNiagaraVariable VelocityPin
          /\ In Velocity [Velocity] /\ ~ AttributeMatches PlainGraph VelocityPin)).
Proof.
  split; [reflexivity|].
  apply (FindAutoBoundInput_binds_only [Velocity] PlainGraph VelocityInput VelocityPin
           Velocity Usage_SystemConstant).
  reflexivity.
Defined.

(** ** Propagated static switches *)

Lemma find_filter_nil {A} (f : A -> bool) l :
  List.find f l = None <-> List.filter f l = [].
Proof.
  induction l as [|x l IH]; simpl; [tauto|].
  destruct (f x); [split; discriminate | exact IH].
Qed.

Lemma RemoveFirstPropagated_other V V' l :
  V' <> V ->
  List.find (IsFor V') (RemoveFirstPropagated V l) = List.find (IsFor V') l.
Proof.
  intros Hne. induction l as [|P l IH]; simpl; [reflexivity|].
  destruct (VarEq (SwitchParameter P) V) eqn:HV.
  - apply VarEq_eq in HV. unfold IsFor at 2, VarEq.
    rewrite bool_decide_eq_false_2 by congruence. reflexivity.
  - simpl. rewrite IH. reflexivity.
Qed.

Lemma RemoveFirstPropagated_absent V l :
  List.find (IsFor V) l = None -> RemoveFirstPropagated V l = l.
Proof.
  induction l as [|P l IH]; simpl; [reflexivity|]. unfold IsFor at 1.
  destruct (VarEq (SwitchParameter P) V); [discriminate|].
  intros H. rewrite (IH H). reflexivity.
Qed.

Lemma RemoveFirstPropagated_split V l P :
  List.find (IsFor V) l = Some P ->
  exists before after,
    l = before ++ P :: after
    /\ RemoveFirstPropagated V l = before ++ after
    /\ Forall (fun Q => SwitchParameter Q <> V) before.
Proof.
  induction l as [|Q l IH]; simpl; [discriminate|]. unfold IsFor at 1.
  destruct (VarEq (SwitchParameter Q) V) eqn:HV.
  - intros [= ->]. exists [], l. repeat split. constructor.
  - intros H. destruct (IH H) as (before & after & -> & Hr & Hf).
    exists (Q :: before), after. rewrite Hr. repeat split.
    constructor; [|exact Hf]. intros He. apply VarEq_eq in He. congruence.
Qed.

Lemma RemoveFirstPropagated_filter V l :
  List.filter (IsFor V) (RemoveFirstPropagated V l) = tail (List.filter (IsFor V) l).
Proof.
  induction l as [|P l IH]; simpl; [reflexivity|].
  change (IsFor V P) with (VarEq (SwitchParameter P) V).
  destruct (VarEq (SwitchParameter P) V) eqn:HV; [reflexivity|].
  simpl. change (IsFor V P) with (VarEq (SwitchParameter P) V). rewrite HV. exact IH.
Qed.

(** X9.  [RemovePropagatedVariable] removes the first entry for the
    variable and nothing else: the entries for the other variables are found
    as before; when the variable has no entry the set is left as it is;
    when it has one, the set is the old one without that entry, the entries
    before and after it in their order; and the variable is found again
    after the removal exactly when it had more than one entry. *)
Theorem RemovePropagatedVariable_removes_first :
  forall this V,
    let this' := RemovePropagatedVariable this V in
    (forall V', V' <> V -> FindPropagatedVariable this' V' = FindPropagatedVariable this V')
    /\ (FindPropagatedVariable this V = None ->
        PropagatedStaticSwitchParameters this' = PropagatedStaticSwitchParameters this)
    /\ (forall P, FindPropagatedVariable this V = Some P ->
          exists before after,
            PropagatedStaticSwitchParameters this = before ++ P :: after
            /\ PropagatedStaticSwitchParameters this' = before ++ after
            /\ Forall (fun Q => SwitchParameter Q <> V) before)
    /\ (FindPropagatedVariable this' V = None <->
        length (List.filter (IsFor V) (PropagatedStaticSwitchParameters this)) <= 1)
    /\ InputPins this' = InputPins this /\ FunctionScript this' = FunctionScript this.
Proof.
  intros this V this'. unfold this', RemovePropagatedVariable, FindPropagatedVariable. simpl.
  split; [intros V' Hne; apply (RemoveFirstPropagated_other V V' _ Hne)|].
  split; [apply RemoveFirstPropagated_absent|].
  split; [intros P; apply RemoveFirstPropagated_split|].
  split; [|split; reflexivity].
  change (fun Propagated => VarEq (SwitchParameter Propagated) V) with (IsFor V).
  rewrite find_filter_nil, RemoveFirstPropagated_filter.
  destruct (List.filter (IsFor V) (PropagatedStaticSwitchParameters this)) as [|P [|Q l]];
    simpl; split; intros H; try reflexivity; try lia; discriminate.
Qed.

Lemma IsValidPropagatedVariable_SetPropagated l this V :
  IsValidPropagatedVariable (SetPropagated l this) V = IsValidPropagatedVariable this V.
Proof. reflexivity. Qed.

Lemma CleanupLoop_no_graph this l :
  GetCalledGraph this = Returned None -> CleanupLoop this l = Returned [].
Proof.
  intros Hg. induction l as [|P l IH]; simpl; [reflexivity|].
  rewrite IH. simpl. unfold IsValidPropagatedVariable. rewrite Hg. simpl.
  destruct (IsNone _); reflexivity.
Qed.

Lemma CleanupLoop_failing this l :
  GetCalledGraph this = CheckFailed ->
  CleanupLoop this l
  = if forallb (fun P => IsNone (GetName (SwitchParameter P))) l
    then Returned [] else CheckFailed.
Proof.
  intros Hg. induction l as [|P l IH]; simpl; [reflexivity|].
  rewrite IH. unfold IsValidPropagatedVariable. rewrite Hg.
  destruct (IsNone _); simpl; destruct (forallb _ l); reflexivity.
Qed.

Lemma CleanupLoop_kept this l l' :
  CleanupLoop this l = Returned l' -> l' = List.filter (KeptByCleanup this) l.
Proof.
  destruct (GetCalledGraph this) as [|[g|]] eqn:Hg.
  - rewrite (CleanupLoop_failing _ _ Hg).
    destruct (forallb _ l) eqn:Hall; [|discriminate]. intros [= <-].
    symmetry. induction l as [|P l IH]; simpl in *; [reflexivity|].
    apply andb_true_iff in Hall as [HP Hall]. unfold KeptByCleanup at 1. rewrite HP. simpl.
    apply IH, Hall.
  - rewrite (CleanupLoop_filter _ g) by exact Hg. intros [= <-].
    apply List.filter_ext. intros P. unfold StillValid, KeptByCleanup, IsValidPropagatedVariable.
    rewrite Hg. reflexivity.
  - rewrite (CleanupLoop_no_graph _ _ Hg). intros [= <-].
    symmetry. induction l as [|P l IH]; simpl; [reflexivity|].
    unfold KeptByCleanup at 1, IsValidPropagatedVariable. rewrite Hg. simpl.
    rewrite andb_false_r. exact IH.
Qed.

(** X10.  Whenever [CleanupPropagatedSwitchValues] returns, it has changed
    nothing but the propagated set; the set holds, in their order, the
    entries whose variable has a name and is a static switch input of the
    called graph; every entry left is valid for the node as it is now; and a
    second cleanup changes nothing. *)
Theorem CleanupPropagatedSwitchValues_keeps_valid :
  forall this this',
    CleanupPropagatedSwitchValues this = Returned this' ->
    this' = SetPropagated (PropagatedStaticSwitchParameters this') this
    /\ PropagatedStaticSwitchParameters this'
       = List.filter (KeptByCleanup this) (PropagatedStaticSwitchParameters this)
    /\ Forall (fun P => IsNone (GetName (SwitchParameter P)) = false
                        /\ IsValidPropagatedVariable this' (SwitchParameter P) = Returned true)
         (PropagatedStaticSwitchParameters this')
    /\ CleanupPropagatedSwitchValues this' = Returned this'.
Proof.
  intros this this' H. unfold CleanupPropagatedSwitchValues in H.
  apply bindC_Returned in H as (l' & Hl & [= <-]).
  apply CleanupLoop_kept in Hl. simpl.
  assert (Hall : Forall (fun P => IsNone (GetName (SwitchParameter P)) = false
                                  /\ IsValidPropagatedVariable this (SwitchParameter P)
                                     = Returned true) l').
  { rewrite Hl. apply Forall_forall. intros P HP. apply filter_In in HP as [_ HP].
    unfold KeptByCleanup in HP. apply andb_true_iff in HP as [Hn Hv].
    apply negb_true_iff in Hn. split; [exact Hn|].
    destruct (IsValidPropagatedVariable this (SwitchParameter P)) as [|[]];
      try discriminate; reflexivity. }
  split; [reflexivity|]. split; [exact Hl|]. split; [exact Hall|].
  unfold CleanupPropagatedSwitchValues. simpl.
  assert (Hagain : forall l1, CleanupLoop (SetPropagated l1 this) l' = Returned l').
  { intros l1. clear Hl. induction Hall as [|P l0 [Hn Hv] _ IH]; simpl; [reflexivity|].
    rewrite IH. simpl. rewrite Hn, IsValidPropagatedVariable_SetPropagated, Hv. reflexivity. }
  rewrite Hagain. reflexivity.
Qed.

(** X11.  [CleanupPropagatedSwitchValues] stops on a failed assertion
    exactly when the script of the node has no source of the right class
    and some entry has a name (an entry without name is removed before the
    called graph is asked for); and for a node without called graph it
    removes every entry. *)
Theorem CleanupPropagatedSwitchValues_fails_iff :
  forall this,
    (CleanupPropagatedSwitchValues this = CheckFailed <->
     GetCalledGraph this = CheckFailed
     /\ Exists (fun P => IsNone (GetName (SwitchParameter P)) = false)
          (PropagatedStaticSwitchParameters this))
    /\ (GetCalledGraph this = Returned None ->
        CleanupPropagatedSwitchValues this = Returned (SetPropagated [] this)).
Proof.
  intros this. unfold CleanupPropagatedSwitchValues. split.
  - destruct (GetCalledGraph this) as [|[g|]] eqn:Hg.
    + rewrite (CleanupLoop_failing _ _ Hg).
      destruct (forallb _ _) eqn:Hall; simpl.
      * split; [discriminate|]. intros [_ Hex]. apply Exists_exists in Hex as (P & HP & Hn).
        rewrite forallb_forall in Hall. rewrite (Hall P HP) in Hn. discriminate.
      * split; [|reflexivity]. intros _. split; [reflexivity|].
        apply Exists_exists.
        induction (PropagatedStaticSwitchParameters this) as [|P l IH]; simpl in Hall;
          [discriminate|].
        destruct (IsNone _) eqn:Hn; simpl in Hall.
        -- destruct (IH Hall) as (Q & HQ & HQn). exists Q. split; [right; exact HQ|exact HQn].
        -- exists P. split; [left; reflexivity|exact Hn].
    + rewrite (CleanupLoop_filter _ g) by exact Hg. simpl.
      split; [discriminate|]. intros [H _]. discriminate.
    + rewrite (CleanupLoop_no_graph _ _ Hg). simpl.
      split; [discriminate|]. intros [H _]. discriminate.
  - intros Hg. rewrite (CleanupLoop_no_graph _ _ Hg). reflexivity.
Qed.

Lemma FindByPredicate_first {A} (P : A -> bool) l : forall i x,
  FindByPredicate P l = Some (i, x) <->
  l !! i = Some x /\ P x = true /\ forall k q, k < i -> l !! k = Some q -> P q = false.
Proof.
  induction l as [|a l IH]; intros i x; simpl.
  - split; [discriminate|]. intros [H _]. rewrite lookup_nil in H. discriminate.
  - destruct (P a) eqn:Ha.
    + split.
      * intros [= <- <-]. split; [reflexivity|]. split; [exact Ha|]. intros k q Hk. lia.
      * intros (Hl & Hp & Hfirst). destruct i as [|i].
        -- simpl in Hl. congruence.
        -- rewrite (Hfirst 0 a) in Ha by (reflexivity || lia). discriminate.
    + destruct (FindByPredicate P l) as [[i' y]|] eqn:Hf.
      * split.
        -- intros [= <- <-]. destruct (proj1 (IH i' y) eq_refl) as (Hl & Hp & Hfirst).
           split; [exact Hl|]. split; [exact Hp|].
           intros [|k] q Hk Hq; simpl in Hq; [congruence|]. apply (Hfirst k q); [lia|exact Hq].
        -- intros (Hl & Hp & Hfirst). destruct i as [|i]; simpl in Hl; [congruence|].
           assert (Hi : Some (i', y) = Some (i, x)).
           { apply IH. split; [exact Hl|]. split; [exact Hp|].
             intros k q Hk Hq. apply (Hfirst (S k) q); [lia|exact Hq]. }
           congruence.
      * split; [discriminate|].
        intros (Hl & Hp & Hfirst). destruct i as [|i]; simpl in Hl; [congruence|].
        assert (Hi : None = Some (i, x)).
        { apply IH. split; [exact Hl|]. split; [exact Hp|].
          intros k q Hk Hq. apply (Hfirst (S k) q); [lia|exact Hq]. }
        discriminate.
Qed.

Lemma FindByPredicate_None_iff {A} (P : A -> bool) l :
  FindByPredicate P l = None <-> forall x, In x l -> P x = false.
Proof.
  split; [intros H x; apply FindByPredicate_None; exact H|].
  induction l as [|a l IH]; simpl; [reflexivity|]. intros H.
  rewrite (H a) by (left; reflexivity). rewrite IH; [reflexivity|].
  intros x Hx. apply H. right. exact Hx.
Qed.

Lemma FindSwitchPinLoop_eq Name pins switches :
  FindSwitchPinLoop Name pins switches
  = if existsb (fun V => IsEqual (GetName V) Name) switches
    then FindByPredicate (fun Pin => IsEqual Name (GetFName Pin)) pins
    else None.
Proof.
  induction switches as [|V switches IH]; simpl; [reflexivity|].
  destruct (IsEqual (GetName V) Name); simpl; [|exact IH].
  destruct (FindByPredicate _ pins) eqn:Hf; [reflexivity|].
  rewrite IH. destruct (existsb _ switches); reflexivity.
Qed.

(** X12.  [FindStaticSwitchInputPin] of a graph-backed call site returns
    a pin exactly when the called graph has a static switch input of the
    name and some input pin carries the name: the pin returned is the first
    input pin of that name, whatever its type. *)
Theorem FindStaticSwitchInputPin_first_pin_named :
  forall this Script CalledGraph VariableName,
    GraphBacked this Script CalledGraph ->
    exists found,
      FindStaticSwitchInputPin this VariableName = Returned found
      /\ (forall j p,
            found = Some (j, p) <->
            (exists V, In V (FindStaticSwitchInputs CalledGraph) /\ GetName V = VariableName)
            /\ InputPins this !! j = Some p /\ PinName p = VariableName
            /\ forall k q, k < j -> InputPins this !! k = Some q -> PinName q <> VariableName)
      /\ (found = None <->
          (forall V, In V (FindStaticSwitchInputs CalledGraph) -> GetName V <> VariableName)
          \/ (forall q, In q (InputPins this) -> PinName q <> VariableName)).
Proof.
  intros this Script g Name [Hs Hg].
  unfold FindStaticSwitchInputPin, GetCalledGraph. rewrite Hs, Hg. simpl.
  eexists. split; [reflexivity|]. rewrite FindSwitchPinLoop_eq.
  assert (Hex : existsb (fun V => IsEqual (GetName V) Name) (FindStaticSwitchInputs g) = true
                <-> exists V, In V (FindStaticSwitchInputs g) /\ GetName V = Name).
  { rewrite existsb_exists. unfold IsEqual.
    split; intros (V & HV & He); exists V; split; auto;
      [apply bool_decide_eq_true in He | apply bool_decide_eq_true]; exact He. }
  assert (Hname : forall q : UEdGraphPin, IsEqual Name (GetFName q) = false <-> PinName q <> Name).
  { intros q. unfold IsEqual, GetFName. rewrite bool_decide_eq_false.
    split; intros H He; apply H; congruence. }
  assert (Hname' : forall q : UEdGraphPin, IsEqual Name (GetFName q) = true <-> PinName q = Name).
  { intros q. unfold IsEqual, GetFName. rewrite bool_decide_eq_true.
    split; intros H; congruence. }
  destruct (existsb _ (FindStaticSwitchInputs g)) eqn:Hb.
  - pose proof (proj1 Hex eq_refl) as HV. split.
    + intros j p. rewrite FindByPredicate_first. split.
      * intros (Hl & Hp & Hfirst). split; [exact HV|]. split; [exact Hl|].
        split; [apply Hname', Hp|]. intros k q Hk Hq. apply Hname. eauto.
      * intros (_ & Hl & Hp & Hfirst). split; [exact Hl|]. split; [apply Hname', Hp|].
        intros k q Hk Hq. apply Hname. eauto.
    + rewrite FindByPredicate_None_iff. split.
      * intros Hn. right. intros q Hq. apply Hname, Hn, Hq.
      * intros [Hn|Hn].
        -- destruct HV as (V & HV & He). exfalso. apply (Hn V HV He).
        -- intros q Hq. apply Hname, Hn, Hq.
  - assert (Hno : forall V, In V (FindStaticSwitchInputs g) -> GetName V <> Name).
    { intros V HV He. assert (false = true) by (apply Hex; eauto). discriminate. }
    split.
    + intros j p. split; [discriminate|]. intros ((V & HV & He) & _). exfalso. exact (Hno V HV He).
    + split; [intros _; left; exact Hno | reflexivity].
Qed.

Lemma fold_flags_value (hit flagof : FNiagaraVariable -> bool) switches b : forall p,
  (forall V, In V switches -> hit V = true -> flagof V = b) ->
  bDefaultValueIsIgnored p = b \/ (exists V, In V switches /\ hit V = true) ->
  bDefaultValueIsIgnored
    (fold_left (fun p V => if hit V then SetDefaultValueIsIgnored (flagof V) p else p)
       switches p) = b.
Proof.
  induction switches as [|V switches IH]; intros p Hf Hor; simpl.
  - destruct Hor as [H|(V & [] & _)]. exact H.
  - apply IH; [intros W HW Hh; apply Hf; [right; exact HW | exact Hh]|].
    destruct (hit V) eqn:Hv.
    + left. simpl. apply Hf; [left; reflexivity | exact Hv].
    + destruct Hor as [Hp|(W & [<-|HW] & Hh)]; [left; exact Hp|congruence|].
      right. exists W. auto.
Qed.

Lemma SetPropagationStatus_names (flagof : FNiagaraVariable -> bool) switches : forall pins,
  map PinName
    (fold_left (fun pins InputVar => SetFirstPinNamed (GetName InputVar) (flagof InputVar) pins)
       switches pins)
  = map PinName pins.
Proof.
  induction switches as [|V switches IH]; intros pins; simpl; [reflexivity|].
  rewrite IH. apply SetFirstPinNamed_names.
Qed.

Lemma lookup_same_names (pins pins' : list UEdGraphPin) k q :
  map PinName pins = map PinName pins' -> pins !! k = Some q ->
  exists q', pins' !! k = Some q' /\ PinName q' = PinName q.
Proof.
  revert pins' k. induction pins as [|a pins IH]; intros [|a' pins'] k H Hq;
    simpl in H; try discriminate.
  injection H as Ha H. destruct k as [|k]; simpl in *.
  - injection Hq as <-. eauto.
  - eapply IH; eauto.
Qed.

(** [UpdateNodeErrorMessage] changes the four message fields of the node
    and nothing else, and a second update changes nothing. *)
Lemma UpdateNodeErrorMessage_again :
  forall this,
    UpdateNodeErrorMessage (UpdateNodeErrorMessage this) = UpdateNodeErrorMessage this
    /\ UpdateNodeErrorMessage this
       = SetMessages (bHasCompilerMessage (UpdateNodeErrorMessage this))
           (ErrorType (UpdateNodeErrorMessage this)) (ErrorMsg (UpdateNodeErrorMessage this))
           (NodeUpgradeMessage (UpdateNodeErrorMessage this)) this.
Proof.
  intros this. unfold UpdateNodeErrorMessage.
  destruct this as [fs path sig spec name prop id ins outs en val has ty msg up]. simpl.
  destruct fs as [Script|]; simpl.
  - destruct (bDeprecated Script) eqn:Hd; simpl; [rewrite Hd; split; reflexivity|].
    destruct (bExperimental Script) eqn:He; simpl; rewrite Hd, He; split; reflexivity.
  - destruct (Signature_IsValid sig) eqn:Hv; simpl; [|rewrite Hv; split; reflexivity].
    destruct (bSoftDeprecatedFunction sig) eqn:Hs; simpl; [rewrite Hv, Hs; split; reflexivity|].
    destruct (Signature_bExperimental sig) eqn:He; simpl; rewrite Hv, Hs, ?He;
      split; reflexivity.
Qed.

Section RefreshCoverage.

Variable ReallocatePins : bool -> UNiagaraNodeFunctionCall -> UNiagaraNodeFunctionCall.

Lemma RefreshFromExternalChanges_graph_backed this Script g :
  GraphBacked this Script g ->
  RefreshFromExternalChanges ReallocatePins this
  = let mid :=
      SetPropagationStatus
        (SetPropagated
           (List.filter (StillValid g) (PropagatedStaticSwitchParameters this))
           (UpdateNodeErrorMessage this)) g in
    let bReload := negb (bool_decide (CachedChangeId this = GetChangeID g)) in
    Returned (bReload, if bReload then ReallocatePins false mid else mid).
Proof.
  intros [Hs Hg].
  destruct (UpdateNodeErrorMessage_frame this) as (Hu1 & Hu2 & Hu3 & Hu4).
  assert (Hcalled : GetCalledGraph (UpdateNodeErrorMessage this) = Returned (Some g)).
  { unfold GetCalledGraph. rewrite Hu1, Hs, Hg. reflexivity. }
  unfold RefreshFromExternalChanges, RefreshSwitches. rewrite Hs, Hg. simpl.
  rewrite Hcalled. simpl.
  unfold CleanupPropagatedSwitchValues. rewrite (CleanupLoop_filter _ g) by exact Hcalled.
  simpl. rewrite Hu3. destruct (negb _); reflexivity.
Qed.

(** X13.  After a refresh that finds the callee unchanged (no
    reallocation), the pin that [FindStaticSwitchInputPin] returns for a
    static switch input of the callee has its "default ignored" flag set
    exactly when the switch is propagated by the node: when the node had an
    entry for it before the refresh and the switch has a name.  The names
    of the static switch inputs are taken to be distinct. *)
Theorem RefreshFromExternalChanges_flags_switch_pin :
  forall this Script CalledGraph V mid j p,
    GraphBacked this Script CalledGraph ->
    NoDup (map GetName (FindStaticSwitchInputs CalledGraph)) ->
    In V (FindStaticSwitchInputs CalledGraph) ->
    RefreshFromExternalChanges ReallocatePins this = Returned (false, mid) ->
    FindStaticSwitchInputPin mid (GetName V) = Returned (Some (j, p)) ->
    bDefaultValueIsIgnored p = bool_decide (FindPropagatedVariable mid V <> None)
    /\ (FindPropagatedVariable mid V <> None <->
        IsNone (GetName V) = false /\ FindPropagatedVariable this V <> None).
Proof.
  intros this Script g V mid j p Hgb Hn HV Hr Hfind.
  rewrite (RefreshFromExternalChanges_graph_backed _ _ _ Hgb) in Hr. simpl in Hr.
  destruct (negb (bool_decide (CachedChangeId this = GetChangeID g))); [discriminate|].
  injection Hr as <-.
  destruct (UpdateNodeErrorMessage_frame this) as (Hu1 & Hu2 & Hu3 & Hu4).
  destruct Hgb as [Hs Hg].
  set (this2 := SetPropagated
                  (List.filter (StillValid g) (PropagatedStaticSwitchParameters this))
                  (UpdateNodeErrorMessage this)) in *.
  set (flagof := fun InputVar => bool_decide (FindPropagatedVariable this2 InputVar <> None)).
  assert (Hsame : forall W, In W (FindStaticSwitchInputs g) -> GetName W = GetName V -> W = V).
  { clear -Hn HV. induction (FindStaticSwitchInputs g) as [|a l IH]; [contradiction|].
    simpl in Hn. apply list.NoDup_cons in Hn as [Ha Hl].
    intros W [<-|HW] He; destruct HV as [<-|HV']; auto.
    - exfalso. apply Ha. rewrite He. apply list_elem_of_In, in_map, HV'.
    - exfalso. apply Ha. rewrite <- He. apply list_elem_of_In, in_map, HW. }
  split.
  - (* the pin found is the first pin named after the switch *)
    unfold FindStaticSwitchInputPin, GetCalledGraph in Hfind. simpl in Hfind.
    rewrite Hu1, Hs, Hg in Hfind. simpl in Hfind. injection Hfind as Hfind.
    rewrite FindSwitchPinLoop_eq in Hfind.
    destruct (existsb _ (FindStaticSwitchInputs g)); [|discriminate].
    apply FindByPredicate_first in Hfind as (Hl & Hp & Hfirst).
    rewrite Hu2 in Hl, Hfirst.
    pose proof (SetPropagationStatus_names flagof (FindStaticSwitchInputs g) (InputPins this))
      as Hnames.
    destruct (lookup_same_names _ _ _ _ Hnames Hl) as (p0 & Hp0 & Hp0n).
    pose proof (SetPropagationStatus_lookup flagof (FindStaticSwitchInputs g)
                  (InputPins this) j p0 (PinName p0) (map PinName (InputPins this))
                  Hp0 eq_refl eq_refl) as Hl'.
    pose proof (eq_trans (eq_sym Hl) Hl') as Heq. injection Heq as Hpeq.
    unfold IsEqual, GetFName in Hp. apply bool_decide_eq_true in Hp.
    change (FindPropagatedVariable (SetPropagationStatus this2 g) V)
      with (FindPropagatedVariable this2 V).
    rewrite Hpeq.
    apply (fold_flags_value _ flagof _ (flagof V)).
    + intros W HW Hh. apply andb_true_iff in Hh as [Hh _].
      unfold IsEqual in Hh. apply bool_decide_eq_true in Hh.
      f_equal. apply Hsame; [exact HW|]. congruence.
    + right. exists V. split; [exact HV|]. apply andb_true_iff.
      split; [unfold IsEqual; apply bool_decide_eq_true_2; congruence|].
      apply forallb_take_names. intros k q Hk Hq.
      symmetry in Hnames. destruct (lookup_same_names _ _ _ _ Hnames Hq) as (q' & Hq' & Hqn).
      pose proof (Hfirst k q' Hk Hq') as Hne. unfold IsEqual, GetFName in *.
      apply bool_decide_eq_false in Hne. rewrite bool_decide_eq_false_2; [reflexivity|].
      congruence.
  - change (FindPropagatedVariable (SetPropagationStatus this2 g) V)
      with (List.find (IsFor V)
              (List.filter (StillValid g) (PropagatedStaticSwitchParameters this))).
    change (FindPropagatedVariable this V)
      with (List.find (IsFor V) (PropagatedStaticSwitchParameters this)).
    rewrite find_filter_Some, find_Some_iff.
    assert (Hvalid : forall P, IsFor V P = true ->
                               StillValid g P = negb (IsNone (GetName V))).
    { intros P HP. apply VarEq_eq in HP. unfold StillValid. rewrite HP.
      replace (existsb _ _) with true; [apply andb_true_r|].
      symmetry. apply existsb_exists. exists V. split; [exact HV|]. apply VarEq_eq. reflexivity. }
    split.
    + intros (P & HP & Hf & Hv). rewrite (Hvalid P Hf) in Hv. apply negb_true_iff in Hv.
      split; [exact Hv|]. exists P. auto.
    + intros (Hname & P & HP & Hf). exists P. split; [exact HP|]. split; [exact Hf|].
      rewrite (Hvalid P Hf), Hname. reflexivity.
Qed.

Lemma UpdateNodeErrorMessage_commutes pins l n :
  UpdateNodeErrorMessage (SetInputPins pins (SetPropagated l n))
  = SetInputPins pins (SetPropagated l (UpdateNodeErrorMessage n)).
Proof.
  unfold UpdateNodeErrorMessage. simpl.
  destruct (FunctionScript n) as [Script|].
  - destruct (bDeprecated Script); [reflexivity|]. destruct (bExperimental Script); reflexivity.
  - destruct (Signature_IsValid (Signature n)); [|reflexivity].
    destruct (bSoftDeprecatedFunction (Signature n)); [reflexivity|].
    destruct (Signature_bExperimental (Signature n)); reflexivity.
Qed.

Lemma filter_again {A} (f : A -> bool) l :
  List.filter f (List.filter f l) = List.filter f l.
Proof.
  induction l as [|x l IH]; simpl; [reflexivity|].
  destruct (f x) eqn:Hx; simpl; [rewrite Hx, IH; reflexivity | exact IH].
Qed.

(** A pass of the flag loop over one pin either leaves the pin alone or
    writes one flag, the same whatever the pin's flag was. *)
Lemma fold_flags_constant (hit flagof : FNiagaraVariable -> bool) switches :
  (forall p, fold_left (fun p V => if hit V then SetDefaultValueIsIgnored (flagof V) p else p)
               switches p = p)
  \/ exists b,
       forall p, fold_left (fun p V => if hit V then SetDefaultValueIsIgnored (flagof V) p else p)
                   switches p = SetDefaultValueIsIgnored b p.
Proof.
  induction switches as [|V switches IH] using rev_ind; [left; reflexivity|].
  destruct (hit V) eqn:Hv.
  - right. exists (flagof V). intros p. rewrite fold_left_app. simpl. rewrite Hv.
    destruct IH as [IH|[b IH]]; rewrite IH; reflexivity.
  - destruct IH as [IH|[b IH]]; [left|right; exists b]; intros p;
      rewrite fold_left_app; simpl; rewrite Hv; apply IH.
Qed.

Lemma fold_flags_again (hit flagof : FNiagaraVariable -> bool) switches p :
  let F := fold_left (fun p V => if hit V then SetDefaultValueIsIgnored (flagof V) p else p)
             switches in
  F (F p) = F p /\ PinName (F p) = PinName p.
Proof.
  intros F. unfold F.
  destruct (fold_flags_constant hit flagof switches) as [H|[b H]]; rewrite !H;
    split; reflexivity.
Qed.

Lemma SetPropagationStatus_again (flagof : FNiagaraVariable -> bool) switches pins :
  let F := fold_left
             (fun pins InputVar => SetFirstPinNamed (GetName InputVar) (flagof InputVar) pins)
             switches in
  F (F pins) = F pins.
Proof.
  intros F. apply list_eq. intros j.
  pose proof (SetPropagationStatus_names flagof switches pins) as Hnames. fold F in Hnames.
  destruct (pins !! j) as [p|] eqn:Hp.
  - pose proof (SetPropagationStatus_lookup flagof switches pins j p (PinName p)
                  (map PinName pins) Hp eq_refl eq_refl) as H1.
    fold F in H1.
    destruct (fold_flags_again
                (fun V => IsEqual (GetName V) (PinName p)
                          && forallb (fun m' => negb (IsEqual (GetName V) m'))
                               (take j (map PinName pins)))
                flagof switches p) as [Hagain Hname].
    pose proof (SetPropagationStatus_lookup flagof switches (F pins) j _ (PinName p)
                  (map PinName pins) H1 Hname Hnames) as H2.
    fold F in H2. rewrite H2, H1. f_equal. exact Hagain.
  - assert (Hlen : forall l : list UEdGraphPin, length (F l) = length l).
    { intros l. rewrite <- (length_map PinName (F l)), <- (length_map PinName l).
      unfold F. rewrite SetPropagationStatus_names. reflexivity. }
    apply lookup_ge_None in Hp.
    rewrite !(proj2 (lookup_ge_None _ _)); [reflexivity | | ]; rewrite ?Hlen; exact Hp.
Qed.

(** X14.  A refresh that finds the callee unchanged is idempotent: a
    second refresh of the node that the first has left returns false again
    and changes nothing, neither the propagated set, nor a flag of a pin,
    nor a message. *)
Theorem RefreshFromExternalChanges_twice :
  forall this Script CalledGraph mid,
    GraphBacked this Script CalledGraph ->
    RefreshFromExternalChanges ReallocatePins this = Returned (false, mid) ->
    RefreshFromExternalChanges ReallocatePins mid = Returned (false, mid).
Proof.
  intros this Script g mid Hgb Hr.
  rewrite (RefreshFromExternalChanges_graph_backed _ _ _ Hgb) in Hr. cbv zeta in Hr.
  destruct (negb (bool_decide (CachedChangeId this = GetChangeID g))) eqn:Hid;
    [discriminate|].
  injection Hr as <-.
  destruct (UpdateNodeErrorMessage_frame this) as (Hu1 & Hu2 & Hu3 & _).
  destruct (UpdateNodeErrorMessage_again this) as [Hagain Hfields].
  destruct Hgb as [Hs Hg].
  set (l2 := List.filter (StillValid g) (PropagatedStaticSwitchParameters this)).
  set (this2 := SetPropagated l2 (UpdateNodeErrorMessage this)).
  set (flagof := fun InputVar => bool_decide (FindPropagatedVariable this2 InputVar <> None)).
  set (F := fold_left
              (fun pins InputVar => SetFirstPinNamed (GetName InputVar) (flagof InputVar) pins)
              (FindStaticSwitchInputs g)).
  set (mid := SetPropagationStatus this2 g).
  assert (Hmid : mid = SetInputPins (F (InputPins this)) this2).
  { unfold mid, SetPropagationStatus. simpl. rewrite Hu2. reflexivity. }
  assert (Hgb' : GraphBacked mid Script g).
  { split; [simpl; rewrite Hu1; exact Hs | exact Hg]. }
  assert (Hcached : CachedChangeId mid = CachedChangeId this).
  { simpl. rewrite Hfields. reflexivity. }
  assert (Hupdate : UpdateNodeErrorMessage mid = mid).
  { rewrite Hmid. unfold this2. rewrite UpdateNodeErrorMessage_commutes, Hagain. reflexivity. }
  rewrite (RefreshFromExternalChanges_graph_backed _ _ _ Hgb'). cbv zeta.
  rewrite Hcached, Hid, Hupdate. f_equal. f_equal.
  change (PropagatedStaticSwitchParameters mid) with l2.
  unfold l2 at 1. rewrite filter_again. fold l2.
  rewrite Hmid. unfold SetPropagationStatus. simpl.
  change (fold_left _ (FindStaticSwitchInputs g) (F (InputPins this)))
    with (F (F (InputPins this))).
  unfold F. rewrite SetPropagationStatus_again. reflexivity.
Qed.

End RefreshCoverage.

Section MessageCoverage.

Variable SysConstants : list FNiagaraVariable.
Variable GetUnusedFunctionInputPins : UNiagaraNodeFunctionCall -> list UEdGraphPin.
Variable GetDefaultObject : string -> option (FNiagaraFunctionSignature -> list FText).
Variable Translator : FHlslNiagaraTranslator.

Local Abbreviation CompileNode :=
  (Compile SysConstants GetUnusedFunctionInputPins GetDefaultObject Translator).

Lemma existsb_IsWarning_resolution d :
  forallb IsResolutionCall d = true -> existsb IsWarning d = false.
Proof.
  induction d as [|c d IH]; simpl; [reflexivity|].
  intros H. apply andb_true_iff in H as [Hc Hd]. rewrite (IH Hd).
  destruct c; try discriminate; reflexivity.
Qed.

(** X15.  The warning that [Compile] gives for a deprecated script is the
    message that [UpdateNodeErrorMessage] shows on the node, with severity
    "warning": for an enabled node it is the first call on the translator
    and the only warning; for a disabled node, or a script that is not
    deprecated, the compile gives no warning at all. *)
Theorem Compile_warns_with_node_message :
  forall this Script G Outputs r,
    FunctionScript this = Some Script ->
    CompileNode this G Outputs = Returned r ->
    (bDeprecated Script = true -> IsNodeEnabled this = true ->
     exists rest,
       Result_Calls r = Warning (ErrorMsg (UpdateNodeErrorMessage this)) :: rest
       /\ existsb IsWarning rest = false
       /\ bHasCompilerMessage (UpdateNodeErrorMessage this) = true
       /\ ErrorType (UpdateNodeErrorMessage this) = Severity_Warning)
    /\ (bDeprecated Script = false \/ IsNodeEnabled this = false ->
        existsb IsWarning (Result_Calls r) = false).
Proof.
  intros this Script G Outputs r Hs H.
  destruct (Compile_script_inv _ _ _ _ _ _ _ _ _ Hs H) as (FG & stF & Hg & HstF & ->).
  destruct (Loop_shape _ _ _ _ _ HstF) as (d & Hd & Hres & _ & _).
  apply existsb_IsWarning_resolution in Hres.
  assert (Hcalls : exists rest,
             Result_Calls (Niagara.AfterLoop Translator this Outputs stF)
             = (if bDeprecated Script && IsNodeEnabled this
                then [Warning (GetFormattedDeprecationMessage Script (FunctionDisplayName this))]
                else [])
               ++ EnterFunctionCallNode
                    (remove_dups (map PinName (GetUnusedFunctionInputPins this)))
                  :: d ++ rest
             /\ existsb IsWarning rest = false).
  { unfold Niagara.AfterLoop, Finish. rewrite Hd. unfold LoopStart. simpl Calls.
    destruct (bError stF); simpl; eexists;
      (split; [rewrite <- !app_assoc; simpl; reflexivity | reflexivity]). }
  destruct Hcalls as (tl & -> & Htl).
  split.
  - intros Hdep Hen. rewrite Hdep, Hen.
    exists (EnterFunctionCallNode (remove_dups (map PinName (GetUnusedFunctionInputPins this)))
              :: d ++ tl).
    split; [unfold UpdateNodeErrorMessage; rewrite Hs, Hdep; reflexivity|].
    split; [change (existsb IsWarning (d ++ tl) = false);
            rewrite existsb_app, Hres, Htl; reflexivity|].
    unfold UpdateNodeErrorMessage. rewrite Hs, Hdep. split; reflexivity.
  - intros Hor.
    assert (Hoff : bDeprecated Script && IsNodeEnabled this = false).
    { destruct Hor as [-> | ->]; [reflexivity | apply andb_false_r]. }
    rewrite Hoff. change (existsb IsWarning (d ++ tl) = false).
    rewrite existsb_app, Hres, Htl. reflexivity.
Qed.

End MessageCoverage.

Lemma CleanupPropagatedSwitchValues_keeps_valid_witness :
  exists this',
    CleanupPropagatedSwitchValues SwitchSite = Returned this'
    /\ this' = SetPropagated (PropagatedStaticSwitchParameters this') SwitchSite
    /\ PropagatedStaticSwitchParameters this'
       = List.filter (KeptByCleanup SwitchSite) (PropagatedStaticSwitchParameters SwitchSite)
    /\ Forall (fun P => IsNone (GetName (SwitchParameter P)) = false
                        /\ IsValidPropagatedVariable this' (SwitchParameter P) = Returned true)
         (PropagatedStaticSwitchParameters this')
    /\ CleanupPropagatedSwitchValues this' = Returned this'.
Proof.
  eexists. split; [reflexivity|].
  apply (CleanupPropagatedSwitchValues_keeps_valid SwitchSite). reflexivity.
Defined.

Lemma FindStaticSwitchInputPin_first_pin_named_witness :
  GraphBacked SwitchSite (Script SwitchCallee) SwitchCallee
  /\ exists found,
       FindStaticSwitchInputPin SwitchSite "Quality" = Returned found
       /\ (forall j p,
             found = Some (j, p) <->
             (exists V, In V (FindStaticSwitchInputs SwitchCallee) /\ GetName V = "Quality")
             /\ InputPins SwitchSite !! j = Some p /\ PinName p = "Quality"
             /\ forall k q, k < j -> InputPins SwitchSite !! k = Some q ->
                            PinName q <> "Quality")
       /\ (found = None <->
           (forall V, In V (FindStaticSwitchInputs SwitchCallee) -> GetName V <> "Quality")
           \/ (forall q, In q (InputPins SwitchSite) -> PinName q <> "Quality")).
Proof.
  split; [split; reflexivity|].
  apply (FindStaticSwitchInputPin_first_pin_named SwitchSite (Script SwitchCallee)
           SwitchCallee "Quality").
  split; reflexivity.
Defined.

Lemma RefreshFromExternalChanges_flags_switch_pin_witness :
  GraphBacked SwitchSite (Script SwitchCallee) SwitchCallee
  /\ NoDup (map GetName (FindStaticSwitchInputs SwitchCallee))
  /\ In Quality (FindStaticSwitchInputs SwitchCallee)
  /\ exists mid p,
       RefreshFromExternalChanges KeepPins SwitchSite = Returned (false, mid)
       /\ FindStaticSwitchInputPin mid (GetName Quality) = Returned (Some (0, p))
       /\ bDefaultValueIsIgnored p = bool_decide (FindPropagatedVariable mid Quality <> None)
       /\ (FindPropagatedVariable mid Quality <> None <->
           IsNone (GetName Quality) = false
           /\ FindPropagatedVariable SwitchSite Quality <> None).
Proof.
  assert (Hn : NoDup (map GetName (FindStaticSwitchInputs SwitchCallee))).
  { apply NoDup_ListNoDup. repeat constructor. simpl. tauto. }
  split; [split; reflexivity|]. split; [exact Hn|]. split; [left; reflexivity|].
  eexists. eexists. split; [reflexivity|]. split; [reflexivity|].
  apply (RefreshFromExternalChanges_flags_switch_pin KeepPins SwitchSite (Script SwitchCallee)
           SwitchCallee Quality _ 0 _);
    first [exact Hn | split; reflexivity | left; reflexivity | reflexivity].
Defined.

Lemma Compile_warns_with_node_message_witness :
  FunctionScript DeprecatedSite = Some DeprecatedScript
  /\ exists r,
       Compile [] NoUnusedPins NoDefaultObject Translator DeprecatedSite PlainGraph []
       = Returned r
       /\ (bDeprecated DeprecatedScript = true -> IsNodeEnabled DeprecatedSite = true ->
           exists rest,
             Result_Calls r = Warning (ErrorMsg (UpdateNodeErrorMessage DeprecatedSite)) :: rest
             /\ existsb IsWarning rest = false
             /\ bHasCompilerMessage (UpdateNodeErrorMessage DeprecatedSite) = true
             /\ ErrorType (UpdateNodeErrorMessage DeprecatedSite) = Severity_Warning)
       /\ (bDeprecated DeprecatedScript = false \/ IsNodeEnabled DeprecatedSite = false ->
           existsb IsWarning (Result_Calls r) = false).
Proof.
  split; [reflexivity|]. eexists. split; [reflexivity|].
  apply (Compile_warns_with_node_message [] NoUnusedPins NoDefaultObject Translator
           DeprecatedSite DeprecatedScript PlainGraph []); reflexivity.
Defined.

(** ** BuildParameterMapHistory: scopes *)




(** X17.  [BuildParameterMapHistory] stops on a failed assertion exactly
    when it reaches the function branch (the node is enabled, or the
    builder does not ignore disabled nodes, and the node has a script) and
    the script has no source of the right class, or the source has no
    graph, or the graph has no output node for the usages [Function],
    [Module] and [DynamicInput].  A disabled node that the builder ignores,
    and a node without script, never fail. *)
Theorem BuildParameterMapHistory_fails_iff :
  forall OutHistory this G bRecursive bFilterForCompilation,
    BuildParameterMapHistory OutHistory this G bRecursive bFilterForCompilation = CheckFailed
    <->
    (IsNodeEnabled this = true \/ GetIgnoreDisabled OutHistory = false)
    /\ exists Script,
         FunctionScript this = Some Script
         /\ forall FunctionGraph,
              GraphBacked this Script FunctionGraph ->
              FindCalleeOutputNode FunctionGraph = None.
Proof.
  intros H this G bRecursive bFilter. unfold BuildParameterMapHistory, GraphBacked.
  destruct (IsNodeEnabled this) eqn:He; simpl.
  2:{ destruct (GetIgnoreDisabled H) eqn:Hi; simpl.
      { split; [discriminate|]. intros [[Hf|Hf] _]; discriminate. }
      destruct (FunctionScript this) as [Script|] eqn:Hs.
      2:{ split; [destruct (_ || _); discriminate|]. intros (_ & S & HS & _). discriminate. }
      destruct (GetSource Script) as [[[[FG|]]|]|] eqn:Hg; simpl.
      - destruct (FindCalleeOutputNode FG) eqn:Ho.
        + split; [discriminate|]. intros (_ & S & [= <-] & Hno).
          rewrite (Hno FG) in Ho by (split; [reflexivity|exact Hg]). discriminate.
        + split; [|reflexivity]. intros _. split; [right; reflexivity|].
          exists Script. split; [reflexivity|]. intros FG' [_ Hg']. congruence.
      - split; [|reflexivity]. intros _. split; [right; reflexivity|].
        exists Script. split; [reflexivity|]. intros FG' [_ Hg']. congruence.
      - split; [|reflexivity]. intros _. split; [right; reflexivity|].
        exists Script. split; [reflexivity|]. intros FG' [_ Hg']. congruence.
      - split; [|reflexivity]. intros _. split; [right; reflexivity|].
        exists Script. split; [reflexivity|]. intros FG' [_ Hg']. congruence. }
  destruct (FunctionScript this) as [Script|] eqn:Hs.
  2:{ split; [destruct (_ || _); discriminate|]. intros (_ & S & HS & _). discriminate. }
  destruct (GetSource Script) as [[[[FG|]]|]|] eqn:Hg; simpl.
  - destruct (FindCalleeOutputNode FG) eqn:Ho.
    + split; [discriminate|]. intros (_ & S & [= <-] & Hno).
      rewrite (Hno FG) in Ho by (split; [reflexivity|exact Hg]). discriminate.
    + split; [|reflexivity]. intros _. split; [left; reflexivity|].
      exists Script. split; [reflexivity|]. intros FG' [_ Hg']. congruence.
  - split; [|reflexivity]. intros _. split; [left; reflexivity|].
    exists Script. split; [reflexivity|]. intros FG' [_ Hg']. congruence.
  - split; [|reflexivity]. intros _. split; [left; reflexivity|].
    exists Script. split; [reflexivity|]. intros FG' [_ Hg']. congruence.
  - split; [|reflexivity]. intros _. split; [left; reflexivity|].
    exists Script. split; [reflexivity|]. intros FG' [_ Hg']. congruence.
Qed.


(** ** CanAddToGraph: acceptance *)

Section CompositionCoverage.

Variable Super_CanAddToGraph :
  UNiagaraNodeFunctionCall -> UNiagaraGraph -> FText -> bool * FText.
Variable GetAssetByObjectPath : FName -> option (option UNiagaraScript).

Local Abbreviation CanAddNode := (CanAddToGraph Super_CanAddToGraph GetAssetByObjectPath).
Local Abbreviation Referenced := (FunctionGraphs GetAssetByObjectPath).

(** X18.  [CanAddToGraph] accepts exactly when the base class accepts and
    no graph referenced by the script about to be spawned lies in the
    package of the target graph; it then leaves the message as the base
    class has left it.  In particular a target graph without package, and a
    node whose script cannot be resolved (no script, and no path or no
    script asset under the path), are never refused for a cycle.  The target
    graph is not changed on any path. *)
Theorem CanAddToGraph_accepts_iff :
  forall this TargetGraph ErrorMsg0,
    let r := CanAddNode this TargetGraph ErrorMsg0 in
    (CanAdd r = true <->
     fst (Super_CanAddToGraph this TargetGraph ErrorMsg0) = true
     /\ forall Package, GetOutermost TargetGraph = Some Package ->
                        ~ In (Some Package) (Referenced this))
    /\ (CanAdd r = true -> OutErrorMsg r = snd (Super_CanAddToGraph this TargetGraph ErrorMsg0))
    /\ TargetGraph_after r = TargetGraph
    /\ (FunctionScript this = None ->
        IsNone (FunctionScriptAssetObjectPath this) = true
        \/ GetAssetByObjectPath (FunctionScriptAssetObjectPath this) = None
        \/ GetAssetByObjectPath (FunctionScriptAssetObjectPath this) = Some None ->
        Referenced this = []
        /\ CanAdd r = fst (Super_CanAddToGraph this TargetGraph ErrorMsg0)).
Proof.
  intros this T msg0 r. unfold r, CanAddToGraph.
  assert (Hex : existsb (fun FunctionPackage => SamePackage FunctionPackage (GetOutermost T))
                  (Referenced this) = false
                <-> forall Package, GetOutermost T = Some Package ->
                                    ~ In (Some Package) (Referenced this)).
  { rewrite <- not_true_iff_false, existsb_exists. split.
    - intros Hn Package HP Hin. apply Hn. exists (Some Package). split; [exact Hin|].
      rewrite HP. simpl. apply bool_decide_eq_true_2. reflexivity.
    - intros Hn (F & HF & Hs). unfold SamePackage in Hs.
      destruct F as [f|]; [|discriminate]. destruct (GetOutermost T) as [t|]; [|discriminate].
      apply bool_decide_eq_true in Hs. subst. apply (Hn t eq_refl HF). }
  assert (Hnone : FunctionScript this = None ->
                  IsNone (FunctionScriptAssetObjectPath this) = true
                  \/ GetAssetByObjectPath (FunctionScriptAssetObjectPath this) = None
                  \/ GetAssetByObjectPath (FunctionScriptAssetObjectPath this) = Some None ->
                  Referenced this = []).
  { intros Hs Hor. unfold FunctionGraphs, SpawningFunctionScript. rewrite Hs.
    destruct Hor as [-> | [-> | ->]]; simpl; try reflexivity.
    - destruct (negb _ && _); reflexivity.
    - destruct (negb _ && _); reflexivity. }
  destruct (Super_CanAddToGraph this T msg0) as [ok msg]. simpl.
  destruct ok; simpl.
  - destruct (existsb _ (Referenced this)) eqn:Hb; simpl.
    + split; [split; [discriminate|]|].
      * intros [_ Hn]. apply Hex in Hn. discriminate.
      * split; [discriminate|]. split; [reflexivity|].
        intros Hs Hor. rewrite (Hnone Hs Hor) in Hb. discriminate.
    + split; [split; [intros _; split; [reflexivity|apply Hex; reflexivity] | reflexivity]|].
      split; [reflexivity|]. split; [reflexivity|].
      intros Hs Hor. split; [apply (Hnone Hs Hor)|reflexivity].
  - split; [split; [discriminate|intros [H _]; discriminate]|].
    split; [discriminate|]. split; [reflexivity|].
    intros Hs Hor. split; [apply (Hnone Hs Hor)|reflexivity].
Qed.

End CompositionCoverage.

(** ** GatherExternalDependencyData: what is gathered *)

Lemma Reaches_through g u called g' :
  In (Some (Some called)) (Traversal g u) -> Reaches called g' -> Reaches g g'.
Proof. apply Reaches_call. Qed.

Lemma GatheredFrom_through g u called h path :
  In (Some (Some called)) (Traversal g u) -> GatheredFrom called h path -> GatheredFrom g h path.
Proof.
  intros Hin (g' & u' & Hr & H). exists g', u'. split; [|exact H].
  eapply Reaches_call; eassumption.
Qed.


Lemma Gathers_Returned g : Gathers g Returned.
Proof.
  intros refs refs' [= <-]. exists ([], []). rewrite Append_nil_r.
  split; [reflexivity | constructor].
Qed.

Lemma Gathers_bind g f k :
  Gathers g f -> Gathers g k -> Gathers g (fun refs => bindC (f refs) k).
Proof.
  intros Hf Hk refs refs' H. apply bindC_Returned in H as (r1 & H1 & H2).
  apply Hf in H1 as (a1 & -> & F1). apply Hk in H2 as (a2 & -> & F2).
  exists (Append a1 a2). rewrite Append_assoc. split; [reflexivity|].
  simpl. apply Forall2_app; assumption.
Qed.

Lemma Gathers_through g u called f :
  In (Some (Some called)) (Traversal g u) -> Gathers called f -> Gathers g f.
Proof.
  intros Hin Hf refs refs' H. apply Hf in H as (a & -> & F).
  exists a. split; [reflexivity|].
  induction F as [|h path hs paths Hh _ IH]; constructor; [|exact IH].
  apply GatheredFrom_through with u called; assumption.
Qed.

Lemma Gathers_AddReference g f h path :
  GatheredFrom g h path -> Gathers g f -> Gathers g (fun refs => f (AddReference h path refs)).
Proof.
  intros Hg Hf refs refs' H. apply Hf in H as (a & -> & F).
  exists (Append ([h], [path]) a). split.
  - unfold Append, AddReference. simpl. rewrite <- !app_assoc. reflexivity.
  - simpl. constructor; assumption.
Qed.

Lemma Gathers_VisitTraversal g u nodes :
  Forall (fun node => match node with
                      | Some (Some called) => Gathers called (GatherFromGraph called)
                      | _ => True
                      end) nodes ->
  (forall called, In (Some (Some called)) nodes -> In (Some (Some called)) (Traversal g u)) ->
  Gathers g (VisitTraversal GatherFromGraph nodes).
Proof.
  induction 1 as [|node rest Hnode _ IH]; intros Hsub; [apply Gathers_Returned|].
  change (VisitTraversal GatherFromGraph (node :: rest))
    with (fun refs =>
            bindC (match node with
                   | None => Returned refs
                   | Some None => CheckFailed
                   | Some (Some g) => GatherFromGraph g refs
                   end) (VisitTraversal GatherFromGraph rest)).
  assert (Hrest : Gathers g (VisitTraversal GatherFromGraph rest)).
  { apply IH. intros called Hc. apply Hsub. right. exact Hc. }
  destruct node as [[called|]|].
  - apply Gathers_bind; [|exact Hrest].
    apply (Gathers_through g u called); [apply Hsub; left; reflexivity | exact Hnode].
  - intros refs refs' H. discriminate.
  - apply (Gathers_bind g Returned); [apply Gathers_Returned | exact Hrest].
Qed.

Lemma Gathers_TryUsage g u visit :
  (u = Script_Function \/ u = Script_Module \/ u = Script_DynamicInput) ->
  Gathers g (visit (Traversal g u)) ->
  Gathers g (TryUsage visit (GetPathName g) (GetBaseId g u) (GetCompileDataHash g u)
               (Traversal g u)).
Proof.
  intros Hu Hv. unfold TryUsage.
  destruct (FGuid_IsValid (GetBaseId g u) && CompileHash_IsValid (GetCompileDataHash g u))
    eqn:Hvalid.
  - apply andb_true_iff in Hvalid as [Hid Hhash].
    apply (Gathers_AddReference g (visit (Traversal g u))); [|exact Hv].
    exists g, u. split; [apply Reaches_self|]. auto.
  - apply Gathers_Returned.
Qed.

Lemma Gathers_GatherFromGraph g : Gathers g (GatherFromGraph g).
Proof.
  induction g as [PathName BaseId CompileDataHash Nodes IH]
    using ReferencedGraph_induction.
  set (g := MakeGraph PathName BaseId CompileDataHash Nodes).
  change (GatherFromGraph g)
    with (fun refs =>
            bindC (TryUsage (VisitTraversal GatherFromGraph) (GetPathName g)
                     (GetBaseId g Script_Function) (GetCompileDataHash g Script_Function)
                     (Traversal g Script_Function) refs)
              (fun refs =>
                 bindC (TryUsage (VisitTraversal GatherFromGraph) (GetPathName g)
                          (GetBaseId g Script_Module) (GetCompileDataHash g Script_Module)
                          (Traversal g Script_Module) refs)
                   (TryUsage (VisitTraversal GatherFromGraph) (GetPathName g)
                      (GetBaseId g Script_DynamicInput)
                      (GetCompileDataHash g Script_DynamicInput)
                      (Traversal g Script_DynamicInput)))).
  repeat apply Gathers_bind;
    (apply Gathers_TryUsage; [tauto|]);
    (eapply Gathers_VisitTraversal; [apply IH | intros called Hc; exact Hc]).
Qed.

(** X19.  Every entry that [GatherExternalDependencyData] adds belongs to
    a graph reached from the called graph through the call sites of the
    traversals: the two arrays grow in step, the path of such a graph beside
    its compile hash for one of the usages from [Function] to
    [DynamicInput], and both the hash and the base id of that usage are
    valid.  Nothing that the arrays held is changed. *)
Theorem GatherExternalDependencyData_gathers_reachable :
  forall FunctionGraph refs refs',
    GatherExternalDependencyData (Some (Some FunctionGraph)) refs = Returned refs' ->
    exists added,
      refs' = Append refs added
      /\ Forall2 (GatheredFrom FunctionGraph) (fst added) (snd added).
Proof. intros g refs refs' H. apply (Gathers_GatherFromGraph g refs refs' H). Qed.

Lemma GatherExternalDependencyData_gathers_reachable_witness :
  exists refs',
    GatherExternalDependencyData (Some (Some GraphA)) ([], []) = Returned refs'
    /\ exists added,
         refs' = Append ([], []) added
         /\ Forall2 (GatheredFrom GraphA) (fst added) (snd added).
Proof.
  eexists. split; [reflexivity|].
  apply (GatherExternalDependencyData_gathers_reachable GraphA ([], [])). reflexivity.
Defined.

(** ** AllocateDefaultPins *)

Lemma NoDup_map_inj {A B} (f : A -> B) (l : list A) x y :
  NoDup (map f l) -> In x l -> In y l -> f x = f y -> x = y.
Proof.
  induction l as [|a l IH]; simpl; [contradiction|].
  intros Hn Hx Hy He. apply list.NoDup_cons in Hn as [Ha Hl].
  destruct Hx as [<-|Hx], Hy as [<-|Hy]; auto.
  - exfalso. apply Ha. rewrite He. apply list_elem_of_In, in_map, Hy.
  - exfalso. apply Ha. rewrite <- He. apply list_elem_of_In, in_map, Hx.
Qed.

Lemma SlotsAsAllocated_links nodes pins pins' G G' :
  map PinToNiagaraVariable pins' = map PinToNiagaraVariable pins ->
  OnlyLinksAdded pins pins' G G' ->
  SlotsAsAllocated nodes pins -> SlotsAsAllocated nodes pins'.
Proof.
  intros Hslots (added & _ & _ & Hpins) Hinv inp Hin.
  destruct (Hinv inp Hin) as [Hex Hflag].
  pose proof (SlotIndex_same_slots pins' pins inp Hslots) as Hidx.
  split.
  - intros He Hnone. apply (Hex He).
    apply MatchingPin_None_SlotIndex. rewrite <- Hidx.
    apply MatchingPin_None_SlotIndex. exact Hnone.
  - intros i p' Hm.
    assert (Hs : SlotIndex pins inp = Some i).
    { rewrite <- Hidx. unfold SlotIndex. rewrite Hm. reflexivity. }
    apply MatchingPin_SlotIndex in Hs as [p Hp].
    destruct (Hflag i p Hp) as [He Hf]. split; [exact He|].
    apply MatchingPin_lookup in Hp as [Hl _]. apply MatchingPin_lookup in Hm as [Hl' _].
    destruct (Hpins i p Hl) as (q' & Hq' & (_ & _ & Hsame & _) & _).
    assert (q' = p') as -> by congruence. congruence.
Qed.

Section CompileAfterAllocation.

Variable SysConstants : list FNiagaraVariable.
Variable Translator : FHlslNiagaraTranslator.
Variable nodes : list UNiagaraNodeInput.

Local Abbreviation Loop := (CompileFunctionInputs SysConstants Translator).
Local Abbreviation Resolves := (Niagara.Resolves SysConstants Translator).

Lemma Resolves_errors inp st st' :
  Resolves inp st st' -> In inp nodes -> SlotsAsAllocated nodes (CallerInputPins st) ->
  exists d, Calls st' = Calls st ++ d /\ Forall (ErrorAfterAllocation nodes) d.
Proof.
  intros H Hin Hinv. destruct (Hinv inp Hin) as [Hex Hflag].
  destruct H as [Hm He|Hm ? ?|Hm ? ?|i p r Hm ?|i p v u Hm ? ? p'|i p Hm ? ? Hr Hd
                |i p Hm ? ? ? ?|i p Hm ? ? ?];
    simpl;
    try (eexists; split; [reflexivity|]; repeat constructor; fail);
    try (exists []; split; [symmetry; apply app_nil_r | constructor]).
  - exfalso. apply (Hex He Hm).
  - eexists. split; [reflexivity|]. constructor; [|constructor]. simpl.
    destruct (Hflag i p Hm) as [He Hf]. exists inp.
    split; [exact Hin|]. split; [exact He|]. split; [exact Hr|].
    apply MatchingPin_lookup in Hm as [_ Hv].
    split; [|rewrite <- Hv; reflexivity].
    rewrite Hd in Hf. unfold InlineDefaultAllowed in Hf. rewrite Hr in Hf. simpl in Hf.
    intros Hc. rewrite bool_decide_eq_true_2 in Hf by exact Hc. discriminate.
Qed.

Lemma Loop_errors l : forall st st',
  Loop l st = Returned st' -> (forall x, In x l -> In x nodes) ->
  SlotsAsAllocated nodes (CallerInputPins st) ->
  exists d, Calls st' = Calls st ++ d /\ Forall (ErrorAfterAllocation nodes) d.
Proof.
  induction l as [|inp l IH]; intros st st' H Hsub Hinv; simpl in H.
  - injection H as <-. exists []. rewrite app_nil_r. split; [reflexivity|constructor].
  - apply bindC_Returned in H as (st1 & H1 & H2). apply Step_Resolves in H1.
    destruct (Resolves_errors _ _ _ H1 (Hsub inp (or_introl eq_refl)) Hinv) as (d1 & Hd1 & Hf1).
    assert (Hinv1 : SlotsAsAllocated nodes (CallerInputPins st1)).
    { eapply SlotsAsAllocated_links; [|apply (Resolves_links _ _ _ _ _ H1)|exact Hinv].
      apply (frame_slots _ _ (Resolves_Frame _ _ _ _ _ H1)). }
    destruct (IH st1 st' H2) as (d2 & Hd2 & Hf2); [intros x Hx; apply Hsub; right; exact Hx|exact Hinv1|].
    exists (d1 ++ d2). rewrite Hd2, Hd1, app_assoc. split; [reflexivity|].
    apply Forall_app; split; assumption.
Qed.

End CompileAfterAllocation.

Section AllocationCoverage.

Variable GetAssetByObjectPath : FName -> option (option UNiagaraScript).
Variable CreatePin : EEdGraphPinDirection -> FNiagaraTypeDefinition -> FName -> FAllocatedPin.
Variable AllowDynamicPins : bool.
Variable CreateAddPin : EEdGraphPinDirection -> FAllocatedPin.
Variable GetParameters_Outputs : UNiagaraGraph -> list FNiagaraVariable.
Variable InputNode_GetInputPins : UNiagaraNodeInput -> list UEdGraphPin.
Variable TryGetPinDefaultValueFromNiagaraVariable :
  FNiagaraVariable -> option Z -> option FString.
Variable GetStaticSwitchDefaultValue : UNiagaraGraph -> FNiagaraVariable -> option Z.
Variable ComputeNodeName : UNiagaraNodeFunctionCall -> FString.

Variable SysConstants : list FNiagaraVariable.
Variable GetUnusedFunctionInputPins : UNiagaraNodeFunctionCall -> list UEdGraphPin.
Variable GetDefaultObject : string -> option (FNiagaraFunctionSignature -> list FText).
Variable Translator : FHlslNiagaraTranslator.
Variable ReallocatePins : bool -> UNiagaraNodeFunctionCall -> UNiagaraNodeFunctionCall.

Local Abbreviation InputPin :=
  (AllocateInputPin CreatePin InputNode_GetInputPins TryGetPinDefaultValueFromNiagaraVariable).
Local Abbreviation SwitchPin :=
  (AllocateSwitchPin CreatePin TryGetPinDefaultValueFromNiagaraVariable
     GetStaticSwitchDefaultValue).
Local Abbreviation Allocate :=
  (AllocateDefaultPins GetAssetByObjectPath CreatePin AllowDynamicPins CreateAddPin
     GetParameters_Outputs InputNode_GetInputPins TryGetPinDefaultValueFromNiagaraVariable
     GetStaticSwitchDefaultValue ComputeNodeName).
Local Abbreviation CompileNode :=
  (Compile SysConstants GetUnusedFunctionInputPins GetDefaultObject Translator).

Lemma SetPinAutoGeneratedDefaultValue_pin a n :
  Allocated_Pin (SetPinAutoGeneratedDefaultValue InputNode_GetInputPins
                   TryGetPinDefaultValueFromNiagaraVariable a n)
  = Allocated_Pin a.
Proof.
  unfold SetPinAutoGeneratedDefaultValue.
  destruct (bDefaultValueIsIgnored (Allocated_Pin a)); [reflexivity|].
  destruct (InputNode_GetInputPins n) as [|p0 [|p1 rest]];
    try destruct (bDefaultValueIsIgnored p0);
    try destruct (TryGetPinDefaultValueFromNiagaraVariable (Input n) None); reflexivity.
Qed.

Lemma AllocateInputPin_pin inp :
  CreatePin_as_asked CreatePin ->
  PinToNiagaraVariable (Allocated_Pin (InputPin inp)) = Input inp
  /\ bDefaultValueIsIgnored (Allocated_Pin (InputPin inp)) = negb (InlineDefaultAllowed inp)
  /\ bAdvancedView (InputPin inp) = IsHidden inp
  /\ LinkedTo (Allocated_Pin (InputPin inp))
     = LinkedTo (Allocated_Pin (CreatePin EGPD_Input (GetType (Input inp))
                                  (GetName (Input inp)))).
Proof.
  intros Hc. destruct (Hc EGPD_Input (GetType (Input inp)) (GetName (Input inp))) as [Hn Ht].
  unfold AllocateInputPin. simpl. rewrite !SetPinAutoGeneratedDefaultValue_pin. simpl.
  split; [|repeat split].
  unfold PinToNiagaraVariable. simpl. rewrite Hn, Ht. destruct (Input inp). reflexivity.
Qed.

Lemma AllocateSwitchPin_pin this Graph V :
  CreatePin_as_asked CreatePin ->
  PinToNiagaraVariable (Allocated_Pin (SwitchPin this Graph V)) = V
  /\ bDefaultValueIsIgnored (Allocated_Pin (SwitchPin this Graph V))
     = bool_decide (FindPropagatedVariable this V <> None)
  /\ bNotConnectable (SwitchPin this Graph V) = true.
Proof.
  intros Hc. destruct (Hc EGPD_Input (GetType V) (GetName V)) as [Hn Ht].
  unfold AllocateSwitchPin.
  destruct (TryGetPinDefaultValueFromNiagaraVariable V _); simpl;
    unfold PinToNiagaraVariable; simpl; rewrite Hn, Ht; destruct V; repeat split.
Qed.

(** The node that the allocation leaves for a script with a graph. *)
Lemma AllocateDefaultPins_graph_backed this Script Graph :
  SpawningFunctionScript GetAssetByObjectPath this = Some Script ->
  GetSource Script = Some (Some {| NodeGraph := Some Graph |}) ->
  exists a,
    Allocate this = Returned a
    /\ FunctionScript (Allocated_Node a) = Some Script
    /\ CachedChangeId (Allocated_Node a) = GetChangeID Graph
    /\ PropagatedStaticSwitchParameters (Allocated_Node a)
       = PropagatedStaticSwitchParameters this
    /\ Allocated_Inputs a
       = map InputPin (List.filter IsExposed (FindInputNodes Graph))
         ++ map (SwitchPin this Graph) (FindStaticSwitchInputs Graph)
    /\ InputPins (Allocated_Node a) = InputPins this ++ map Allocated_Pin (Allocated_Inputs a).
Proof.
  intros Hs Hg. unfold AllocateDefaultPins, AllocatePins. rewrite Hs, Hg. simpl.
  eexists. split; [reflexivity|]. simpl.
  destruct (UpdateNodeErrorMessage_frame
              (let n := SetAllocated (Some Script)
                          (InputPins this
                           ++ map Allocated_Pin
                                (map InputPin (List.filter IsExposed (FindInputNodes Graph))
                                 ++ map (SwitchPin this Graph) (FindStaticSwitchInputs Graph)))
                          (OutputPins this
                           ++ map Allocated_Pin
                                (map (fun Output =>
                                        AllocatePin CreatePin EGPD_Output true (GetType Output)
                                          (GetName Output))
                                   (GetParameters_Outputs Graph)))
                          (GetChangeID Graph) this in
               if IsEmpty (FunctionDisplayName n)
               then SetFunctionDisplayName (ComputeNodeName n) n else n))
    as (Hu1 & Hu2 & Hu3 & _).
  simpl in Hu1, Hu2, Hu3.
  destruct (IsEmpty (FunctionDisplayName this)); simpl in *;
    (split; [exact Hu1|]); (split; [|split; [exact Hu3|split; [reflexivity|exact Hu2]]]);
    unfold UpdateNodeErrorMessage; simpl;
    destruct (bDeprecated Script); try destruct (bExperimental Script); reflexivity.
Qed.

Lemma In_lookup {A} (x : A) l : In x l -> exists k, l !! k = Some x.
Proof. intros H. apply list_elem_of_In, list_elem_of_lookup in H. exact H. Qed.

Lemma lookup_In {A} (l : list A) k x : l !! k = Some x -> In x l.
Proof. intros H. apply list_elem_of_In, list_elem_of_lookup. eauto. Qed.

(** The pins of a fresh allocation are as the compile expects them. *)
Lemma SlotsAsAllocated_fresh this Graph :
  CreatePin_as_asked CreatePin ->
  NoDup (map Input (FindInputNodes Graph)) ->
  (forall inp V, In inp (FindInputNodes Graph) -> In V (FindStaticSwitchInputs Graph) ->
                 IsExposed inp = false -> Input inp <> V) ->
  SlotsAsAllocated (FindInputNodes Graph)
    (map Allocated_Pin
       (map InputPin (List.filter IsExposed (FindInputNodes Graph))
        ++ map (SwitchPin this Graph) (FindStaticSwitchInputs Graph))).
Proof.
  intros Hc Hn Hsw inp Hin.
  set (E := map InputPin (List.filter IsExposed (FindInputNodes Graph))).
  set (S := map (SwitchPin this Graph) (FindStaticSwitchInputs Graph)).
  assert (Hown : IsExposed inp = true -> In (Allocated_Pin (InputPin inp)) (map Allocated_Pin E)).
  { intros He. apply in_map, in_map, filter_In. split; assumption. }
  assert (HE : forall p, In p (map Allocated_Pin E) ->
                 PinToNiagaraVariable p = Input inp ->
                 IsExposed inp = true
                 /\ bDefaultValueIsIgnored p = negb (InlineDefaultAllowed inp)).
  { intros p Hp Hv. apply in_map_iff in Hp as (a & <- & Ha).
    apply in_map_iff in Ha as (inp' & <- & Hinp'). apply filter_In in Hinp' as [Hin' He'].
    destruct (AllocateInputPin_pin inp' Hc) as (Hv' & Hf' & _).
    assert (inp' = inp) as ->.
    { apply (NoDup_map_inj Input (FindInputNodes Graph)); auto. congruence. }
    split; assumption. }
  rewrite map_app. fold E S. split.
  - intros He Hnone. unfold MatchingPin in Hnone.
    pose proof (FindByPredicate_None _ _ (Allocated_Pin (InputPin inp)) Hnone) as Hfalse.
    cbv beta in Hfalse. destruct (AllocateInputPin_pin inp Hc) as (Hv & _).
    rewrite Hv in Hfalse. rewrite (proj2 (IsEquivalent_eq _ _) eq_refl) in Hfalse.
    assert (true = false) by (apply Hfalse; apply in_or_app; left; apply Hown, He).
    discriminate.
  - intros i p Hm. unfold MatchingPin in Hm.
    apply FindByPredicate_first in Hm as (Hl & Hp & Hfirst).
    apply IsEquivalent_eq in Hp.
    destruct (decide (i < length (map Allocated_Pin E))) as [Hlt|Hge].
    + rewrite lookup_app_l in Hl by exact Hlt. apply (HE p (lookup_In _ _ _ Hl) Hp).
    + rewrite lookup_app_r in Hl by lia. apply lookup_In in Hl.
      apply in_map_iff in Hl as (a & <- & Ha). apply in_map_iff in Ha as (V & <- & HV).
      destruct (AllocateSwitchPin_pin this Graph V Hc) as (Hv & _). rewrite Hv in Hp.
      destruct (IsExposed inp) eqn:He.
      * exfalso. destruct (In_lookup _ _ (Hown eq_refl)) as (k & Hk).
        pose proof (lookup_lt_Some _ _ _ Hk) as Hklt.
        assert (Hk' : (map Allocated_Pin E ++ map Allocated_Pin S) !! k
                      = Some (Allocated_Pin (InputPin inp))).
        { rewrite lookup_app_l by exact Hklt. exact Hk. }
        pose proof (Hfirst k _ ltac:(lia) Hk') as Hfalse. cbv beta in Hfalse.
        destruct (AllocateInputPin_pin inp Hc) as (Hv' & _). rewrite Hv' in Hfalse.
        rewrite (proj2 (IsEquivalent_eq _ _) eq_refl) in Hfalse. discriminate.
      * exfalso. apply (Hsw inp V Hin HV He). symmetry. exact Hp.
Qed.

Lemma ErrorAfterAllocation_calls nodes calls :
  Forall (ErrorAfterAllocation nodes) calls ->
  ~ In (Error StaleFunctionCallError None) calls
  /\ forall PinDisplayName pin,
       In (Error (RequiredInputUnboundErrorFmt PinDisplayName) pin) calls ->
       exists inp, In inp nodes /\ IsExposed inp = true /\ IsRequired inp = true
                   /\ GetClass (GetType (Input inp)) <> None
                   /\ GetName (Input inp) = PinDisplayName.
Proof.
  intros H. rewrite Forall_forall in H. split.
  - intros Hin. apply (H _ Hin).
  - intros name pin Hin. apply (H _ Hin).
Qed.


(** X20.  A call site whose pins have just been allocated for a script
    with a graph compiles without failed assertion, and the compile does
    not find it stale; a required input is reported unbound only when it is
    of class type (for any other required input the allocation permits the
    inline default of its slot).  The node had no input pin before the
    allocation; the inputs of the callee are free of duplicates, and no
    static switch input stands for an input that is not exposed. *)
Theorem AllocateDefaultPins_then_Compile :
  forall this Script Graph,
    CreatePin_as_asked CreatePin ->
    SpawningFunctionScript GetAssetByObjectPath this = Some Script ->
    GetSource Script = Some (Some {| NodeGraph := Some Graph |}) ->
    InputPins this = [] ->
    NoDup (map Input (FindInputNodes Graph)) ->
    (forall inp V, In inp (FindInputNodes Graph) -> In V (FindStaticSwitchInputs Graph) ->
                   IsExposed inp = false -> Input inp <> V) ->
    exists a,
      Allocate this = Returned a
      /\ forall G Outputs,
           exists r,
             CompileNode (Allocated_Node a) G Outputs = Returned r
             /\ ~ In (Error StaleFunctionCallError None) (Result_Calls r)
             /\ forall PinDisplayName pin,
                  In (Error (RequiredInputUnboundErrorFmt PinDisplayName) pin) (Result_Calls r) ->
                  exists inp,
                    In inp (FindInputNodes Graph) /\ IsExposed inp = true
                    /\ IsRequired inp = true
                    /\ GetClass (GetType (Input inp)) <> None
                    /\ GetName (Input inp) = PinDisplayName.
Proof.
  intros this Script Graph Hc Hs Hg Hpins Hn Hsw.
  destruct (AllocateDefaultPins_graph_backed this Script Graph Hs Hg)
    as (a & Ha & Hscript & _ & _ & Hin & Hnode).
  exists a. split; [exact Ha|]. intros G Outputs.
  rewrite Hpins, Hin in Hnode. simpl in Hnode.
  pose proof (SlotsAsAllocated_fresh this Graph Hc Hn Hsw) as Hinv. rewrite <- Hnode in Hinv.
  assert (Hgb : GraphBacked (Allocated_Node a) Script Graph) by (split; assumption).
  assert (Hchecks : ChecksHold (InputPins (Allocated_Node a)) (FindInputNodes Graph)).
  { intros x Hx Hslot. destruct (Hinv x Hx) as [_ Hflag].
    unfold SlotIndex in Hslot.
    destruct (MatchingPin (InputPins (Allocated_Node a)) x) as [[i p]|] eqn:Hm;
      [|contradiction]. apply (Hflag i p eq_refl). }
  rewrite (Compile_graph_backed SysConstants GetUnusedFunctionInputPins GetDefaultObject
             Translator _ _ _ G Outputs Hgb).
  destruct (Loop_returns SysConstants Translator (FindInputNodes Graph)
              (LoopStart GetUnusedFunctionInputPins (Allocated_Node a) Script G) Hchecks)
    as [stF HstF].
  rewrite HstF. cbn [bindC]. eexists. split; [reflexivity|].
  apply ErrorAfterAllocation_calls.
  destruct (Loop_errors SysConstants Translator (FindInputNodes Graph) _ _ _ HstF)
    as (d & Hd & Hf); [auto|exact Hinv|].
  unfold Niagara.AfterLoop, Finish. simpl in Hd.
  destruct (negb (bError stF)); cbn [Result_Calls]; rewrite Hd;
    repeat (apply Forall_app; split); try exact Hf;
    try (destruct (bDeprecated Script && IsNodeEnabled (Allocated_Node a)));
    repeat constructor.
Qed.

(** X21.  A refresh right after an allocation: for a script with a graph
    the allocation has recorded the change id of the graph, so the refresh
    finds nothing to reload and returns false; a node allocated from a
    signature is given the invalid id, and when its signature is valid the
    refresh asks for a reallocation every time. *)
Theorem AllocateDefaultPins_then_Refresh :
  forall this,
    (forall Script Graph,
        SpawningFunctionScript GetAssetByObjectPath this = Some Script ->
        GetSource Script = Some (Some {| NodeGraph := Some Graph |}) ->
        exists a mid,
          Allocate this = Returned a
          /\ CachedChangeId (Allocated_Node a) = GetChangeID Graph
          /\ RefreshFromExternalChanges ReallocatePins (Allocated_Node a)
             = Returned (false, mid))
    /\ (SpawningFunctionScript GetAssetByObjectPath this = None ->
        exists a,
          Allocate this = Returned a
          /\ FGuid_IsValid (CachedChangeId (Allocated_Node a)) = false
          /\ RefreshFromExternalChanges ReallocatePins (Allocated_Node a)
             = Returned
                 (if Signature_IsValid (Signature this)
                  then (true, ReallocatePins false (UpdateNodeErrorMessage (Allocated_Node a)))
                  else (false, UpdateNodeErrorMessage (Allocated_Node a)))).
Proof.
  intros this. split.
  - intros Script Graph Hs Hg.
    destruct (AllocateDefaultPins_graph_backed this Script Graph Hs Hg)
      as (a & Ha & Hscript & Hid & _).
    assert (Hgb : GraphBacked (Allocated_Node a) Script Graph) by (split; assumption).
    exists a. eexists. split; [exact Ha|]. split; [exact Hid|].
    rewrite (RefreshFromExternalChanges_graph_backed ReallocatePins _ _ _ Hgb).
    cbv zeta. rewrite Hid, bool_decide_eq_true_2 by reflexivity. reflexivity.
  - intros Hs. unfold AllocateDefaultPins, AllocatePins. rewrite Hs. simpl.
    eexists. split; [reflexivity|]. simpl.
    set (n := if IsEmpty (FunctionDisplayName this) then _ else _).
    assert (Hn : FunctionScript n = None /\ Signature n = Signature this
                 /\ CachedChangeId n = FGuid_zero).
    { unfold n. destruct (IsEmpty _); repeat split. }
    destruct Hn as (Hn1 & Hn2 & Hn3).
    assert (Hu : FunctionScript (UpdateNodeErrorMessage n) = None
                 /\ Signature (UpdateNodeErrorMessage n) = Signature this
                 /\ CachedChangeId (UpdateNodeErrorMessage n) = FGuid_zero).
    { unfold UpdateNodeErrorMessage. rewrite Hn1.
      destruct (Signature_IsValid (Signature n)); [|auto].
      destruct (bSoftDeprecatedFunction (Signature n)); [simpl; auto|].
      destruct (Signature_bExperimental (Signature n)); simpl; auto. }
    destruct Hu as (Hu1 & Hu2 & Hu3).
    split; [rewrite Hu3; reflexivity|].
    unfold RefreshFromExternalChanges, RefreshSwitches. rewrite Hu1, Hu2. simpl.
    destruct (UpdateNodeErrorMessage_frame (UpdateNodeErrorMessage n)) as (Hf1 & _).
    unfold GetCalledGraph. rewrite Hf1, Hu1. simpl.
    destruct (Signature_IsValid (Signature this)); reflexivity.
Qed.

Lemma PinName_variable p v : PinToNiagaraVariable p = v -> PinName p = GetName v.
Proof. intros <-. reflexivity. Qed.

Lemma lookup_map {A B} (f : A -> B) (l : list A) k : map f l !! k = f <$> (l !! k).
Proof.
  revert k. induction l as [|x l IH]; intros [|k]; simpl; try reflexivity. apply IH.
Qed.

(** X24.  After an allocation for a script with a graph, the pin that
    [FindStaticSwitchInputPin] returns for the name of a static switch input
    is the pin that the allocation has created for the first static switch
    input of that name: it is not connectable, and its default is ignored
    exactly when the node propagates that switch.  The node had no input
    pin before the allocation, and no exposed input of the callee carries
    the name of the switch (pins are found by name alone). *)
Theorem AllocateDefaultPins_switch_pin_found :
  forall this Script Graph V,
    CreatePin_as_asked CreatePin ->
    SpawningFunctionScript GetAssetByObjectPath this = Some Script ->
    GetSource Script = Some (Some {| NodeGraph := Some Graph |}) ->
    InputPins this = [] ->
    In V (FindStaticSwitchInputs Graph) ->
    (forall inp, In inp (FindInputNodes Graph) -> IsExposed inp = true ->
                 GetName (Input inp) <> GetName V) ->
    exists a j pin V',
      Allocate this = Returned a
      /\ FindStaticSwitchInputPin (Allocated_Node a) (GetName V)
         = Returned (Some (j, Allocated_Pin pin))
      /\ Allocated_Inputs a !! j = Some pin
      /\ In V' (FindStaticSwitchInputs Graph) /\ GetName V' = GetName V
      /\ pin = SwitchPin this Graph V'
      /\ bNotConnectable pin = true
      /\ bDefaultValueIsIgnored (Allocated_Pin pin)
         = bool_decide (FindPropagatedVariable this V' <> None).
Proof.
  intros this Script Graph V Hc Hs Hg Hpins HV Hnames.
  destruct (AllocateDefaultPins_graph_backed this Script Graph Hs Hg)
    as (a & Ha & Hscript & _ & _ & Hin & Hnode).
  rewrite Hpins in Hnode. simpl in Hnode.
  set (E := map InputPin (List.filter IsExposed (FindInputNodes Graph))) in *.
  set (S := map (SwitchPin this Graph) (FindStaticSwitchInputs Graph)) in *.
  (* the first static switch input of the name *)
  destruct (FindByPredicate (fun V' => IsEqual (GetName V) (GetName V'))
              (FindStaticSwitchInputs Graph)) as [[k V']|] eqn:Hfind.
  2:{ pose proof (FindByPredicate_None _ _ V Hfind HV) as Hf. cbv beta in Hf.
      unfold IsEqual in Hf. rewrite bool_decide_eq_true_2 in Hf by reflexivity. discriminate. }
  apply FindByPredicate_first in Hfind as (Hk & Hname & Hfirst).
  unfold IsEqual in Hname. apply bool_decide_eq_true in Hname.
  destruct (AllocateSwitchPin_pin this Graph V' Hc) as (Hvar & Hflag & Hnc).
  exists a, (length E + k), (SwitchPin this Graph V'), V'.
  split; [exact Ha|].
  assert (HS : S !! k = Some (SwitchPin this Graph V')).
  { unfold S. rewrite lookup_map, Hk. reflexivity. }
  assert (Hj : Allocated_Inputs a !! (length E + k) = Some (SwitchPin this Graph V')).
  { rewrite Hin. rewrite lookup_app_r by lia.
    replace (length E + k - length E) with k by lia. exact HS. }
  split.
  - unfold FindStaticSwitchInputPin, GetCalledGraph. rewrite Hscript, Hg. simpl.
    rewrite FindSwitchPinLoop_eq.
    replace (existsb _ (FindStaticSwitchInputs Graph)) with true.
    2:{ symmetry. apply existsb_exists. exists V. split; [exact HV|].
        unfold IsEqual. apply bool_decide_eq_true_2. reflexivity. }
    f_equal. apply FindByPredicate_first. rewrite Hnode.
    split; [rewrite lookup_map, Hj; reflexivity|]. split.
    + unfold IsEqual, GetFName. apply bool_decide_eq_true_2.
      pose proof (PinName_variable _ _ Hvar) as Hn'. congruence.
    + intros k' q Hlt Hq. rewrite lookup_map, Hin in Hq.
      unfold IsEqual, GetFName. apply bool_decide_eq_false_2. intros Heq.
      destruct (decide (k' < length E)) as [HE|HE].
      * rewrite lookup_app_l in Hq by exact HE.
        destruct (E !! k') as [e|] eqn:He; [|discriminate]. injection Hq as <-.
        apply lookup_In in He. apply in_map_iff in He as (inp & <- & Hinp).
        apply filter_In in Hinp as [Hinp Hexp].
        destruct (AllocateInputPin_pin inp Hc) as (Hv & _).
        apply (Hnames inp Hinp Hexp).
        pose proof (PinName_variable _ _ Hv) as Hn'. congruence.
      * rewrite lookup_app_r in Hq by lia. unfold S in Hq. rewrite lookup_map in Hq.
        destruct (FindStaticSwitchInputs Graph !! (k' - length E)) as [V''|] eqn:HV'';
          [|discriminate].
        injection Hq as <-.
        pose proof (Hfirst (k' - length E) V'' ltac:(lia) HV'') as Hne.
        unfold IsEqual in Hne. apply bool_decide_eq_false in Hne. apply Hne.
        destruct (AllocateSwitchPin_pin this Graph V'' Hc) as (Hv'' & _).
        pose proof (PinName_variable _ _ Hv'') as Hn'. congruence.
  - split; [exact Hj|]. split; [apply (lookup_In _ _ _ Hk)|].
    split; [symmetry; exact Hname|]. split; [reflexivity|]. split; [exact Hnc|exact Hflag].
Qed.

End AllocationCoverage.

(** ** Compile: when the assertion fails *)

Section CompileFailure.

Variable SysConstants : list FNiagaraVariable.
Variable GetUnusedFunctionInputPins : UNiagaraNodeFunctionCall -> list UEdGraphPin.
Variable GetDefaultObject : string -> option (FNiagaraFunctionSignature -> list FText).
Variable Translator : FHlslNiagaraTranslator.

Local Abbreviation Loop := (CompileFunctionInputs SysConstants Translator).
Local Abbreviation Step := (CompileFunctionInput SysConstants Translator).
Local Abbreviation CompileNode :=
  (Compile SysConstants GetUnusedFunctionInputPins GetDefaultObject Translator).

Lemma Step_fails_iff inp st :
  Step inp st = CheckFailed <-> AssertionFails (CallerGraph st) (CallerInputPins st) inp.
Proof.
  unfold CompileFunctionInput, AssertionFails.
  destruct (MatchingPin (CallerInputPins st) inp) as [[i p]|] eqn:Hm.
  - destruct (TraceFirstLink (CallerGraph st) p) as [r|] eqn:Ht; simpl.
    + split; [discriminate|]. intros (i' & p' & [= <- <-] & Ht' & _). congruence.
    + unfold FindAutoBoundInput. destruct (IsExposed inp) eqn:He; simpl.
      * split; [|intros (_ & _ & _ & _ & Hf); discriminate].
        repeat match goal with
               | |- context [if ?b then _ else _] => destruct b; simpl
               | |- context [match ?x with _ => _ end] => destruct x; simpl
               end; discriminate.
      * split; [|reflexivity]. intros _. exists i, p. auto.
  - split; [|intros (i & p & Hf & _); discriminate].
    repeat match goal with
           | |- context [if ?b then _ else _] => destruct b; simpl
           end; discriminate.
Qed.

(** The steps for the other inputs leave the verdict on an input as it is. *)
Lemma AssertionFails_step x st st1 inp :
  Niagara.Resolves SysConstants Translator x st st1 -> Input x <> Input inp ->
  AssertionFails (CallerGraph st1) (CallerInputPins st1) inp
  <-> AssertionFails (CallerGraph st) (CallerInputPins st) inp.
Proof.
  intros Hx Hne.
  pose proof (Resolves_Frame _ _ _ _ _ Hx) as [Hs _ Ht].
  pose proof (SlotIndex_same_slots _ _ inp Hs) as Hidx.
  assert (Hpin : forall i, SlotIndex (CallerInputPins st) inp = Some i ->
                           CallerInputPins st1 !! i = CallerInputPins st !! i).
  { intros i Hi. apply (Resolves_other_pins _ _ _ _ _ _ Hx).
    intros Hxi. apply Hne. apply (SlotIndex_inj _ _ _ _ Hxi Hi). }
  unfold AssertionFails. split; intros (i & p & Hm & Htr & He).
  - assert (Hi : SlotIndex (CallerInputPins st) inp = Some i).
    { rewrite <- Hidx. unfold SlotIndex. rewrite Hm. reflexivity. }
    destruct (MatchingPin_SlotIndex _ _ _ Hi) as [p0 Hp0].
    exists i, p0. split; [exact Hp0|]. split; [|exact He].
    apply MatchingPin_lookup in Hm as [Hl _]. apply MatchingPin_lookup in Hp0 as [Hl0 _].
    rewrite (Hpin i Hi) in Hl. assert (p0 = p) as -> by congruence.
    rewrite <- (TraceFirstLink_graph _ _ p Ht). exact Htr.
  - assert (Hi : SlotIndex (CallerInputPins st) inp = Some i).
    { unfold SlotIndex. rewrite Hm. reflexivity. }
    assert (Hi1 : SlotIndex (CallerInputPins st1) inp = Some i) by (rewrite Hidx; exact Hi).
    destruct (MatchingPin_SlotIndex _ _ _ Hi1) as [p1 Hp1].
    exists i, p1. split; [exact Hp1|]. split; [|exact He].
    apply MatchingPin_lookup in Hm as [Hl _]. apply MatchingPin_lookup in Hp1 as [Hl1 _].
    rewrite (Hpin i Hi) in Hl1. assert (p1 = p) as -> by congruence.
    rewrite (TraceFirstLink_graph _ _ p Ht). exact Htr.
Qed.

Lemma Loop_fails_iff l : forall st,
  NoDup (map Input l) ->
  Loop l st = CheckFailed
  <-> exists inp, In inp l /\ AssertionFails (CallerGraph st) (CallerInputPins st) inp.
Proof.
  induction l as [|x l IH]; intros st Hn; simpl.
  - split; [discriminate|]. intros (inp & [] & _).
  - apply list.NoDup_cons in Hn as [Hx Hl].
    assert (Hne : forall inp, In inp l -> Input x <> Input inp).
    { intros inp Hin He. apply Hx. rewrite He. apply list_elem_of_In, in_map, Hin. }
    destruct (Step x st) as [|st1] eqn:Hstep; simpl.
    + split; [|reflexivity]. intros _. exists x. split; [left; reflexivity|].
      apply Step_fails_iff. exact Hstep.
    + pose proof Hstep as Hres. apply Step_Resolves in Hres.
      rewrite (IH st1 Hl). split.
      * intros (inp & Hin & Hf). exists inp. split; [right; exact Hin|].
        apply (AssertionFails_step x st st1 inp Hres (Hne inp Hin)). exact Hf.
      * intros (inp & [<-|Hin] & Hf).
        -- apply Step_fails_iff in Hf. congruence.
        -- exists inp. split; [exact Hin|].
           apply (AssertionFails_step x st st1 inp Hres (Hne inp Hin)). exact Hf.
Qed.

(** X22.  For a graph-backed call site whose callee has duplicate-free
    inputs, [Compile] stops on a failed assertion exactly when some input
    of the callee that is not exposed has a slot among the caller's input
    pins and that slot has no link that traces to an output: the loop then
    asks [FindAutoBoundInput] to bind an input that is not exposed. *)
Theorem Compile_fails_iff :
  forall this Script FunctionGraph G Outputs,
    GraphBacked this Script FunctionGraph ->
    NoDup (map Input (FindInputNodes FunctionGraph)) ->
    CompileNode this G Outputs = CheckFailed
    <-> exists inp, In inp (FindInputNodes FunctionGraph)
                    /\ AssertionFails G (InputPins this) inp.
Proof.
  intros this Script FG G Outputs Hg Hn.
  rewrite (Compile_graph_backed SysConstants GetUnusedFunctionInputPins GetDefaultObject
             Translator _ _ _ G Outputs Hg).
  rewrite <- (Loop_fails_iff (FindInputNodes FG)
                (LoopStart GetUnusedFunctionInputPins this Script G) Hn).
  destruct (Loop _ _); simpl; split; congruence.
Qed.

End CompileFailure.

Lemma Compile_fails_iff_witness :
  GraphBacked (CallSite (Some (Script Callee)) [Pin Seed [] true] [] []) (Script Callee) Callee
  /\ NoDup (map Input (FindInputNodes Callee))
  /\ (Compile [] NoUnusedPins NoDefaultObject Translator
        (CallSite (Some (Script Callee)) [Pin Seed [] true] [] []) PlainGraph [] = CheckFailed
      <-> exists inp, In inp (FindInputNodes Callee)
                      /\ AssertionFails PlainGraph [Pin Seed [] true] inp).
Proof.
  split; [split; reflexivity|]. split; [exact Samples_NoDup|].
  apply (Compile_fails_iff [] NoUnusedPins NoDefaultObject Translator
           (CallSite (Some (Script Callee)) [Pin Seed [] true] [] []) (Script Callee) Callee
           PlainGraph []); [split; reflexivity | exact Samples_NoDup].
Defined.

Lemma Samples_CreatePin : CreatePin_as_asked NewPin.
Proof. intros d T N. split; reflexivity. Qed.

Lemma AllocateDefaultPins_then_Compile_witness :
  CreatePin_as_asked NewPin
  /\ SpawningFunctionScript EmptyRegistry FreshSite = Some (Script SwitchedCallee)
  /\ GetSource (Script SwitchedCallee) = Some (Some {| NodeGraph := Some SwitchedCallee |})
  /\ InputPins FreshSite = []
  /\ NoDup (map Input (FindInputNodes SwitchedCallee))
  /\ (forall inp V, In inp (FindInputNodes SwitchedCallee) ->
                    In V (FindStaticSwitchInputs SwitchedCallee) ->
                    IsExposed inp = false -> Input inp <> V)
  /\ exists a,
       AllocateDefaultPins EmptyRegistry NewPin false NewAddPin NoOutputs NoInputPins
         NoSchemaDefault NoMetaData KeepName FreshSite = Returned a
       /\ map PinName (InputPins (Allocated_Node a)) = ["Velocity"; "Scale"; "Quality"]
       /\ forall G Outputs,
            exists r,
              Compile [] NoUnusedPins NoDefaultObject Translator (Allocated_Node a) G Outputs
              = Returned r
              /\ ~ In (Error StaleFunctionCallError None) (Result_Calls r)
              /\ forall PinDisplayName pin,
                   In (Error (RequiredInputUnboundErrorFmt PinDisplayName) pin)
                     (Result_Calls r) ->
                   exists inp,
                     In inp (FindInputNodes SwitchedCallee) /\ IsExposed inp = true
                     /\ IsRequired inp = true
                     /\ GetClass (GetType (Input inp)) <> None
                     /\ GetName (Input inp) = PinDisplayName.
Proof.
  assert (Hsw : forall inp V, In inp (FindInputNodes SwitchedCallee) ->
                              In V (FindStaticSwitchInputs SwitchedCallee) ->
                              IsExposed inp = false -> Input inp <> V).
  { intros inp V Hin [<-|[]] He. simpl in Hin.
    destruct Hin as [<-|[<-|[<-|[]]]]; discriminate. }
  split; [exact Samples_CreatePin|]. repeat (split; [reflexivity|]).
  split; [exact Samples_NoDup|]. split; [exact Hsw|].
  destruct (AllocateDefaultPins_then_Compile EmptyRegistry NewPin false NewAddPin NoOutputs
              NoInputPins NoSchemaDefault NoMetaData KeepName [] NoUnusedPins NoDefaultObject
              Translator FreshSite (Script SwitchedCallee) SwitchedCallee
              Samples_CreatePin eq_refl eq_refl eq_refl Samples_NoDup Hsw)
    as (a & Ha & Hcompile).
  exists a. split; [exact Ha|]. split; [|exact Hcompile].
  vm_compute in Ha. injection Ha as <-. reflexivity.
Defined.


Lemma RefreshFromExternalChanges_twice_witness :
  GraphBacked SwitchSite (Script SwitchCallee) SwitchCallee
  /\ exists mid,
       RefreshFromExternalChanges KeepPins SwitchSite = Returned (false, mid)
       /\ bDefaultValueIsIgnored <$> InputPins mid !! 0 = Some true
       /\ RefreshFromExternalChanges KeepPins mid = Returned (false, mid).
Proof.
  split; [split; reflexivity|]. eexists. split; [reflexivity|]. split; [reflexivity|].
  apply (RefreshFromExternalChanges_twice KeepPins SwitchSite (Script SwitchCallee)
           SwitchCallee); [split; reflexivity | reflexivity].
Defined.

(** ** GatherExternalDependencyData: nothing is missed *)

Lemma Adds_Gathers g f : Gathers g f -> Adds f.
Proof.
  intros H refs refs' Hr. apply H in Hr as (a & -> & F). exists a.
  split; [reflexivity|]. eapply Forall2_length. exact F.
Qed.

Lemma Adds_Returned : Adds Returned.
Proof. intros refs refs' [= <-]. exists ([], []). rewrite Append_nil_r. auto. Qed.

Lemma Adds_bind f k : Adds f -> Adds k -> Adds (fun refs => bindC (f refs) k).
Proof.
  intros Hf Hk refs refs' H. apply bindC_Returned in H as (r1 & H1 & H2).
  apply Hf in H1 as (a1 & -> & L1). apply Hk in H2 as (a2 & -> & L2).
  exists (Append a1 a2). rewrite Append_assoc. split; [reflexivity|].
  simpl. rewrite !length_app. lia.
Qed.

Lemma Adds_VisitTraversal nodes : Adds (VisitTraversal GatherFromGraph nodes).
Proof.
  induction nodes as [|node rest IH]; [apply Adds_Returned|].
  change (VisitTraversal GatherFromGraph (node :: rest))
    with (fun refs =>
            bindC (match node with
                   | None => Returned refs
                   | Some None => CheckFailed
                   | Some (Some g) => GatherFromGraph g refs
                   end) (VisitTraversal GatherFromGraph rest)).
  destruct node as [[called|]|].
  - apply Adds_bind; [apply (Adds_Gathers called), Gathers_GatherFromGraph | exact IH].
  - intros refs refs' H. discriminate.
  - apply (Adds_bind Returned); [apply Adds_Returned | exact IH].
Qed.

Lemma Adds_AddReference f h path : Adds f -> Adds (fun refs => f (AddReference h path refs)).
Proof.
  intros Hf refs refs' H. apply Hf in H as (a & -> & L).
  exists (Append ([h], [path]) a). split.
  - unfold Append, AddReference. simpl. rewrite <- !app_assoc. reflexivity.
  - simpl. lia.
Qed.

Lemma Adds_TryUsage path guid hash nodes :
  Adds (TryUsage (VisitTraversal GatherFromGraph) path guid hash nodes).
Proof.
  unfold TryUsage. destruct (_ && _).
  - apply (Adds_AddReference (VisitTraversal GatherFromGraph nodes)), Adds_VisitTraversal.
  - apply Adds_Returned.
Qed.

Lemma combine_Append a b :
  length (fst a) = length (snd a) ->
  combine (fst (Append a b)) (snd (Append a b))
  = combine (fst a) (snd a) ++ combine (fst b) (snd b).
Proof.
  destruct a as [a1 a2], b as [b1 b2]. simpl. revert a2.
  induction a1 as [|x a1 IH]; intros [|y a2] H; simpl in *; try discriminate; [reflexivity|].
  rewrite IH by lia. reflexivity.
Qed.

Lemma Collects_bind_l h path f k :
  Collects h path f -> Adds k -> Collects h path (fun refs => bindC (f refs) k).
Proof.
  intros Hf Hk refs refs' H. apply bindC_Returned in H as (r1 & H1 & H2).
  apply Hf in H1 as (a1 & -> & L1 & I1). apply Hk in H2 as (a2 & -> & L2).
  exists (Append a1 a2). rewrite Append_assoc. split; [reflexivity|].
  split; [simpl; rewrite !length_app; lia|].
  rewrite combine_Append by exact L1. apply in_or_app. left. exact I1.
Qed.

Lemma Collects_bind_r h path f k :
  Adds f -> Collects h path k -> Collects h path (fun refs => bindC (f refs) k).
Proof.
  intros Hf Hk refs refs' H. apply bindC_Returned in H as (r1 & H1 & H2).
  apply Hf in H1 as (a1 & -> & L1). apply Hk in H2 as (a2 & -> & L2 & I2).
  exists (Append a1 a2). rewrite Append_assoc. split; [reflexivity|].
  split; [simpl; rewrite !length_app; lia|].
  rewrite combine_Append by exact L1. apply in_or_app. right. exact I2.
Qed.

Lemma Collects_AddReference f h path :
  Adds f -> Collects h path (fun refs => f (AddReference h path refs)).
Proof.
  intros Hf refs refs' H. apply Hf in H as (a & -> & L).
  exists (Append ([h], [path]) a). split.
  - unfold Append, AddReference. simpl. rewrite <- !app_assoc. reflexivity.
  - split; [simpl; lia|]. simpl. left. reflexivity.
Qed.

Lemma Collects_after_AddReference f h path h' path' :
  Collects h path f -> Collects h path (fun refs => f (AddReference h' path' refs)).
Proof.
  intros Hf refs refs' H. apply Hf in H as (a & -> & L & I).
  exists (Append ([h'], [path']) a). split.
  - unfold Append, AddReference. simpl. rewrite <- !app_assoc. reflexivity.
  - split; [simpl; lia|]. simpl. right. exact I.
Qed.

Lemma Collects_VisitTraversal h path called nodes :
  In (Some (Some called)) nodes -> Collects h path (GatherFromGraph called) ->
  Collects h path (VisitTraversal GatherFromGraph nodes).
Proof.
  intros Hin Hc. induction nodes as [|node rest IH]; [contradiction|].
  change (VisitTraversal GatherFromGraph (node :: rest))
    with (fun refs =>
            bindC (match node with
                   | None => Returned refs
                   | Some None => CheckFailed
                   | Some (Some g) => GatherFromGraph g refs
                   end) (VisitTraversal GatherFromGraph rest)).
  destruct Hin as [->|Hin].
  - apply Collects_bind_l; [exact Hc | apply Adds_VisitTraversal].
  - destruct node as [[g|]|].
    + apply Collects_bind_r; [apply (Adds_Gathers g), Gathers_GatherFromGraph | exact (IH Hin)].
    + intros refs refs' H. discriminate.
    + apply (Collects_bind_r h path Returned); [apply Adds_Returned | exact (IH Hin)].
Qed.

(** What one round of the loop over the usages collects, the whole loop
    collects. *)
Lemma Collects_usage g u h path :
  (u = Script_Function \/ u = Script_Module \/ u = Script_DynamicInput) ->
  Collects h path
    (TryUsage (VisitTraversal GatherFromGraph) (GetPathName g) (GetBaseId g u)
       (GetCompileDataHash g u) (Traversal g u)) ->
  Collects h path (GatherFromGraph g).
Proof.
  intros Hu Hc. destruct g as [PathName BaseId CompileDataHash Nodes].
  set (g := MakeGraph PathName BaseId CompileDataHash Nodes) in *.
  change (GatherFromGraph g)
    with (fun refs =>
            bindC (TryUsage (VisitTraversal GatherFromGraph) (GetPathName g)
                     (GetBaseId g Script_Function) (GetCompileDataHash g Script_Function)
                     (Traversal g Script_Function) refs)
              (fun refs =>
                 bindC (TryUsage (VisitTraversal GatherFromGraph) (GetPathName g)
                          (GetBaseId g Script_Module) (GetCompileDataHash g Script_Module)
                          (Traversal g Script_Module) refs)
                   (TryUsage (VisitTraversal GatherFromGraph) (GetPathName g)
                      (GetBaseId g Script_DynamicInput)
                      (GetCompileDataHash g Script_DynamicInput)
                      (Traversal g Script_DynamicInput)))).
  destruct Hu as [-> | [-> | ->]].
  - apply Collects_bind_l; [exact Hc|]. apply Adds_bind; apply Adds_TryUsage.
  - apply Collects_bind_r; [apply Adds_TryUsage|].
    apply Collects_bind_l; [exact Hc | apply Adds_TryUsage].
  - apply Collects_bind_r; [apply Adds_TryUsage|].
    apply Collects_bind_r; [apply Adds_TryUsage | exact Hc].
Qed.

Lemma Collects_Visits g g' :
  Visits g g' ->
  forall u, UsageGathered g' u ->
    Collects (GetCompileDataHash g' u) (GetPathName g') (GatherFromGraph g).
Proof.
  induction 1 as [g|g u0 called g' [Hu0 [Hid0 Hh0]] Hin _ IH]; intros u Hu.
  - destruct Hu as (Hu & Hid & Hh). apply (Collects_usage g u); [exact Hu|].
    unfold TryUsage. rewrite Hid, Hh. simpl.
    apply (Collects_AddReference (VisitTraversal GatherFromGraph (Traversal g u))).
    apply Adds_VisitTraversal.
  - apply (Collects_usage g u0); [exact Hu0|].
    unfold TryUsage. rewrite Hid0, Hh0. simpl.
    apply (Collects_after_AddReference (VisitTraversal GatherFromGraph (Traversal g u0))).
    apply (Collects_VisitTraversal _ _ called); [exact Hin | apply IH, Hu].
Qed.

(** X23.  [GatherExternalDependencyData] misses nothing: whenever it
    returns, for every graph that it goes through from the called graph (by
    the call sites of the traversals of the usages that have a valid base id
    and a valid compile hash) and every such usage of that graph, the hash
    of the usage has been added to the array of hashes at the position at
    which the path of the graph has been added to the array of paths. *)
Theorem GatherExternalDependencyData_misses_nothing :
  forall FunctionGraph refs refs' g u,
    GatherExternalDependencyData (Some (Some FunctionGraph)) refs = Returned refs' ->
    Visits FunctionGraph g ->
    UsageGathered g u ->
    exists added,
      refs' = Append refs added
      /\ length (fst added) = length (snd added)
      /\ In (GetCompileDataHash g u, GetPathName g) (combine (fst added) (snd added)).
Proof.
  intros FG refs refs' g u H Hv Hu. apply (Collects_Visits FG g Hv u Hu refs refs' H).
Qed.

Lemma GatherExternalDependencyData_misses_nothing_witness :
  Visits GraphA GraphD
  /\ UsageGathered GraphD Script_Module
  /\ exists refs',
       GatherExternalDependencyData (Some (Some GraphA)) ([], []) = Returned refs'
       /\ exists added,
            refs' = Append ([], []) added
            /\ length (fst added) = length (snd added)
            /\ In (GetCompileDataHash GraphD Script_Module, GetPathName GraphD)
                 (combine (fst added) (snd added)).
Proof.
  assert (Hu : forall g, match g with
                         | MakeGraph _ ids hashes _ =>
                             ids = ModuleId ->
                             (exists h, hashes = ModuleHash h) ->
                             UsageGathered g Script_Module
                         end).
  { intros [p ids hashes nodes] -> [h ->]. split; [tauto|]. split; reflexivity. }
  assert (Hv : Visits GraphA GraphD).
  { apply (Visits_call GraphA Script_Module GraphB).
    - apply (Hu GraphA); [reflexivity | eexists; reflexivity].
    - left. reflexivity.
    - apply (Visits_call GraphB Script_Module GraphD).
      + apply (Hu GraphB); [reflexivity | eexists; reflexivity].
      + left. reflexivity.
      + apply Visits_self. }
  assert (HuD : UsageGathered GraphD Script_Module).
  { apply (Hu GraphD); [reflexivity | eexists; reflexivity]. }
  split; [exact Hv|]. split; [exact HuD|].
  eexists. split; [reflexivity|].
  apply (GatherExternalDependencyData_misses_nothing GraphA ([], []) _ GraphD Script_Module);
    [reflexivity | exact Hv | exact HuD].
Defined.

Lemma AllocateDefaultPins_switch_pin_found_witness :
  CreatePin_as_asked NewPin
  /\ SpawningFunctionScript EmptyRegistry FreshSite = Some (Script SwitchedCallee)
  /\ GetSource (Script SwitchedCallee) = Some (Some {| NodeGraph := Some SwitchedCallee |})
  /\ InputPins FreshSite = []
  /\ In Quality (FindStaticSwitchInputs SwitchedCallee)
  /\ (forall inp, In inp (FindInputNodes SwitchedCallee) -> IsExposed inp = true ->
                  GetName (Input inp) <> GetName Quality)
  /\ exists a j pin V',
       AllocateDefaultPins EmptyRegistry NewPin false NewAddPin NoOutputs NoInputPins
         NoSchemaDefault NoMetaData KeepName FreshSite = Returned a
       /\ FindStaticSwitchInputPin (Allocated_Node a) (GetName Quality)
          = Returned (Some (j, Allocated_Pin pin))
       /\ Allocated_Inputs a !! j = Some pin
       /\ In V' (FindStaticSwitchInputs SwitchedCallee) /\ GetName V' = GetName Quality
       /\ pin = AllocateSwitchPin NewPin NoSchemaDefault NoMetaData FreshSite SwitchedCallee V'
       /\ bNotConnectable pin = true
       /\ bDefaultValueIsIgnored (Allocated_Pin pin)
          = bool_decide (FindPropagatedVariable FreshSite V' <> None).
Proof.
  assert (Hnames : forall inp, In inp (FindInputNodes SwitchedCallee) -> IsExposed inp = true ->
                               GetName (Input inp) <> GetName Quality).
  { intros inp Hin _. simpl in Hin. destruct Hin as [<-|[<-|[<-|[]]]]; discriminate. }
  split; [exact Samples_CreatePin|]. repeat (split; [reflexivity|]).
  split; [left; reflexivity|]. split; [exact Hnames|].
  apply (AllocateDefaultPins_switch_pin_found EmptyRegistry NewPin false NewAddPin NoOutputs
           NoInputPins NoSchemaDefault NoMetaData KeepName FreshSite (Script SwitchedCallee)
           SwitchedCallee Quality Samples_CreatePin eq_refl eq_refl eq_refl
           (or_introl eq_refl) Hnames).
Defined.

End Niagara.
